(** * Oxford collocation card generator: extraction and serialisation

    A shallow embedding of [collocation_generator.py]: the walk over the
    parsed dictionary markup ([parse_collocation_html], [_parse_sb_g]), the
    card renderer ([generate_collocations_html]) and the TSV serialiser
    ([generate_anki_import_file]).

    Python strings are sequences of Unicode code points, the parsed markup
    is a tree of objects with identity, and [Tag.decompose] mutates that
    tree in place; the three are modelled as such. *)

From Stdlib Require Import Strings.String Strings.Ascii Numbers.DecimalString.
From Stdlib Require Import NArith ZArith Arith Bool Lia List.
Import ListNotations.
Open Scope list_scope.

Set Implicit Arguments.
Set Warnings "-register-all".

(** ** Strings *)

Module Str.

(** A Python [str]: a sequence of code points. *)
Definition str := list N.

(** An ASCII literal as a [str]. *)
Definition lit (s : string) : str :=
  List.map N_of_ascii (list_ascii_of_string s).

Fixpoint eqb (a b : str) : bool :=
  match a, b with
  | [], [] => true
  | x :: a', y :: b' => N.eqb x y && eqb a' b'
  | _, _ => false
  end.

(** Truthiness of a string: [if s:]. *)
Definition nonempty (s : str) : bool :=
  match s with [] => false | _ :: _ => true end.

(** The code points Python treats as white space, in [str.strip()] and in
    the pattern [\s] alike. *)
Definition isspace (c : N) : bool :=
  ((9 <=? c) && (c <=? 13) || (28 <=? c) && (c <=? 32)
   || (c =? 133) || (c =? 160) || (c =? 5760)
   || (8192 <=? c) && (c <=? 8202)
   || (c =? 8232) || (c =? 8233) || (c =? 8239) || (c =? 8287)
   || (c =? 12288))%N.

Fixpoint lstrip (s : str) : str :=
  match s with
  | [] => []
  | c :: t => if isspace c then lstrip t else s
  end.

Definition rstrip (s : str) : str := rev (lstrip (rev s)).

(** [s.strip()] *)
Definition strip (s : str) : str := rstrip (lstrip s).

(** [re.sub(r'\s+', ' ', s)]: every maximal run of white space becomes one
    space; [in_run] says that the previous character was white space. *)
Fixpoint sub_spaces (in_run : bool) (s : str) : str :=
  match s with
  | [] => []
  | c :: t =>
      if isspace c
      then (if in_run then sub_spaces true t else 32%N :: sub_spaces true t)
      else c :: sub_spaces false t
  end.

(** [s.upper()] on the ASCII letters. The one call site applies it to a
    member of [KEEP_SL_TYPES], all of them lower-case ASCII words. *)
Definition upper (s : str) : str :=
  List.map (fun c => if ((97 <=? c) && (c <=? 122))%N then (c - 32)%N else c) s.

(** [s.replace(c, '')] for a one-character [c]. *)
Definition remove_char (c : N) (s : str) : str :=
  filter (fun x => negb (N.eqb x c)) s.

(** [sep.join(parts)] *)
Fixpoint join (sep : str) (parts : list str) : str :=
  match parts with
  | [] => []
  | [p] => p
  | p :: rest => p ++ sep ++ join sep rest
  end.

(** [s.split(c)] for a one-character separator: always at least one piece. *)
Fixpoint split (c : N) (s : str) : list str :=
  match s with
  | [] => [[]]
  | x :: t =>
      if N.eqb x c then [] :: split c t
      else match split c t with
           | [] => [[x]]
           | p :: ps => (x :: p) :: ps
           end
  end.

(** [str(n)] of an integer. *)
Definition of_Z (z : Z) : str := lit (NilZero.string_of_int (Z.to_int z)).

Definition tab : N := 9.
Definition newline : N := 10.
Definition cr : N := 13.

End Str.

Import Str.

(** ** The parsed markup *)

(** What the parser hands over: text, other strings that [get_text] does
    not report (comments, declarations), and elements. *)
Inductive markup : Type :=
| MText (s : str)
| MComment (s : str)
| MTag (name : str) (attrs : list (str * str)) (children : list markup).

(** The objects BeautifulSoup builds from it. Every [Tag] has an identity
    [ident], by which the program's variables refer to it. *)
Inductive node : Type :=
| NavigableString (s : str)
| Comment (s : str)
| Tag (ident : nat) (name : str) (attrs : list (str * str)) (contents : list node).

Fixpoint alloc (m : markup) (next : nat) : node * nat :=
  match m with
  | MText s => (NavigableString s, next)
  | MComment s => (Comment s, next)
  | MTag name attrs children =>
      let go := fix go (ms : list markup) (next : nat) : list node * nat :=
        match ms with
        | [] => ([], next)
        | m :: rest =>
            let (n, next1) := alloc m next in
            let (ns, next2) := go rest next1 in
            (n :: ns, next2)
        end in
      let (cs, next') := go children (S next) in
      (Tag next name attrs cs, next')
  end.

(** [BeautifulSoup(html_content, 'html.parser')]: the document object is
    itself a tag, named [[document]], above the parsed nodes. Identities
    are given out from [first] on. *)
Definition BeautifulSoup_from (first : nat) (html_content : list markup) : node :=
  fst (alloc (MTag (lit "[document]") [] html_content) first).

Definition BeautifulSoup (html_content : list markup) : node :=
  BeautifulSoup_from 0 html_content.

Definition node_id (n : node) : option nat :=
  match n with Tag i _ _ _ => Some i | _ => None end.

Definition has_id (i : nat) (n : node) : bool :=
  match n with Tag j _ _ _ => Nat.eqb i j | _ => false end.

Definition has_name (names : list str) (n : node) : bool :=
  match n with Tag _ nm _ _ => existsb (Str.eqb nm) names | _ => false end.

(** A node followed by everything below it, in document order. *)
Fixpoint self_and_descendants (n : node) : list node :=
  n :: match n with
       | Tag _ _ _ cs => flat_map self_and_descendants cs
       | _ => []
       end.

Definition descendants (cs : list node) : list node :=
  flat_map self_and_descendants cs.

Fixpoint ids_of (l : list node) : list nat :=
  match l with
  | [] => []
  | Tag i _ _ _ :: r => i :: ids_of r
  | _ :: r => ids_of r
  end.

(** The identities of all tags of a forest. *)
Definition ids (cs : list node) : list nat := ids_of (descendants cs).

(** The forest without the nodes that [drop] selects, and without what is
    below them. *)
Fixpoint prune_node (drop : node -> bool) (n : node) : node :=
  match n with
  | Tag i nm at_ cs =>
      Tag i nm at_
        (flat_map (fun c => if drop c then [] else [prune_node drop c]) cs)
  | _ => n
  end.

Definition prune (drop : node -> bool) (cs : list node) : list node :=
  flat_map (fun c => if drop c then [] else [prune_node drop c]) cs.

Definition id_in (gone : list nat) (n : node) : bool :=
  existsb (fun j => has_id j n) gone.

(** The forest without the tags whose identity is in [gone]. *)
Definition prune_ids (gone : list nat) : list node -> list node :=
  prune (id_in gone).

(** The forest without the tags of the given names. *)
Definition prune_names (names : list str) : list node -> list node :=
  prune (has_name names).

(** The strings [get_text] reports, in document order. *)
Definition all_strings (cs : list node) : list str :=
  flat_map (fun n => match n with NavigableString s => [s] | _ => [] end)
    (descendants cs).

(** [tag.get_text()] over the contents [cs] of the tag. *)
Definition text_of (cs : list node) : str := concat (all_strings cs).

(** [tag.get_text(strip=True)]: every string stripped, the empty ones
    left out, the rest joined without a separator. *)
Definition stripped_text_of (cs : list node) : str :=
  concat (filter nonempty (List.map strip (all_strings cs))).

(** ** The document as the program's state *)

(** A run of the extractor works on one document object, which
    [Tag.decompose] changes in place. The state threaded through the
    program is that object as it stands; a variable holding a tag is the
    tag's identity, and what the program reads through it is read from the
    current document. *)

Inductive result (A : Type) : Type :=
| Ok (a : A)
| AttributeError.
Arguments AttributeError {A}.

Definition M (A : Type) : Type := node -> result (A * node).

Definition ret {A} (a : A) : M A := fun soup => Ok (a, soup).

Definition bind {A B} (m : M A) (k : A -> M B) : M B :=
  fun soup => match m soup with
              | Ok (a, soup') => k a soup'
              | AttributeError => AttributeError
              end.

Declare Scope py_scope.
Delimit Scope py_scope with py.
Notation "x <- m ;; k" := (bind m (fun x => k))
  (at level 61, m at next level, right associativity) : py_scope.
Notation "m ;;; k" := (bind m (fun _ => k))
  (at level 61, right associativity) : py_scope.
Open Scope py_scope.

(** [for x in xs: acc = body(x, acc)] *)
Fixpoint for_each {X A} (xs : list X) (body : X -> A -> M A) (acc : A) : M A :=
  match xs with
  | [] => ret acc
  | x :: rest => acc' <- body x acc ;; for_each rest body acc'
  end.

Fixpoint dict_get (key : str) (d : list (str * str)) (default : str) : str :=
  match d with
  | [] => default
  | (k, v) :: r => if Str.eqb k key then v else dict_get key r default
  end.

(** The tag of identity [t] in the document, if it is still there. *)
Definition lookup (t : nat) (soup : node) : option node :=
  List.find (has_id t) (self_and_descendants soup).

(** [t.contents]; a decomposed tag is empty. *)
Definition contents_in (soup : node) (t : nat) : list node :=
  match lookup t soup with
  | Some (Tag _ _ _ cs) => cs
  | _ => []
  end.

Definition contents (t : nat) : M (list node) :=
  fun soup => Ok (contents_in soup t, soup).

(** [t.find_all(names)], and [t.find_all(name, recursive=False)]: the
    matching tags in document order, as a list made at once. *)
Definition find_all (names : list str) (t : nat) : M (list nat) :=
  cs <- contents t ;; ret (ids_of (filter (has_name names) (descendants cs))).

Definition find_all_direct (name : str) (t : nat) : M (list nat) :=
  cs <- contents t ;; ret (ids_of (filter (has_name [name]) cs)).

(** [t.find(name)]: the first match, or [None]. *)
Definition find (name : str) (t : nat) : M (option nat) :=
  l <- find_all [name] t ;; ret (hd_error l).

Definition get_text (t : nat) : M str :=
  cs <- contents t ;; ret (text_of cs).

Definition get_text_strip (t : nat) : M str :=
  cs <- contents t ;; ret (stripped_text_of cs).

(** [t.get(key, default)]. A decomposed tag has lost its attribute
    dictionary, and asking it for an attribute raises. *)
Definition get (key default : str) (t : nat) : M str :=
  fun soup =>
    match lookup t soup with
    | Some (Tag _ _ attrs _) => Ok (dict_get key attrs default, soup)
    | _ => AttributeError
    end.

(** [t.decompose()]: [t] and all below it leave the document. *)
Definition decompose (t : nat) : M unit :=
  fun soup => Ok (tt, prune_node (has_id t) soup).

(** [for tag in t.find_all(names): tag.decompose()] *)
Definition decompose_all (names : list str) (t : nat) : M unit :=
  tags <- find_all names t ;;
  for_each tags (fun tag _ => decompose tag) tt.

(** ** The records the extractor builds *)

(** [{'en': ..., 'cn': ...}] *)
Module Example.
Record t : Type := make { en : str; cn : str }.
End Example.

(** [{'words': ..., 'chn': ..., 'examples': ...}] *)
Module Item.
Record t : Type :=
  make { words : list str; chn : str; examples : list Example.t }.
End Item.

(** [{'category': ..., 'items': ...}] *)
Module Group.
Record t : Type := make { category : str; items : list Item.t }.
End Group.

(** What [str()] is applied to in the serialiser. *)
Inductive pyval : Type :=
| PyStr (s : str)
| PyInt (z : Z).

(** A card. The extractor leaves the key [freq_rank] out; the caller may
    set it afterwards. *)
Module Card.
Record t : Type :=
  make { word : str; pos : str; sense_num : str; def_en : str; def_cn : str;
         collocation_groups : list Group.t; freq_rank : option pyval }.
End Card.

Definition KEEP_SL_TYPES : list str :=
  [lit "verbs"; lit "verbandhwd"; lit "hwdandverb"; lit "prep"].

(** ** Step 3: the extractor *)

(** The loop over the phrase nodes of [_parse_sb_g]: the state is the pair
    [(collocations, chn_text)]. The copy [cl_copy] that the source makes
    of each node is never used; the strip works on the node itself. *)
Definition parse_cl (cl : nat) (acc : list str * str) : M (list str * str) :=
  let (collocations, chn_text) := acc in
  chn <- find (lit "chn") cl ;;
  chn_text <- match chn with
              | Some chn => get_text_strip chn
              | None => ret chn_text
              end ;;
  decompose_all [lit "chn"; lit "chnsep"] cl ;;;
  cl_text <- get_text_strip cl ;;
  ret (if nonempty cl_text then collocations ++ [cl_text] else collocations,
       chn_text).

(** The loop over the example blocks of [_parse_sb_g]. *)
Definition parse_x_blk (x_blk : nat) (examples : list Example.t)
  : M (list Example.t) :=
  x_elem <- find (lit "x") x_blk ;;
  match x_elem with
  | Some x_elem =>
      x_chn <- find (lit "chn") x_elem ;;
      ex_cn <- match x_chn with
               | Some x_chn => get_text_strip x_chn
               | None => ret []
               end ;;
      decompose_all [lit "chn"; lit "chnsep"; lit "fthzmark"] x_elem ;;;
      ex_en <- get_text_strip x_elem ;;
      ret (if nonempty ex_en then examples ++ [Example.make ex_en ex_cn]
           else examples)
  | None => ret examples
  end.

(** The first loop of [_parse_sb_g], over the direct phrase nodes, and
    its second, over the direct example blocks. *)
Definition collocations_of (sb_g : nat) : M (list str * str) :=
  cls <- find_all_direct (lit "cl") sb_g ;;
  for_each cls parse_cl ([], []).

Definition examples_of (sb_g : nat) : M (list Example.t) :=
  x_blks <- find_all_direct (lit "x-blk") sb_g ;;
  for_each x_blks parse_x_blk [].

Definition _parse_sb_g (sb_g : nat) : M (option Item.t) :=
  acc <- collocations_of sb_g ;;
  let (collocations, chn_text) := acc in
  match collocations with
  | [] => ret None
  | _ :: _ =>
      examples <- examples_of sb_g ;;
      ret (Some (Item.make collocations chn_text examples))
  end.

(** The body of the loop over the sub-groups of a block. *)
Definition parse_item (sb_g : nat) (collocation_items : list Item.t)
  : M (list Item.t) :=
  item <- _parse_sb_g sb_g ;;
  ret (match item with
       | Some item => collocation_items ++ [item]
       | None => collocation_items
       end).

(** The body of the loop over the category blocks of an entry. *)
Definition parse_blk (blk : nat) (collocation_groups : list Group.t)
  : M (list Group.t) :=
  sl_type <- get (lit "sl") [] blk ;;
  if negb (existsb (Str.eqb sl_type) KEEP_SL_TYPES) then ret collocation_groups
  else
    head_elem <- find (lit "sl-g-head") blk ;;
    category_title <- match head_elem with
                      | Some head_elem => get_text head_elem
                      | None => ret (upper sl_type)
                      end ;;
    let category_title := strip (sub_spaces false category_title) in
    sb_gs <- find_all [lit "sb-g"] blk ;;
    collocation_items <- for_each sb_gs parse_item [] ;;
    ret (match collocation_items with
         | [] => collocation_groups
         | _ :: _ =>
             collocation_groups ++ [Group.make category_title collocation_items]
         end).

(** The definition of an entry: its secondary text, then the strip, then
    what is left. The result is [(def_en, def_cn)]. *)
Definition parse_def (def_elem : nat) : M (str * str) :=
  chn_elem <- find (lit "chn") def_elem ;;
  def_cn <- match chn_elem with
            | Some chn_elem => get_text_strip chn_elem
            | None => ret []
            end ;;
  decompose_all [lit "chn"] def_elem ;;;
  decompose_all [lit "chnsep"] def_elem ;;;
  def_en <- get_text_strip def_elem ;;
  ret (def_en, def_cn).

(** The text of the first [name] below [t], the empty string without one. *)
Definition text_of_first (name : str) (t : nat) : M str :=
  elem <- find name t ;;
  match elem with
  | Some elem => get_text_strip elem
  | None => ret []
  end.

(** The three parts of the body of the loop over the entries, in the
    order in which the source runs them: the head word, the fields read
    under [head], and the groups. *)
Definition entry_headword (word : str) (entry : nat) : M str :=
  h_elem <- find (lit "h") entry ;;
  match h_elem with
  | Some h_elem => get_text_strip h_elem
  | None => ret word
  end.

(** The result is [(pos, sense_num, def_en, def_cn)]. *)
Definition entry_head (entry : nat) : M (str * str * str * str) :=
  head <- find (lit "head") entry ;;
  match head with
  | Some head =>
      pos <- text_of_first (lit "p") head ;;
      sense_num <- text_of_first (lit "n-num") head ;;
      def_elem <- find (lit "def") head ;;
      defs <- match def_elem with
              | Some def_elem => parse_def def_elem
              | None => ret ([], [])
              end ;;
      ret (pos, sense_num, fst defs, snd defs)
  | None => ret ([], [], [], [])
  end.

Definition entry_groups (entry : nat) : M (list Group.t) :=
  sl_g_blks <- find_all [lit "sl-g-blk"] entry ;;
  for_each sl_g_blks parse_blk [].

(** The body of the loop over the entries: the card, or [None] where the
    source says [continue]. *)
Definition parse_entry (word : str) (entry : nat) : M (option Card.t) :=
  headword <- entry_headword word entry ;;
  fields <- entry_head entry ;;
  let '(pos, sense_num, def_en, def_cn) := fields in
  collocation_groups <- entry_groups entry ;;
  match collocation_groups with
  | [] => ret None
  | _ :: _ =>
      ret (Some (Card.make headword pos sense_num def_en def_cn
                   collocation_groups None))
  end.

Definition add_card (word : str) (entry : nat) (cards : list Card.t)
  : M (list Card.t) :=
  card <- parse_entry word entry ;;
  ret (match card with Some card => cards ++ [card] | None => cards end).

(** The loop over [soup.find_all('entry')], [root] being the document
    object itself. *)
Definition parse_soup (root : nat) (word : str) : M (list Card.t) :=
  entries <- find_all [lit "entry"] root ;;
  for_each entries (add_card word) [].

(** [parse_collocation_html(html_content, word)]. The argument is the
    document as the HTML parser reads it; an absent or empty
    [html_content] is the empty document. Every call builds its own
    document object, whose tags get the identities from [first] on. *)
Definition parse_collocation_html_from (first : nat)
    (html_content : list markup) (word : str) : result (list Card.t) :=
  match html_content with
  | [] => Ok []
  | _ :: _ =>
      match parse_soup first word (BeautifulSoup_from first html_content) with
      | Ok (cards, _) => Ok cards
      | AttributeError => AttributeError
      end
  end.

Definition parse_collocation_html : list markup -> str -> result (list Card.t) :=
  parse_collocation_html_from 0.

(** ** Step 4: the card fields *)

(** [<el class="cls">] *)
Definition open_tag (el cls : string) : str :=
  lit "<" ++ lit el ++ lit " class=" ++ [34%N] ++ lit cls ++ [34%N] ++ lit ">".

Definition render_word (w : str) : str :=
  open_tag "span" "colloc-word" ++ w ++ lit "</span>".

Definition render_example (ex : Example.t) : str :=
  open_tag "div" "colloc-example"
  ++ (open_tag "div" "ex-en" ++ [10022%N; 32%N] ++ Example.en ex ++ lit "</div>")
  ++ (if nonempty (Example.cn ex)
      then open_tag "div" "ex-cn" ++ Example.cn ex ++ lit "</div>"
      else [])
  ++ lit "</div>".

Definition render_item (item : Item.t) : str :=
  let words_str :=
    join (lit " " ++ open_tag "span" "sep" ++ lit "|</span> ")
      (List.map render_word (Item.words item)) in
  let words_str :=
    if nonempty (Item.chn item)
    then words_str ++ open_tag "span" "colloc-chn" ++ Item.chn item ++ lit "</span>"
    else words_str in
  open_tag "div" "colloc-item"
  ++ (open_tag "div" "colloc-words" ++ words_str ++ lit "</div>")
  ++ concat (List.map render_example (Item.examples item))
  ++ lit "</div>".

Definition render_group (group : Group.t) : str :=
  open_tag "div" "colloc-group"
  ++ (open_tag "div" "colloc-category" ++ Group.category group ++ lit "</div>")
  ++ concat (List.map render_item (Group.items group))
  ++ lit "</div>".

Definition generate_collocations_html (card : Card.t) : str :=
  concat (List.map render_group (Card.collocation_groups card)).

(** [str(v)] *)
Definition py_str (v : pyval) : str :=
  match v with
  | PyStr s => s
  | PyInt z => of_Z z
  end.

(** The eight fields of a card's line, in their order. *)
Definition fields_of (card : Card.t) : list str :=
  let colloc :=
    remove_char cr (remove_char newline (generate_collocations_html card)) in
  let freq_rank :=
    py_str (match Card.freq_rank card with Some v => v | None => PyStr [] end) in
  [Card.word card; Card.pos card; Card.sense_num card; Card.def_en card;
   Card.def_cn card; colloc; freq_rank; Card.word card].

Definition generate_anki_import_file (all_cards : list Card.t) : str :=
  join [newline] (List.map (fun card => join [tab] (fields_of card)) all_cards).

Definition has_char (c : N) (s : str) : bool := existsb (N.eqb c) s.

(** The stringified rank of a card, empty when the key is not set. *)
Definition rank_of (card : Card.t) : str :=
  match Card.freq_rank card with Some v => py_str v | None => [] end.

(** A card whose line can be split again: no tab and no newline in its
    plain fields, no tab in its rendered fragment. *)
Definition line_safe (card : Card.t) : bool :=
  forallb (fun f => negb (has_char tab f) && negb (has_char newline f))
    [Card.word card; Card.pos card; Card.sense_num card; Card.def_en card;
     Card.def_cn card; rank_of card]
  && negb (has_char tab (generate_collocations_html card)).

(** The document is well formed when no two of its tags share an
    identity. *)
Definition well_formed (soup : node) : Prop := NoDup (ids [soup]).

(** ** What section 4.2 of the specification says of a sub-group

    Written over the contents of the sub-group node as they stand when the
    parser is called, without any change to the document. *)

Definition node_contents (n : node) : list node :=
  match n with Tag _ _ _ cs => cs | _ => [] end.

(** The first tag of that name below, in document order. *)
Definition first_named (name : str) (cs : list node) : option node :=
  hd_error (filter (has_name [name]) (descendants cs)).

(** The text of the first secondary-language span, if there is one. *)
Definition secondary_text (cs : list node) : option str :=
  option_map (fun chn => stripped_text_of (node_contents chn))
    (first_named (lit "chn") cs).

Definition phrase_nodes (cs : list node) : list node :=
  filter (has_name [lit "cl"]) cs.

Definition phrase_text (cl : list node) : str :=
  stripped_text_of (prune_names [lit "chn"; lit "chnsep"] cl).

Definition spec_words (cs : list node) : list str :=
  filter nonempty
    (List.map (fun cl => phrase_text (node_contents cl)) (phrase_nodes cs)).

(** The glosses of the phrase nodes that carry one, in document order. *)
Definition spec_glosses (cs : list node) : list str :=
  flat_map (fun cl => match secondary_text (node_contents cl) with
                      | Some g => [g]
                      | None => []
                      end) (phrase_nodes cs).

Definition spec_gloss (cs : list node) : str := last (spec_glosses cs) [].

Definition example_english (x : list node) : str :=
  stripped_text_of (prune_names [lit "chn"; lit "chnsep"; lit "fthzmark"] x).

Definition example_secondary (x : list node) : str :=
  match secondary_text x with Some t => t | None => [] end.

(** The pair of one example block, if its example has English text. *)
Definition spec_example (x_blk : list node) : option Example.t :=
  match first_named (lit "x") x_blk with
  | Some x =>
      if nonempty (example_english (node_contents x))
      then Some (Example.make (example_english (node_contents x))
                   (example_secondary (node_contents x)))
      else None
  | None => None
  end.

Definition spec_examples (cs : list node) : list Example.t :=
  flat_map (fun x_blk => match spec_example (node_contents x_blk) with
                         | Some ex => [ex]
                         | None => []
                         end) (filter (has_name [lit "x-blk"]) cs).

Definition spec_item (cs : list node) : option Item.t :=
  match spec_words cs with
  | [] => None
  | _ :: _ => Some (Item.make (spec_words cs) (spec_gloss cs) (spec_examples cs))
  end.

(** A direct child named [name] after the loop body has run on it: it has
    lost the tags below it whose identities [gone] lists. *)
Definition child_after (name : str) (gone : list node -> list nat) (n : node)
  : node :=
  match n with
  | Tag c nm at_ sub =>
      if has_name [name] n then Tag c nm at_ (prune_ids (gone sub) sub) else n
  | _ => n
  end.

(** ** What section 4.1 says of an entry and of a block

    Written over the contents of the entry, or of the block, as they
    stand when the loop body starts. *)

(** The stripped text of the first tag of that name below, empty without
    one. *)
Definition text_first (name : str) (cs : list node) : str :=
  match first_named name cs with
  | Some n => stripped_text_of (node_contents n)
  | None => []
  end.

(** The head word: the text of the head-word node, the queried word
    without that node. *)
Definition headword_of (word : str) (entry : list node) : str :=
  match first_named (lit "h") entry with
  | Some h => stripped_text_of (node_contents h)
  | None => word
  end.

(** The contents of the definition node of an entry, if it has one. *)
Definition definition_of (entry : list node) : option (list node) :=
  match first_named (lit "head") entry with
  | Some head => option_map node_contents
                   (first_named (lit "def") (node_contents head))
  | None => None
  end.

(** What [get_text(strip=True)] reads in the definition once its
    secondary-language and separator spans are gone: the strings that are
    left, each stripped, the empty ones dropped, joined with nothing
    between them. *)
Definition definition_english (def : list node) : str :=
  stripped_text_of (prune_names [lit "chn"; lit "chnsep"] def).

(** What [get_text(strip=True)] reads in its first secondary-language
    span, the empty string without one. *)
Definition definition_secondary (def : list node) : str :=
  match secondary_text def with Some t => t | None => [] end.

(** [(pos, sense_num, def_en, def_cn)] *)
Definition spec_head (entry : list node) : str * str * str * str :=
  match first_named (lit "head") entry with
  | Some head =>
      (text_first (lit "p") (node_contents head),
       text_first (lit "n-num") (node_contents head),
       match definition_of entry with
       | Some def => definition_english def
       | None => []
       end,
       match definition_of entry with
       | Some def => definition_secondary def
       | None => []
       end)
  | None => ([], [], [], [])
  end.

(** The category of a kept block: the header's text with its white space
    normalised, the type code in upper case without a header. *)
Definition category_of (sl_type : str) (blk : list node) : str :=
  match first_named (lit "sl-g-head") blk with
  | Some head => strip (sub_spaces false (text_of (node_contents head)))
  | None => upper sl_type
  end.

(** A text whose white space is normalised: every white-space character
    is a space, no two follow each other, and none is at either end.
    [prev_space] says that a space may not come next. *)
Fixpoint single_spaced_from (prev_space : bool) (s : str) : bool :=
  match s with
  | [] => true
  | c :: t =>
      if isspace c
      then N.eqb c 32 && negb prev_space && single_spaced_from true t
      else single_spaced_from false t
  end.

Definition normal_spaces (s : str) : bool :=
  single_spaced_from true s && negb (isspace (last s 0%N)).

(** An item that is what section 4.2 describes for some sub-group of a
    well-formed document. *)
Definition item_of_sub_group (item : Item.t) : Prop :=
  exists soup sb_g,
    well_formed soup /\ spec_item (contents_in soup sb_g) = Some item.

(** [P] holds of every item of every group of every card. *)
Definition every_item (P : Item.t -> Prop) (cards : list Card.t) : Prop :=
  Forall (fun card =>
            Forall (fun g => Forall P (Group.items g))
              (Card.collocation_groups card)) cards.

(** The identities of the tags of the given names in a forest. *)
Definition matching (names : list str) (cs : list node) : list nat :=
  ids_of (filter (has_name names) (descendants cs)).

(** One round of the loop over the phrase nodes, on the contents [cl] of
    the node, and the tags it decomposes. *)
Definition cl_step (cl : list node) (acc : list str * str) : list str * str :=
  (if nonempty (phrase_text cl) then fst acc ++ [phrase_text cl] else fst acc,
   match secondary_text cl with Some g => g | None => snd acc end).

Definition cl_gone (cl : list node) : list nat :=
  matching [lit "chn"; lit "chnsep"] cl.

(** One round of the loop over the example blocks. *)
Definition x_step (x_blk : list node) (examples : list Example.t)
  : list Example.t :=
  match spec_example x_blk with
  | Some ex => examples ++ [ex]
  | None => examples
  end.

Definition x_gone (x_blk : list node) : list nat :=
  match first_named (lit "x") x_blk with
  | Some x => matching [lit "chn"; lit "chnsep"; lit "fthzmark"] (node_contents x)
  | None => []
  end.

(** The objects of a list of parsed nodes, one after the other; this is
    the inner loop of [alloc]. *)
Fixpoint alloc_list (ms : list markup) (next : nat) : list node * nat :=
  match ms with
  | [] => ([], next)
  | m :: rest =>
      let (n, next1) := alloc m next in
      let (ns, next2) := alloc_list rest next1 in
      (n :: ns, next2)
  end.

(** ** Two runs on the same input

    A second call parses anew, and its objects are not those of the first
    call: they are the same tree with other identities. *)

(** The tree with every identity moved up by [k]. *)
Fixpoint shift_node (k : nat) (n : node) : node :=
  match n with
  | Tag i nm at_ cs => Tag (k + i) nm at_ (List.map (shift_node k) cs)
  | _ => n
  end.

(** [m'] does on the moved document what [m] does on the document, its
    result moved by [sh]. *)
Definition commutes {A : Type} (k : nat) (sh : A -> A) (m m' : M A) : Prop :=
  forall soup,
    m' (shift_node k soup)
    = match m soup with
      | Ok (a, soup') => Ok (sh a, shift_node k soup')
      | AttributeError => AttributeError
      end.

(** ** Sample documents *)

Definition el (name : string) (children : list markup) : markup :=
  MTag (lit name) [] children.

Definition tx (s : string) : markup := MText (lit s).

Definition sl_g_blk (sl : string) (children : list markup) : markup :=
  MTag (lit "sl-g-blk") [(lit "sl", lit sl)] children.

(** The Chinese of the samples, as code points. *)
Definition zh_fuhe : str := [31526; 21512]%N.
Definition zh_yizhi : str := [19968; 33268]%N.
Definition zh_nihao : str := [20320; 22909]%N.
Definition zh_xiangfu : str :=
  [36825; 19982; 20107; 23454; 30456; 31526; 12290]%N.

(** The sub-group of the scenario in section 8 of the specification. *)
Definition accord_sb_g : markup :=
  el "sb-g"
    [el "cl" [tx "accord with "; el "chn" [MText zh_fuhe]];
     el "x-blk"
       [el "x" [tx "It accords with the facts. "; el "chn" [MText zh_xiangfu]]]].

Definition accord_entry : markup :=
  el "entry"
    [el "h" [tx "accord"];
     el "head"
       [el "p-blk" [el "p" [tx "verb"]];
        el "def" [tx "to agree "; el "chn" [MText zh_yizhi]]];
     sl_g_blk "prep" [el "sl-g-head" [tx "PREPOSITION"]; el "sl-g" [accord_sb_g]]].

(** Two phrase nodes, each with its gloss. *)
Definition two_gloss_sb_g : markup :=
  el "sb-g"
    [el "cl" [tx "accord with"; el "chn" [MText zh_fuhe]];
     el "cl" [tx "agree with"; el "chn" [MText zh_yizhi]]].

(** An example with English text and two secondary-language spans, the
    first of them blank. *)
Definition blank_span_sb_g : markup :=
  el "sb-g"
    [el "cl" [tx "go"];
     el "x-blk"
       [el "x" [tx "Hello"; el "chn" [tx " "]; el "chn" [MText zh_nihao]]]].

(** Two senses of one head word, and a card whose definition holds a
    newline. *)
Definition pitch_group : Group.t :=
  Group.make (lit "VERB + PITCH")
    [Item.make [lit "mark out"; lit "prepare"] []
       [Example.make (lit "The pitch was marked out.") []]].

Definition pitch_card_1 : Card.t :=
  Card.make (lit "pitch") (lit "noun") (lit "1") (lit "sports field") []
    [pitch_group] (Some (PyInt 1203)).

Definition pitch_card_2 : Card.t :=
  Card.make (lit "pitch") (lit "noun") (lit "2") (lit "degree of sound") []
    [pitch_group] None.

Definition two_line_card : Card.t :=
  Card.make (lit "w") [] [] [97; 10; 98]%N [] [] None.

(** The card of the scenario, and documents for the other scenarios: a
    block without header, an entry with only a disallowed block, an entry
    whose head-word node is empty. *)
Definition accord_card : Card.t :=
  Card.make (lit "accord") (lit "verb") [] (lit "to agree") zh_yizhi
    [Group.make (lit "PREPOSITION")
       [Item.make [lit "accord with"] zh_fuhe
          [Example.make (lit "It accords with the facts.") zh_xiangfu]]]
    None.

Definition bare_prep_blk : markup :=
  sl_g_blk "prep" [el "sb-g" [el "cl" [tx "accord with"]]].

Definition idiom_entry : markup :=
  el "entry"
    [el "h" [tx "accord"];
     sl_g_blk "idiom" [el "sb-g" [el "cl" [tx "of your own accord"]]]].

Definition empty_h_entry : markup :=
  el "entry" [el "h" []; bare_prep_blk].

(** A sub-group below two kept blocks, one inside the other. *)
Definition nested_blk_entry : markup :=
  el "entry"
    [sl_g_blk "prep"
       [sl_g_blk "verbs"
          [el "sb-g" [el "cl" [tx "go"; el "chn" [MText zh_nihao]]]]]].

(** * The steps around the extractor

    The word sources, the frequency dictionary and the main loop of
    [collocation_generator.py]. What they print or log is left out; what
    they compute is modelled. *)

(** ** More of Python's strings *)

Definition is_ascii_upper (c : N) : bool := ((65 <=? c) && (c <=? 90))%N.

Definition is_ascii_lower (c : N) : bool := ((97 <=? c) && (c <=? 122))%N.

(** The class [[a-zA-Z]] of a pattern over [str]. *)
Definition is_ascii_letter (c : N) : bool := is_ascii_upper c || is_ascii_lower c.

(** [s.lower()] as it is on ASCII text. *)
Definition lower_ascii (s : str) : str :=
  List.map (fun c => if is_ascii_upper c then (c + 32)%N else c) s.

(** [s.split()]: the maximal runs without white space; [cur] is the run
    being read. *)
Fixpoint words_from (cur : str) (s : str) : list str :=
  match s with
  | [] => match cur with [] => [] | _ :: _ => [cur] end
  | c :: t =>
      if isspace c
      then match cur with
           | [] => words_from [] t
           | _ :: _ => cur :: words_from [] t
           end
      else words_from (cur ++ [c]) t
  end.

Definition split_ws (s : str) : list str := words_from [] s.

(** [a < b] on [str]: by code points, a proper prefix first. *)
Fixpoint str_ltb (a b : str) : bool :=
  match a, b with
  | _, [] => false
  | [], _ :: _ => true
  | x :: a', y :: b' => (x <? y)%N || ((x =? y)%N && str_ltb a' b')
  end.

(** [sorted(set(l))]: the distinct elements in increasing order. *)
Fixpoint insert_sorted (w : str) (l : list str) : list str :=
  match l with
  | [] => [w]
  | x :: r =>
      if str_ltb w x then w :: l
      else if Str.eqb w x then l
      else x :: insert_sorted w r
  end.

Definition sorted_set (l : list str) : list str := fold_right insert_sorted [] l.

(** [d.get(key)] on a dictionary kept as the list of its items, in
    insertion order. *)
Fixpoint dict_find {V : Type} (key : str) (d : list (str * V)) : option V :=
  match d with
  | [] => None
  | (k, v) :: r => if Str.eqb k key then Some v else dict_find key r
  end.

(** [re.match(r'^[a-zA-Z]+(-[a-zA-Z]+)*$', k)]: letters in groups joined
    by single hyphens; [$] also matches in front of a last newline.
    [in_word] says that the group being read has a letter already. *)
Fixpoint word_tail (in_word : bool) (s : str) : bool :=
  match s with
  | [] => in_word
  | c :: t =>
      if is_ascii_letter c then word_tail true t
      else if (c =? 45)%N then in_word && word_tail false t
      else if (c =? 10)%N then in_word && negb (nonempty t)
      else false
  end.

Definition is_dictionary_word (k : str) : bool := word_tail false k.

(** ** Step 1: the word sources, and the frequency dictionary *)

(** What [load_freq_dict] gives: the dictionary, or the error of the
    [print] that reads [line_num] when the loop has not run. *)
Inductive loaded : Type :=
| Loaded (freq_map : list (str * nat))
| UnboundLocalError.

(** The counters of the main loop. *)
Module Tally.
Record t : Type :=
  make { all_cards : list Card.t; failed_words : list str; success_count : nat }.
End Tally.

(** The decimal digits. *)
Definition is_digit (c : N) : bool := ((48 <=? c) && (c <=? 57))%N.

(** The texts of a card that the rendered fragment takes up. *)
Definition example_texts (ex : Example.t) : list str :=
  [Example.en ex; Example.cn ex].

Definition item_texts (item : Item.t) : list str :=
  Item.words item ++ [Item.chn item]
  ++ flat_map example_texts (Item.examples item).

Definition group_texts (group : Group.t) : list str :=
  Group.category group :: flat_map item_texts (Group.items group).

Definition card_texts (card : Card.t) : list str :=
  flat_map group_texts (Card.collocation_groups card).

(** A list in strictly increasing order. *)
Fixpoint increasing (l : list str) : bool :=
  match l with
  | x :: (y :: _) as r => str_ltb x y && increasing r
  | _ => true
  end.

(** What a headword from the dictionary index may hold. *)
Definition headword_char (c : N) : bool := is_ascii_lower c || (c =? 45)%N.

(** What a cleaned word may hold: letters, single spaces and hyphens. *)
Definition is_ascii (c : N) : bool := (c <? 128)%N.

Definition word_char (c : N) : bool :=
  is_ascii_letter c || (c =? 32)%N || (c =? 45)%N.

Definition lower_word_char (c : N) : bool :=
  is_ascii_lower c || (c =? 32)%N || (c =? 45)%N.

Section AroundTheExtractor.

(** [str.lower], whose tables are Unicode's and not the program's. *)
Variable lower : str -> str.

(** The body of the loop of [get_words_from_list] up to the test. *)
Definition clean_word (word : str) : str :=
  let word := lower (strip word) in
  let word :=
    filter (fun c => is_ascii_letter c || isspace c || (c =? 45)%N) word in
  strip (sub_spaces false word).

(** [get_words_from_list(word_list)]; an item [{'word': w}] is [w]. *)
Definition get_words_from_list (word_list : list str) : list str :=
  flat_map (fun word =>
              let word := clean_word word in
              if nonempty word && (1 <? length word) then [word] else [])
    word_list.

(** [get_words_from_file(filename)]: [file] holds the lines of the file,
    [None] when it cannot be opened or read. *)
Definition get_words_from_file (file : option (list str)) : list str :=
  match file with
  | None => []
  | Some lines =>
      get_words_from_list
        (List.map strip (filter (fun line => nonempty (strip line)) lines))
  end.

(** [get_all_dictionary_words]: [keys] are the keys of the dictionary
    index, [None] when the directory, the file or the index reader is
    not there. *)
Definition get_all_dictionary_words (keys : option (list str)) : list str :=
  match keys with
  | None => []
  | Some keys =>
      sorted_set
        (flat_map (fun k =>
                     let k := strip k in
                     if nonempty k && is_dictionary_word k then [lower k] else [])
           keys)
  end.

(** The inner loop of [load_freq_dict], over the words of one line. *)
Definition add_forms (line_num : nat) (words : list str)
    (freq_map : list (str * nat)) : list (str * nat) :=
  fold_left (fun freq_map word =>
               let word := lower word in
               match dict_find word freq_map with
               | Some _ => freq_map
               | None => freq_map ++ [(word, line_num)]
               end) words freq_map.

(** Its outer loop, [line_num] being the number of the first of
    [lines]. *)
Fixpoint load_lines (line_num : nat) (lines : list str)
    (freq_map : list (str * nat)) : list (str * nat) :=
  match lines with
  | [] => freq_map
  | line :: rest =>
      load_lines (S line_num) rest
        (add_forms line_num (split_ws (strip line)) freq_map)
  end.

(** [load_freq_dict(dict_file)] on the lines of the file, [None] when the
    file is not found. *)
Definition load_freq_dict (file : option (list str)) : loaded :=
  match file with
  | None => Loaded []
  | Some [] => UnboundLocalError
  | Some (line :: rest) => Loaded (load_lines 1 (line :: rest) [])
  end.

(** The line at which a word form is first seen: [line_num] is the number
    of the first of [lines]. *)
Definition line_has (form line : str) : bool :=
  existsb (fun word => Str.eqb (lower word) form) (split_ws (strip line)).

Fixpoint first_line (line_num : nat) (form : str) (lines : list str)
  : option nat :=
  match lines with
  | [] => None
  | line :: rest =>
      if line_has form line then Some line_num
      else first_line (S line_num) form rest
  end.

(** ** The main loop *)

(** The removal of duplicates in [main]: [seen] and [unique_words]. *)
Fixpoint unique_from (seen : list str) (word_list : list str) : list str :=
  match word_list with
  | [] => []
  | w :: rest =>
      if existsb (Str.eqb w) seen then unique_from seen rest
      else w :: unique_from (w :: seen) rest
  end.

Definition unique_words (word_list : list str) : list str :=
  unique_from [] word_list.

(** [str(freq_map.get(word.lower(), ''))] *)
Definition rank_text (freq_map : list (str * nat)) (word : str) : str :=
  match dict_find (lower word) freq_map with
  | Some rank => of_Z (Z.of_nat rank)
  | None => []
  end.

(** [card['freq_rank'] = str(rank)] *)
Definition set_rank (rank : str) (card : Card.t) : Card.t :=
  Card.make (Card.word card) (Card.pos card) (Card.sense_num card)
    (Card.def_en card) (Card.def_cn card) (Card.collocation_groups card)
    (Some (PyStr rank)).

(** One round of the loop over the words. [query] is the look-up in the
    dictionary, by the server or directly; what it returns is parsed
    markup, [None] for no answer. *)
Definition process_word (query : str -> option (list markup))
    (freq_map : list (str * nat)) (word : str) (t : Tally.t)
  : result Tally.t :=
  match query word with
  | Some (m :: ms) =>
      match parse_collocation_html (m :: ms) word with
      | Ok (card :: cards) =>
          Ok (Tally.make
                (Tally.all_cards t
                 ++ List.map (set_rank (rank_text freq_map word)) (card :: cards))
                (Tally.failed_words t)
                (S (Tally.success_count t)))
      | Ok [] =>
          Ok (Tally.make (Tally.all_cards t) (Tally.failed_words t ++ [word])
                (Tally.success_count t))
      | AttributeError => AttributeError
      end
  | _ =>
      Ok (Tally.make (Tally.all_cards t) (Tally.failed_words t ++ [word])
            (Tally.success_count t))
  end.

Fixpoint process_words (query : str -> option (list markup))
    (freq_map : list (str * nat)) (word_list : list str) (t : Tally.t)
  : result Tally.t :=
  match word_list with
  | [] => Ok t
  | word :: rest =>
      match process_word query freq_map word t with
      | Ok t' => process_words query freq_map rest t'
      | AttributeError => AttributeError
      end
  end.

(** What [main] does with the word list it has: the cut at [--max] (0 for
    no limit), the removal of duplicates, the loop, and the text of the
    import file, [None] when there is nothing to write. *)
Definition import_text (max : nat) (query : str -> option (list markup))
    (freq_map : list (str * nat)) (word_list : list str)
  : result (option str) :=
  match word_list with
  | [] => Ok None
  | _ :: _ =>
      let word_list :=
        if (0 <? max) && (max <? length word_list)
        then firstn max word_list else word_list in
      let word_list := unique_words word_list in
      match process_words query freq_map word_list (Tally.make [] [] 0) with
      | Ok t =>
          match Tally.all_cards t with
          | [] => Ok None
          | _ :: _ => Ok (Some (generate_anki_import_file (Tally.all_cards t)))
          end
      | AttributeError => AttributeError
      end
  end.

End AroundTheExtractor.

(** A block of the document that the extractor would keep. *)
Definition kept_block (n : node) : bool :=
  match n with
  | Tag _ nm attrs _ =>
      Str.eqb nm (lit "sl-g-blk")
      && existsb (Str.eqb (dict_get (lit "sl") attrs [])) KEEP_SL_TYPES
  | _ => false
  end.

Definition has_kept_block (soup : node) : bool :=
  existsb kept_block (self_and_descendants soup).

(** A text with no white space at either end. *)
Definition trimmed (s : str) : bool :=
  negb (isspace (hd 0%N s)) && negb (isspace (last s 0%N)).

(** A card with a line break inside an example. *)
Definition broken_line_card : Card.t :=
  Card.make (lit "w") [] [] [] []
    [Group.make (lit "VERB")
       [Item.make [lit "take off"] []
          [Example.make [97; 10; 98]%N []]]]
    None.

(** A dictionary that knows two words, and a frequency list that knows
    one of them. *)
Definition sample_query (word : str) : option (list markup) :=
  if Str.eqb word (lit "accord") then Some [accord_entry]
  else if Str.eqb word (lit "idiom") then Some [idiom_entry]
  else None.

(** Another dictionary, which differs from it on the third word only. *)
Definition other_query (word : str) : option (list markup) :=
  if Str.eqb word (lit "zzz") then Some [accord_entry] else sample_query word.

Definition sample_freq_map : list (str * nat) := [(lit "accord", 12)].

Definition sample_words : list str := [lit "accord"; lit "idiom"; lit "zzz"].

Definition sample_tally : Tally.t :=
  Tally.make [set_rank (lit "12") accord_card] [lit "idiom"; lit "zzz"] 1.

(** ** What the statements about whole runs are written with *)

(** [s] is part of [t]: [t] holds it unchanged, as one piece. *)
Definition part_of (s t : str) : Prop :=
  exists before after, t = before ++ s ++ after.

(** The document after some tags of [U], with all below them, have been
    decomposed. *)
Definition pruned_within (U : list nat) (soup soup' : node) : Prop :=
  exists D, incl D U /\ soup' = prune_node (id_in D) soup.

(** The tags of [U] are the ones below [A], and what is below a tag of
    [U] is in [U]. *)
Definition closed_below (A : nat) (U : list nat) (soup : node) : Prop :=
  well_formed soup
  /\ forall t, In t (A :: U) -> incl (ids (contents_in soup t)) U.

(** The identities of a tag and of all tags below it, and tags whose
    subtrees share no tag: none lies inside another. *)
Definition subtree_ids (soup : node) (t : nat) : list nat :=
  t :: ids (contents_in soup t).

Definition disjoint_ids (a b : list nat) : bool :=
  forallb (fun i => negb (existsb (Nat.eqb i) b)) a.

Fixpoint apart (soup : node) (ts : list nat) : bool :=
  match ts with
  | [] => true
  | t :: rest =>
      forallb (fun u => disjoint_ids (subtree_ids soup t) (subtree_ids soup u))
        rest
      && apart soup rest
  end.

Definition option_list {A : Type} (o : option A) : list A :=
  match o with Some a => [a] | None => [] end.

(** The card carries the head word and the fields of entry [e] of [doc],
    and has groups. *)
Definition card_of_entry (word : str) (doc : node) (e : nat) (card : Card.t)
  : Prop :=
  Card.word card = headword_of word (contents_in doc e)
  /\ (Card.pos card, Card.sense_num card, Card.def_en card, Card.def_cn card)
     = spec_head (contents_in doc e)
  /\ Card.collocation_groups card <> [].

(** The group has the category of a collocation block of [doc] with a
    type code of [KEEP_SL_TYPES], less what has been removed from the
    block. *)
Definition group_of_kept_block (doc : node) (g : Group.t) : Prop :=
  exists blk attrs bc gone,
    In (Tag blk (lit "sl-g-blk") attrs bc) (descendants [doc])
    /\ existsb (Str.eqb (dict_get (lit "sl") attrs [])) KEEP_SL_TYPES = true
    /\ Group.category g
       = category_of (dict_get (lit "sl") attrs []) (prune_ids gone bc).

(** The document as a run has it: the input less what was decomposed. *)
Definition state_of_doc (doc s : node) : Prop :=
  well_formed s /\ exists D, s = prune_node (id_in D) doc.

Definition kept_group (doc : node) (g : Group.t) : Prop :=
  Group.items g <> [] /\ group_of_kept_block doc g
  /\ normal_spaces (Group.category g) = true.

(** ** More sample documents

    A definition with inline markup and a padded span; an entry inside
    another, with the definition and with the head word in the inner one;
    a block inside the secondary-language span of an example of the block
    before it, and the same block beside it. *)
Definition padded_def_entry : markup :=
  el "entry"
    [el "head"
       [el "def"
          [tx "a small "; el "b" [tx "round"]; tx " object ";
           el "chn" [MText (32%N :: zh_yizhi ++ [32%N])]]];
     bare_prep_blk].

Definition nested_def_entries : markup :=
  el "entry"
    [el "entry"
       [el "head" [el "def" [tx "to agree "; el "chn" [MText zh_yizhi]]];
        bare_prep_blk]].

Definition nested_h_entries : markup :=
  el "entry"
    [el "h" [tx "hw"];
     el "entry"
       [sl_g_blk "verbs"
          [el "sb-g"
             [el "cl" [tx "go"];
              el "x-blk"
                [el "x" [tx "Go now."; el "chn" [el "h" [tx "x"]]]]]]]].

Definition idiom_in_example_entry : markup :=
  el "entry"
    [sl_g_blk "verbs"
       [el "sb-g"
          [el "cl" [tx "go"];
           el "x-blk"
             [el "x"
                [tx "Go now.";
                 el "chn"
                   [MText zh_nihao;
                    sl_g_blk "idiom"
                      [el "sb-g" [el "cl" [tx "go for it"]]]]]]]]].

Definition idiom_beside_example_entry : markup :=
  el "entry"
    [sl_g_blk "verbs"
       [el "sb-g"
          [el "cl" [tx "go"];
           el "x-blk" [el "x" [tx "Go now."; el "chn" [MText zh_nihao]]]]];
     sl_g_blk "idiom" [el "sb-g" [el "cl" [tx "go for it"]]]].

Definition prep_in_example_entry : markup :=
  el "entry"
    [sl_g_blk "verbs"
       [el "sb-g"
          [el "cl" [tx "go"];
           el "x-blk"
             [el "x"
                [tx "Go now."; el "chn" [MText zh_nihao; bare_prep_blk]]]]]].

(** * Properties *)

(** ** Strings *)

Lemma eqb_eq (a b : str) : Str.eqb a b = true <-> a = b.
Proof.
  revert b; induction a as [|x a IH]; intros [|y b]; simpl; split;
    try congruence; try reflexivity.
  - intros H. apply andb_true_iff in H as [H1 H2].
    apply N.eqb_eq in H1. apply IH in H2. congruence.
  - intros H. injection H as -> ->. rewrite N.eqb_refl. simpl. now apply IH.
Qed.

Lemma nonempty_true (s : str) : nonempty s = true <-> s <> [].
Proof. destruct s; simpl; split; congruence. Qed.

Lemma remove_char_not_in (c : N) (s : str) : ~ In c (remove_char c s).
Proof.
  unfold remove_char. intros H. apply filter_In in H as [_ H].
  rewrite N.eqb_refl in H. discriminate.
Qed.

Lemma remove_char_keeps_out (c d : N) (s : str) :
  ~ In d s -> ~ In d (remove_char c s).
Proof. unfold remove_char. intros H H'. apply filter_In in H'. tauto. Qed.

Lemma split_without (c : N) (s : str) : ~ In c s -> split c s = [s].
Proof.
  induction s as [|x s IH]; simpl; intros H; [reflexivity|].
  destruct (N.eqb_spec x c) as [->|Hne]; [tauto|].
  rewrite IH by tauto. reflexivity.
Qed.

Lemma split_app (c : N) (p rest : str) :
  ~ In c p ->
  split c (p ++ c :: rest) = p :: split c rest.
Proof.
  induction p as [|x p IH]; simpl; intros H.
  - now rewrite N.eqb_refl.
  - destruct (N.eqb_spec x c) as [->|Hne]; [tauto|].
    rewrite IH by tauto. reflexivity.
Qed.

(** Splitting undoes joining, when there is a part at all and the
    separator occurs in none. *)
Lemma split_join (c : N) (parts : list str) :
  parts <> [] ->
  Forall (fun p => ~ In c p) parts ->
  split c (join [c] parts) = parts.
Proof.
  induction parts as [|p parts IH]; [congruence|].
  intros _ Hall. inversion Hall as [|? ? Hp Hrest]; subst.
  destruct parts as [|q parts].
  - simpl. now apply split_without.
  - change (join [c] (p :: q :: parts)) with (p ++ [c] ++ join [c] (q :: parts)).
    change (split c (p ++ c :: join [c] (q :: parts)) = p :: q :: parts).
    rewrite (@split_app c p (join [c] (q :: parts)) Hp).
    rewrite IH; [reflexivity | congruence | assumption].
Qed.

Lemma join_not_in (c sep : N) (parts : list str) :
  c <> sep ->
  Forall (fun p => ~ In c p) parts ->
  ~ In c (join [sep] parts).
Proof.
  intros Hne. induction parts as [|p parts IH]; intros Hall; [simpl; tauto|].
  inversion Hall as [|? ? Hp Hrest]; subst.
  destruct parts as [|q parts]; [assumption|].
  change (join [sep] (p :: q :: parts)) with (p ++ [sep] ++ join [sep] (q :: parts)).
  rewrite !in_app_iff. simpl. intros [H|[[H|[]]|H]]; try tauto; try congruence.
Qed.

(** ** Trees *)

(** Induction over a node together with the forests below it. *)
Lemma node_forest_ind (P : node -> Prop) (Q : list node -> Prop)
    (Hs : forall s, P (NavigableString s))
    (Hc : forall s, P (Comment s))
    (Ht : forall i nm at_ cs, Q cs -> P (Tag i nm at_ cs))
    (Hnil : Q [])
    (Hcons : forall c cs, P c -> Q cs -> Q (c :: cs)) :
  forall n, P n.
Proof.
  fix IH 1. intros [s|s|i nm at_ cs].
  - apply Hs.
  - apply Hc.
  - apply Ht. revert cs. fix IHcs 1. intros [|c r].
    + apply Hnil.
    + apply Hcons; [apply IH | apply IHcs].
Qed.

Lemma forest_ind (Q : list node -> Prop) :
  Q [] ->
  (forall s cs, Q cs -> Q (NavigableString s :: cs)) ->
  (forall s cs, Q cs -> Q (Comment s :: cs)) ->
  (forall i nm at_ sub cs, Q sub -> Q cs -> Q (Tag i nm at_ sub :: cs)) ->
  forall cs, Q cs.
Proof.
  intros Hnil Hs Hc Ht.
  assert (Hn : forall n, forall cs, Q cs -> Q (n :: cs)).
  { intros n.
    apply (node_forest_ind (fun n => forall cs, Q cs -> Q (n :: cs)) Q); auto. }
  induction cs; auto.
Qed.

Lemma descendants_cons (c : node) (cs : list node) :
  descendants (c :: cs) = self_and_descendants c ++ descendants cs.
Proof. reflexivity. Qed.

Lemma descendants_app (a b : list node) :
  descendants (a ++ b) = descendants a ++ descendants b.
Proof. unfold descendants. apply flat_map_app. Qed.

Lemma descendants_tag i nm at_ sub cs :
  descendants (Tag i nm at_ sub :: cs)
  = Tag i nm at_ sub :: descendants sub ++ descendants cs.
Proof. reflexivity. Qed.

Lemma descendants_root (soup : node) :
  descendants [soup] = self_and_descendants soup.
Proof. unfold descendants. simpl. apply app_nil_r. Qed.

Lemma ids_of_app (a b : list node) : ids_of (a ++ b) = ids_of a ++ ids_of b.
Proof.
  induction a as [|[s|s|i nm at_ sub] a IH]; simpl; auto. now rewrite IH.
Qed.

Lemma in_ids_of (i : nat) (l : list node) :
  In i (ids_of l) <-> exists nm at_ sub, In (Tag i nm at_ sub) l.
Proof.
  induction l as [|[s|s|j nm at_ sub] l IH]; simpl.
  - split; [tauto | intros (? & ? & ? & [])].
  - rewrite IH. split; intros (nm & at_ & sub & H); exists nm, at_, sub;
      [tauto | destruct H; [discriminate | assumption]].
  - rewrite IH. split; intros (nm & at_ & sub & H); exists nm, at_, sub;
      [tauto | destruct H; [discriminate | assumption]].
  - split.
    + intros [->|H]; [exists nm, at_, sub; auto|].
      apply IH in H as (nm' & at' & sub' & H). exists nm', at', sub'. auto.
    + intros (nm' & at' & sub' & [H|H]); [injection H; auto|].
      right. apply IH. eauto.
Qed.

Lemma ids_cons (c : node) (cs : list node) : ids (c :: cs) = ids [c] ++ ids cs.
Proof.
  unfold ids. rewrite descendants_cons, descendants_root. apply ids_of_app.
Qed.

Lemma ids_app (a b : list node) : ids (a ++ b) = ids a ++ ids b.
Proof. unfold ids. now rewrite descendants_app, ids_of_app. Qed.

Lemma ids_tag i nm at_ sub : ids [Tag i nm at_ sub] = i :: ids sub.
Proof. unfold ids. rewrite descendants_root. reflexivity. Qed.

(** What is below a node of the forest is in the forest. *)
Lemma descendants_below (cs : list node) :
  forall i nm at_ sub,
    In (Tag i nm at_ sub) (descendants cs) ->
    incl (descendants sub) (descendants cs).
Proof.
  induction cs as [|s cs IH|s cs IH|j nm' at' sub' cs IHsub IH] using forest_ind;
    intros i nm at_ sub Hin.
  - destruct Hin.
  - destruct Hin as [H|H]; [discriminate|].
    intros x Hx. right. eapply IH; eauto.
  - destruct Hin as [H|H]; [discriminate|].
    intros x Hx. right. eapply IH; eauto.
  - rewrite descendants_tag in *. intros x Hx.
    destruct Hin as [H|H].
    + injection H as -> -> -> ->. right. apply in_or_app. auto.
    + right. apply in_or_app. apply in_app_or in H as [H|H].
      * left. eapply IHsub; eauto.
      * right. eapply IH; eauto.
Qed.

Lemma ids_below (cs : list node) i nm at_ sub :
  In (Tag i nm at_ sub) (descendants cs) -> incl (ids sub) (ids cs).
Proof.
  intros Hin j Hj. apply in_ids_of in Hj as (nm' & at' & sub' & Hj).
  apply in_ids_of. exists nm', at', sub'.
  eapply descendants_below; eauto.
Qed.

(** In a list without repeated identities, an identity finds its tag. *)
Lemma find_unique (l : list node) i nm at_ sub :
  NoDup (ids_of l) ->
  In (Tag i nm at_ sub) l ->
  List.find (has_id i) l = Some (Tag i nm at_ sub).
Proof.
  induction l as [|[s|s|j nm' at' sub'] l IH]; simpl; intros Hnd Hin.
  - destruct Hin.
  - destruct Hin as [H|H]; [discriminate | auto].
  - destruct Hin as [H|H]; [discriminate | auto].
  - inversion Hnd as [|? ? Hnotin Hnd']; subst.
    destruct Hin as [H|H].
    + injection H as -> -> -> ->. now rewrite Nat.eqb_refl.
    + destruct (Nat.eqb_spec i j) as [->|Hne]; [|auto].
      exfalso. apply Hnotin. apply in_ids_of. eauto.
Qed.

Lemma find_has_id (l : list node) (i : nat) (n : node) :
  List.find (has_id i) l = Some n ->
  In n l /\ exists nm at_ sub, n = Tag i nm at_ sub.
Proof.
  intros H. apply find_some in H as [Hin Hid]. split; [assumption|].
  destruct n as [s|s|j nm at_ sub]; try discriminate.
  apply Nat.eqb_eq in Hid. subst. eauto.
Qed.

(** The forest below a tag of a well-formed forest is well formed. *)
Lemma NoDup_below (cs : list node) :
  forall i nm at_ sub,
    NoDup (ids cs) ->
    In (Tag i nm at_ sub) (descendants cs) ->
    NoDup (ids sub) /\ ~ In i (ids sub).
Proof.
  induction cs as [|s cs IH|s cs IH|j nm' at' sub' cs IHsub IH] using forest_ind;
    intros i nm at_ sub Hnd Hin.
  - destruct Hin.
  - destruct Hin as [H|H]; [discriminate|]. eapply IH; eauto.
  - destruct Hin as [H|H]; [discriminate|]. eapply IH; eauto.
  - rewrite ids_cons, ids_tag in Hnd. simpl in Hnd.
    inversion Hnd as [|? ? Hnotin Hnd']; subst.
    rewrite descendants_tag in Hin. destruct Hin as [H|H].
    + injection H as -> -> -> ->. split.
      * eapply NoDup_app_remove_r; eauto.
      * intros Hi. apply Hnotin. apply in_or_app. auto.
    + apply in_app_or in H as [H|H].
      * eapply IHsub; eauto. eapply NoDup_app_remove_r; eauto.
      * eapply IH; eauto. eapply NoDup_app_remove_l; eauto.
Qed.

(** ** Pruning *)

Lemma prune_cons (p : node -> bool) (c : node) (cs : list node) :
  prune p (c :: cs) = (if p c then [] else [prune_node p c]) ++ prune p cs.
Proof. reflexivity. Qed.

Lemma prune_app (p : node -> bool) (a b : list node) :
  prune p (a ++ b) = prune p a ++ prune p b.
Proof. unfold prune. apply flat_map_app. Qed.

Lemma prune_node_tag (p : node -> bool) i nm at_ sub :
  prune_node p (Tag i nm at_ sub) = Tag i nm at_ (prune p sub).
Proof. reflexivity. Qed.

Lemma node_id_prune (p : node -> bool) (n : node) :
  node_id (prune_node p n) = node_id n.
Proof. destruct n; reflexivity. Qed.

(** Every node of the pruned forest is the pruned form of a node of the
    forest. *)
Lemma in_descendants_prune (p : node -> bool) (cs : list node) :
  forall n', In n' (descendants (prune p cs)) ->
             exists n, In n (descendants cs) /\ n' = prune_node p n.
Proof.
  induction cs as [|s cs IH|s cs IH|i nm at_ sub cs IHsub IH] using forest_ind;
    intros n' Hin.
  - destruct Hin.
  - rewrite prune_cons, descendants_app in Hin. apply in_app_or in Hin as [H|H].
    + destruct (p (NavigableString s)); [destruct H|].
      destruct H as [<-|[]]. exists (NavigableString s). simpl. auto.
    + apply IH in H as (n & Hn & ->). exists n. simpl. auto.
  - rewrite prune_cons, descendants_app in Hin. apply in_app_or in Hin as [H|H].
    + destruct (p (Comment s)); [destruct H|].
      destruct H as [<-|[]]. exists (Comment s). simpl. auto.
    + apply IH in H as (n & Hn & ->). exists n. simpl. auto.
  - rewrite prune_cons, descendants_app in Hin. rewrite descendants_tag.
    apply in_app_or in Hin as [H|H].
    + destruct (p (Tag i nm at_ sub)); [destruct H|].
      rewrite prune_node_tag, descendants_root in H. destruct H as [<-|H].
      * exists (Tag i nm at_ sub). simpl. auto.
      * apply IHsub in H as (n & Hn & ->). exists n. split; [|reflexivity].
        right. apply in_or_app. auto.
    + apply IH in H as (n & Hn & ->). exists n. split; [|reflexivity].
      right. apply in_or_app. auto.
Qed.

Lemma ids_prune_incl (p : node -> bool) (cs : list node) :
  incl (ids (prune p cs)) (ids cs).
Proof.
  intros i Hi. apply in_ids_of in Hi as (nm & at_ & sub & Hi).
  apply in_descendants_prune in Hi as (n & Hn & Heq).
  destruct n as [s|s|j nm' at' sub']; try discriminate.
  rewrite prune_node_tag in Heq. injection Heq as -> -> -> ->.
  apply in_ids_of. eauto.
Qed.

Lemma NoDup_app_intro (A : Type) (a b : list A) :
  NoDup a -> NoDup b -> (forall x, In x a -> ~ In x b) -> NoDup (a ++ b).
Proof.
  induction a as [|x a IH]; simpl; intros Ha Hb Hd; [assumption|].
  inversion Ha; subst. constructor.
  - rewrite in_app_iff. intros [H|H]; [tauto | eapply Hd; eauto].
  - apply IH; auto.
Qed.

Lemma NoDup_app_disjoint (A : Type) (a b : list A) :
  NoDup (a ++ b) -> forall x, In x a -> ~ In x b.
Proof.
  induction a as [|y a IH]; simpl; intros Hnd x Hx; [destruct Hx|].
  inversion Hnd as [|? ? Hnotin Hnd']; subst. destruct Hx as [->|Hx].
  - intros Hb. apply Hnotin. apply in_or_app. auto.
  - now apply IH.
Qed.

(** Pruning keeps a forest well formed. *)
Lemma NoDup_prune (p : node -> bool) (cs : list node) :
  NoDup (ids cs) -> NoDup (ids (prune p cs)).
Proof.
  induction cs as [|s cs IH|s cs IH|i nm at_ sub cs IHsub IH] using forest_ind;
    intros Hnd.
  - constructor.
  - rewrite prune_cons. destruct (p (NavigableString s)); simpl; auto.
  - rewrite prune_cons. destruct (p (Comment s)); simpl; auto.
  - rewrite ids_cons, ids_tag in Hnd.
    assert (Hsub : NoDup (ids sub)).
    { apply NoDup_app_remove_r in Hnd. now inversion Hnd. }
    assert (Hcs : NoDup (ids cs)) by (eapply NoDup_app_remove_l; eauto).
    rewrite prune_cons. destruct (p (Tag i nm at_ sub)); [simpl; auto|].
    rewrite ids_app, prune_node_tag, ids_tag. apply NoDup_app_intro; auto.
    + constructor; auto. intros Hi. apply ids_prune_incl in Hi.
      apply NoDup_app_remove_r in Hnd. now inversion Hnd.
    + intros x Hx Hx'. apply ids_prune_incl in Hx'.
      eapply NoDup_app_disjoint; eauto.
      destruct Hx as [->|Hx]; [left; reflexivity|].
      right. now apply ids_prune_incl in Hx.
Qed.

Lemma prune_ext (p q : node -> bool) (cs : list node) :
  (forall n, In n (descendants cs) -> p n = q n) -> prune p cs = prune q cs.
Proof.
  induction cs as [|s cs IH|s cs IH|i nm at_ sub cs IHsub IH] using forest_ind;
    intros Hpq; [reflexivity| | |].
  - rewrite !prune_cons, (Hpq (NavigableString s)) by (simpl; auto).
    f_equal. apply IH. intros n Hn. apply Hpq. simpl. auto.
  - rewrite !prune_cons, (Hpq (Comment s)) by (simpl; auto).
    f_equal. apply IH. intros n Hn. apply Hpq. simpl. auto.
  - rewrite !prune_cons, (Hpq (Tag i nm at_ sub)) by (simpl; auto).
    rewrite !prune_node_tag, IHsub, IH; [reflexivity| |].
    + intros n Hn. apply Hpq. rewrite descendants_tag. right.
      apply in_or_app. auto.
    + intros n Hn. apply Hpq. rewrite descendants_tag. right.
      apply in_or_app. auto.
Qed.

Lemma prune_nothing (p : node -> bool) (cs : list node) :
  (forall n, In n (descendants cs) -> p n = false) -> prune p cs = cs.
Proof.
  induction cs as [|s cs IH|s cs IH|i nm at_ sub cs IHsub IH] using forest_ind;
    intros Hp; [reflexivity| | |].
  - rewrite prune_cons, (Hp (NavigableString s)) by (simpl; auto).
    simpl. f_equal. apply IH. intros n Hn. apply Hp. simpl. auto.
  - rewrite prune_cons, (Hp (Comment s)) by (simpl; auto).
    simpl. f_equal. apply IH. intros n Hn. apply Hp. simpl. auto.
  - rewrite prune_cons, (Hp (Tag i nm at_ sub)) by (simpl; auto).
    rewrite prune_node_tag, IHsub, IH; [reflexivity| |].
    + intros n Hn. apply Hp. rewrite descendants_tag. right.
      apply in_or_app. auto.
    + intros n Hn. apply Hp. rewrite descendants_tag. right.
      apply in_or_app. auto.
Qed.

(** Two prunings in a row are one, when the second looks only at what the
    first leaves untouched. *)
Lemma prune_prune (p q : node -> bool) (cs : list node) :
  (forall n, q (prune_node p n) = q n) ->
  prune q (prune p cs) = prune (fun n => p n || q n) cs.
Proof.
  intros Hq.
  induction cs as [|s cs IH|s cs IH|i nm at_ sub cs IHsub IH] using forest_ind;
    [reflexivity| | |].
  - rewrite !prune_cons, prune_app, IH.
    destruct (p (NavigableString s)); simpl; [reflexivity|].
    destruct (q (NavigableString s)); reflexivity.
  - rewrite !prune_cons, prune_app, IH.
    destruct (p (Comment s)); simpl; [reflexivity|].
    destruct (q (Comment s)); reflexivity.
  - rewrite (prune_cons p), prune_app, IH, (prune_cons (fun n => p n || q n)).
    f_equal. destruct (p (Tag i nm at_ sub)) eqn:Hp; [reflexivity|].
    rewrite prune_cons, Hq. cbn [orb]. rewrite app_nil_r.
    destruct (q (Tag i nm at_ sub)); [reflexivity|].
    rewrite !prune_node_tag, IHsub. reflexivity.
Qed.

Lemma prune_node_prune_node (p q : node -> bool) (n : node) :
  (forall n, q (prune_node p n) = q n) ->
  prune_node q (prune_node p n) = prune_node (fun n => p n || q n) n.
Proof.
  intros Hq. destruct n as [s|s|i nm at_ sub]; try reflexivity.
  rewrite !prune_node_tag. f_equal. now apply prune_prune.
Qed.

Lemma id_in_spec (D : list nat) (n : node) :
  id_in D n = true <-> exists i, node_id n = Some i /\ In i D.
Proof.
  unfold id_in. rewrite existsb_exists. split.
  - intros (j & Hj & Hid). destruct n as [s|s|i nm at_ sub]; try discriminate.
    apply Nat.eqb_eq in Hid. subst. exists i. auto.
  - intros (i & Hid & Hi). destruct n as [s|s|j nm at_ sub]; try discriminate.
    injection Hid as ->. exists i. split; [assumption|]. simpl.
    apply Nat.eqb_refl.
Qed.

Lemma id_in_prune (D : list nat) (p : node -> bool) (n : node) :
  id_in D (prune_node p n) = id_in D n.
Proof. destruct n; reflexivity. Qed.

Lemma has_id_prune (t : nat) (p : node -> bool) (n : node) :
  has_id t (prune_node p n) = has_id t n.
Proof. destruct n; reflexivity. Qed.

Lemma has_name_prune (names : list str) (p : node -> bool) (n : node) :
  has_name names (prune_node p n) = has_name names n.
Proof. destruct n; reflexivity. Qed.

(** Pruning by identities that do not occur changes nothing. *)
Lemma prune_ids_disjoint (D : list nat) (cs : list node) :
  (forall i, In i D -> ~ In i (ids cs)) -> prune_ids D cs = cs.
Proof.
  intros Hd. apply prune_nothing. intros n Hn.
  destruct (id_in D n) eqn:E; [|reflexivity].
  apply id_in_spec in E as (i & Hid & Hi). exfalso. apply (Hd i Hi).
  destruct n as [s|s|j nm at_ sub]; try discriminate. injection Hid as ->.
  apply in_ids_of. eauto.
Qed.

(** Tags of one identity in a well-formed forest are one tag. *)
Lemma same_id_same_node (l : list node) i nm at_ sub nm' at' sub' :
  NoDup (ids_of l) ->
  In (Tag i nm at_ sub) l -> In (Tag i nm' at' sub') l ->
  Tag i nm at_ sub = Tag i nm' at' sub'.
Proof.
  intros Hnd H1 H2.
  pose proof (find_unique _ _ _ _ _ Hnd H1) as E1.
  pose proof (find_unique _ _ _ _ _ Hnd H2) as E2. congruence.
Qed.

(** Decomposing, one by one, all the tags of the given names is pruning
    by those names. *)
Lemma prune_ids_matching (names : list str) (cs : list node) :
  NoDup (ids cs) ->
  prune_ids (ids_of (filter (has_name names) (descendants cs))) cs
  = prune_names names cs.
Proof.
  intros Hnd. apply prune_ext. intros n Hn.
  destruct (has_name names n) eqn:E.
  - apply id_in_spec. destruct n as [s|s|i nm at_ sub]; try discriminate.
    exists i. split; [reflexivity|]. apply in_ids_of. exists nm, at_, sub.
    apply filter_In. auto.
  - destruct (id_in _ n) eqn:E'; [|reflexivity].
    apply id_in_spec in E' as (i & Hid & Hi).
    destruct n as [s|s|j nm at_ sub]; try discriminate. injection Hid as ->.
    apply in_ids_of in Hi as (nm' & at' & sub' & Hi).
    apply filter_In in Hi as [Hi Hname].
    pose proof (same_id_same_node _ _ _ _ _ _ _ _ Hnd Hn Hi) as Heq.
    rewrite Heq in E. congruence.
Qed.

(** A tag stays in the document when only nodes below it are pruned. *)
Lemma prune_keeps (D : list nat) (cs : list node) :
  forall i nm at_ sub,
    NoDup (ids cs) ->
    In (Tag i nm at_ sub) (descendants cs) ->
    incl D (ids sub) ->
    In (Tag i nm at_ (prune_ids D sub)) (descendants (prune_ids D cs)).
Proof.
  unfold prune_ids.
  induction cs as [|s cs IH|s cs IH|j nm' at' sub' cs IHsub IH] using forest_ind;
    intros i nm at_ sub Hnd Hin HD.
  - destruct Hin.
  - destruct Hin as [H|H]; [discriminate|].
    rewrite prune_cons, descendants_app. apply in_or_app. right.
    apply IH; auto.
  - destruct Hin as [H|H]; [discriminate|].
    rewrite prune_cons, descendants_app. apply in_or_app. right.
    apply IH; auto.
  - pose proof Hnd as Hnd0. rewrite ids_cons, ids_tag in Hnd.
    assert (Hj : ~ In j (ids sub')).
    { apply NoDup_app_remove_r in Hnd. now inversion Hnd. }
    assert (Hsub : NoDup (ids sub')).
    { apply NoDup_app_remove_r in Hnd. now inversion Hnd. }
    assert (Hcs : NoDup (ids cs)) by (eapply NoDup_app_remove_l; eauto).
    rewrite prune_cons, descendants_app. apply in_or_app.
    rewrite descendants_tag in Hin. destruct Hin as [H|H].
    + injection H as -> -> -> ->. left.
      destruct (id_in D (Tag i nm at_ sub)) eqn:E.
      * apply id_in_spec in E as (k & Hk & HkD). injection Hk as <-.
        exfalso. apply Hj. now apply HD.
      * rewrite prune_node_tag. simpl. auto.
    + apply in_app_or in H as [H|H].
      * left. destruct (id_in D (Tag j nm' at' sub')) eqn:E.
        -- apply id_in_spec in E as (k & Hk & HkD). injection Hk as <-.
           exfalso. apply Hj. eapply ids_below; eauto.
        -- rewrite prune_node_tag, descendants_root. right. apply IHsub; auto.
      * right. apply IH; auto.
Qed.

Lemma prune_node_nothing (p : node -> bool) (n : node) :
  (forall m, p m = false) -> prune_node p n = n.
Proof.
  intros Hp. destruct n as [s|s|i nm at_ sub]; try reflexivity.
  rewrite prune_node_tag. f_equal. apply prune_nothing. auto.
Qed.

Lemma well_formed_prune_node (p : node -> bool) (soup : node) :
  well_formed soup -> well_formed (prune_node p soup).
Proof.
  unfold well_formed. destruct soup as [s|s|i nm at_ sub]; auto.
  rewrite prune_node_tag, !ids_tag. intros Hnd. inversion Hnd; subst.
  constructor.
  - intros Hi. now apply ids_prune_incl in Hi.
  - now apply NoDup_prune.
Qed.

Lemma lookup_some (t : nat) (soup n : node) :
  lookup t soup = Some n ->
  In n (descendants [soup]) /\ exists nm at_ sub, n = Tag t nm at_ sub.
Proof. unfold lookup. rewrite descendants_root. apply find_has_id. Qed.

Lemma lookup_in (t : nat) (soup : node) nm at_ sub :
  well_formed soup ->
  In (Tag t nm at_ sub) (descendants [soup]) ->
  lookup t soup = Some (Tag t nm at_ sub).
Proof.
  unfold well_formed, lookup, ids. rewrite descendants_root.
  apply find_unique.
Qed.

(** After nodes below the tag [t] are pruned, [t] holds its pruned
    contents. *)
Lemma lookup_after_prune (D : list nat) (soup : node) t nm at_ cs :
  well_formed soup ->
  lookup t soup = Some (Tag t nm at_ cs) ->
  incl D (ids cs) ->
  lookup t (prune_node (id_in D) soup) = Some (Tag t nm at_ (prune_ids D cs)).
Proof.
  intros Hwf Hl HD. apply lookup_some in Hl as [Hin _].
  pose proof (@prune_keeps D [soup] _ _ _ _ Hwf Hin HD) as Hk.
  apply lookup_in; [now apply well_formed_prune_node|].
  unfold prune_ids in Hk |- *. rewrite prune_cons in Hk.
  destruct (id_in D soup); [destruct Hk | exact Hk].
Qed.

(** ** Running the tag operations *)

Lemma for_each_decompose (tags : list nat) (soup : node) :
  for_each tags (fun tag _ => decompose tag) tt soup
  = Ok (tt, prune_node (id_in tags) soup).
Proof.
  revert soup. induction tags as [|t tags IH]; intros soup; simpl.
  - unfold ret. now rewrite prune_node_nothing.
  - unfold bind, decompose. rewrite IH. do 2 f_equal.
    rewrite prune_node_prune_node by (intros; apply id_in_prune).
    reflexivity.
Qed.

Lemma decompose_all_run (names : list str) (t : nat) (soup : node) :
  decompose_all names t soup
  = Ok (tt, prune_node
              (id_in (ids_of (filter (has_name names)
                                (descendants (contents_in soup t))))) soup).
Proof.
  unfold decompose_all, find_all, contents, bind, ret.
  apply for_each_decompose.
Qed.

Lemma matching_ids_incl (names : list str) (cs : list node) :
  incl (ids_of (filter (has_name names) (descendants cs))) (ids cs).
Proof.
  intros i Hi. apply in_ids_of in Hi as (nm & at_ & sub & Hi).
  apply filter_In in Hi as [Hi _]. apply in_ids_of. eauto.
Qed.

(** ** Loops over the direct children of a tag *)

Lemma in_descendants_top (cs : list node) (n : node) :
  In n cs -> In n (descendants cs).
Proof.
  intros H. unfold descendants. apply in_flat_map. exists n. split; auto.
  destruct n; simpl; auto.
Qed.

Section ChildLoop.

Variables (A : Type) (name : str) (body : nat -> A -> M A).
Variables (step : list node -> A -> A) (gone : list node -> list nat).

Hypothesis gone_below : forall sub, incl (gone sub) (ids sub).

(** The body reads and prunes only below its own tag. *)
Hypothesis body_run :
  forall soup c nm at_ sub acc,
    well_formed soup ->
    lookup c soup = Some (Tag c nm at_ sub) ->
    body c acc soup
    = Ok (step sub acc, prune_node (id_in (gone sub)) soup).

Lemma child_loop_from (todo : list node) :
  forall done soup t nm at_ acc,
    well_formed soup ->
    lookup t soup = Some (Tag t nm at_ (done ++ todo)) ->
    exists soup',
      for_each (ids_of (filter (has_name [name]) todo)) body acc soup
      = Ok (fold_left (fun a n => step (node_contents n) a)
              (filter (has_name [name]) todo) acc, soup')
      /\ well_formed soup'
      /\ lookup t soup'
         = Some (Tag t nm at_ (done ++ List.map (child_after name gone) todo)).
Proof.
  induction todo as [|n todo IH]; intros done soup t nm at_ acc Hwf Hl.
  - exists soup. simpl. auto.
  - destruct (has_name [name] n) eqn:Hn.
    + destruct n as [s|s|c nm' at' sub]; try discriminate.
      cbn [filter]. rewrite Hn. cbn [ids_of for_each fold_left node_contents].
      pose proof Hl as Hl0. apply lookup_some in Hl0 as [Hin _].
      assert (Hc : lookup c soup = Some (Tag c nm' at' sub)).
      { apply lookup_in; [assumption|].
        eapply descendants_below; [exact Hin|].
        apply in_descendants_top. apply in_or_app. right. left. reflexivity. }
      unfold bind at 1. rewrite (body_run acc Hwf Hc).
      set (D := gone sub).
      assert (HD : incl D (ids (done ++ Tag c nm' at' sub :: todo))).
      { intros i Hi. rewrite ids_app, ids_cons, ids_tag.
        apply in_or_app. right. apply in_or_app. left. right.
        now apply gone_below. }
      pose proof (lookup_after_prune Hwf Hl HD) as Hl1.
      destruct (NoDup_below _ _ _ _ _ Hwf Hin) as [Hnd _].
      rewrite ids_app, ids_cons, ids_tag in Hnd.
      assert (Hshape :
                prune_ids D (done ++ Tag c nm' at' sub :: todo)
                = (done ++ [Tag c nm' at' (prune_ids D sub)]) ++ todo).
      { unfold prune_ids. rewrite prune_app, prune_cons.
        fold (prune_ids D done). fold (prune_ids D todo).
        rewrite (prune_ids_disjoint D done), (prune_ids_disjoint D todo).
        - destruct (id_in D (Tag c nm' at' sub)) eqn:E.
          + exfalso. apply id_in_spec in E as (k & Hk & HkD).
            injection Hk as <-. apply gone_below in HkD.
            apply NoDup_app_remove_l in Hnd. simpl in Hnd.
            inversion Hnd as [|? ? Hnotin _]; subst. apply Hnotin.
            apply in_or_app. auto.
          + rewrite prune_node_tag, <- app_assoc. reflexivity.
        - intros i Hi Hi'. apply gone_below in Hi.
          apply NoDup_app_remove_l in Hnd. simpl in Hnd.
          inversion Hnd as [|? ? _ Hnd']; subst.
          eapply NoDup_app_disjoint; eauto.
        - intros i Hi Hi'. apply gone_below in Hi.
          eapply NoDup_app_disjoint; [exact Hnd|exact Hi'|].
          apply in_or_app. left. right. assumption. }
      rewrite Hshape in Hl1.
      destruct (IH _ _ _ _ _ (step sub acc)
                  (well_formed_prune_node _ Hwf) Hl1)
        as (soup' & Hrun & Hwf' & Hl').
      exists soup'. split; [exact Hrun|]. split; [exact Hwf'|].
      rewrite Hl'. cbn [List.map child_after]. rewrite Hn, <- app_assoc.
      reflexivity.
    + cbn [filter]. rewrite Hn.
      replace (done ++ n :: todo) with ((done ++ [n]) ++ todo) in Hl
        by (rewrite <- app_assoc; reflexivity).
      destruct (IH _ _ _ _ _ acc Hwf Hl) as (soup' & Hrun & Hwf' & Hl').
      exists soup'. split; [exact Hrun|]. split; [exact Hwf'|].
      rewrite Hl', <- app_assoc. cbn [List.map app]. do 4 f_equal.
      destruct n as [s|s|c nm' at' sub]; try reflexivity.
      cbn [child_after]. now rewrite Hn.
Qed.

(** The loop over the direct children of [t] named [name]. *)
Lemma child_loop (soup : node) t nm at_ cs (acc : A) :
  well_formed soup ->
  lookup t soup = Some (Tag t nm at_ cs) ->
  exists soup',
    for_each (ids_of (filter (has_name [name]) cs)) body acc soup
    = Ok (fold_left (fun a n => step (node_contents n) a)
            (filter (has_name [name]) cs) acc, soup')
    /\ well_formed soup'
    /\ lookup t soup'
       = Some (Tag t nm at_ (List.map (child_after name gone) cs)).
Proof. intros Hwf Hl. now apply (@child_loop_from cs [] soup). Qed.

End ChildLoop.

(** ** Reading through a tag *)

Lemma filter_names_tags (names : list str) (l : list node) :
  hd_error (ids_of (filter (has_name names) l))
  = match hd_error (filter (has_name names) l) with
    | Some (Tag i _ _ _) => Some i
    | _ => None
    end.
Proof.
  induction l as [|[s|s|i nm at_ sub] l IH]; simpl; auto.
  destruct (existsb (Str.eqb nm) names); auto.
Qed.

Lemma contents_in_lookup (soup : node) t nm at_ cs :
  lookup t soup = Some (Tag t nm at_ cs) -> contents_in soup t = cs.
Proof. unfold contents_in. now intros ->. Qed.

Lemma contents_in_gone (soup : node) (t : nat) :
  lookup t soup = None -> contents_in soup t = [].
Proof. unfold contents_in. now intros ->. Qed.

Lemma first_named_tag (name : str) (cs : list node) (n : node) :
  first_named name cs = Some n ->
  In n (descendants cs) /\ has_name [name] n = true.
Proof.
  unfold first_named. intros H.
  destruct (filter (has_name [name]) (descendants cs)) as [|m l] eqn:E;
    [discriminate|].
  injection H as ->. apply filter_In. rewrite E. left. reflexivity.
Qed.

(** [t.find(name)] where there is such a tag below [t]: the variable it
    yields holds that tag. *)
Lemma find_found (name : str) (soup : node) t nm at_ cs (n : node) :
  well_formed soup ->
  lookup t soup = Some (Tag t nm at_ cs) ->
  first_named name cs = Some n ->
  exists e nm' at' sub,
    n = Tag e nm' at' sub
    /\ find name t soup = Ok (Some e, soup)
    /\ lookup e soup = Some n.
Proof.
  intros Hwf Hl Hf. pose proof (first_named_tag _ _ Hf) as [Hin Hname].
  destruct n as [s|s|e nm' at' sub]; try discriminate.
  exists e, nm', at', sub. split; [reflexivity|]. split.
  - unfold find, find_all, contents, bind, ret.
    rewrite (contents_in_lookup _ Hl), filter_names_tags.
    unfold first_named in Hf. now rewrite Hf.
  - apply lookup_in; [assumption|].
    apply lookup_some in Hl as [Hin' _].
    eapply descendants_below; eauto.
Qed.

Lemma find_missing (name : str) (soup : node) (t : nat) :
  first_named name (contents_in soup t) = None ->
  find name t soup = Ok (None, soup).
Proof.
  intros Hf. unfold find, find_all, contents, bind, ret.
  rewrite filter_names_tags. unfold first_named in Hf. now rewrite Hf.
Qed.

Lemma get_text_strip_run (soup : node) (t : nat) :
  get_text_strip t soup = Ok (stripped_text_of (contents_in soup t), soup).
Proof. reflexivity. Qed.

(** [elem = t.find(name)] followed by
    [elem.get_text(strip=True) if elem else default]. *)
Lemma find_text_run (name : str) (default : str) (soup : node) t nm at_ cs :
  well_formed soup ->
  lookup t soup = Some (Tag t nm at_ cs) ->
  (elem <- find name t ;;
   match elem with
   | Some elem => get_text_strip elem
   | None => ret default
   end) soup
  = Ok (match first_named name cs with
        | Some n => stripped_text_of (node_contents n)
        | None => default
        end, soup).
Proof.
  intros Hwf Hl. destruct (first_named name cs) as [n|] eqn:Hf.
  - destruct (find_found _ Hwf Hl Hf) as (e & nm' & at' & sub & -> & Hfind & He).
    unfold bind. rewrite Hfind, get_text_strip_run, (contents_in_lookup _ He).
    reflexivity.
  - unfold bind. rewrite find_missing by (now rewrite (contents_in_lookup _ Hl)).
    reflexivity.
Qed.

Lemma decompose_all_at (names : list str) (soup : node) t nm at_ cs :
  lookup t soup = Some (Tag t nm at_ cs) ->
  decompose_all names t soup
  = Ok (tt, prune_node (id_in (matching names cs)) soup).
Proof.
  intros Hl. rewrite decompose_all_run, (contents_in_lookup _ Hl). reflexivity.
Qed.

Lemma lookup_pruned_names (names : list str) (soup : node) t nm at_ cs :
  well_formed soup ->
  lookup t soup = Some (Tag t nm at_ cs) ->
  lookup t (prune_node (id_in (matching names cs)) soup)
  = Some (Tag t nm at_ (prune_names names cs)).
Proof.
  intros Hwf Hl.
  rewrite (lookup_after_prune Hwf Hl) by apply matching_ids_incl.
  unfold matching. rewrite prune_ids_matching; [reflexivity|].
  apply lookup_some in Hl as [Hin _].
  eapply NoDup_below in Hin; [|exact Hwf]. tauto.
Qed.

(** ** The sub-group parser *)

Lemma parse_cl_run (soup : node) cl nm at_ sub (acc : list str * str) :
  well_formed soup ->
  lookup cl soup = Some (Tag cl nm at_ sub) ->
  parse_cl cl acc soup
  = Ok (cl_step sub acc, prune_node (id_in (cl_gone sub)) soup).
Proof.
  intros Hwf Hl. destruct acc as [collocations chn_text].
  unfold parse_cl, cl_step, cl_gone, secondary_text, phrase_text.
  unfold bind at 1.
  pose proof (find_text_run (lit "chn") chn_text Hwf Hl) as Hchn.
  unfold bind at 1 in Hchn.
  destruct (find (lit "chn") cl soup) as [[chn soup0]|] eqn:Hfind;
    [|discriminate].
  assert (soup0 = soup) as ->.
  { unfold find, find_all, contents, bind, ret in Hfind. congruence. }
  unfold bind at 1. rewrite Hchn.
  unfold bind at 1. erewrite decompose_all_at by eassumption.
  unfold bind at 1. rewrite get_text_strip_run.
  erewrite contents_in_lookup by (eapply lookup_pruned_names; eassumption).
  unfold ret. cbn [fst snd].
  destruct (first_named (lit "chn") sub); reflexivity.
Qed.

Lemma cl_gone_below (sub : list node) : incl (cl_gone sub) (ids sub).
Proof. apply matching_ids_incl. Qed.

Lemma find_pure (name : str) (t : nat) (soup soup' : node) (r : option nat) :
  find name t soup = Ok (r, soup') -> soup' = soup.
Proof. unfold find, find_all, contents, bind, ret. congruence. Qed.

(** The same reading, in front of the rest of a function. *)
Lemma find_text_bind (B : Type) (name default : str) (k : str -> M B)
    (soup : node) t nm at_ cs :
  well_formed soup ->
  lookup t soup = Some (Tag t nm at_ cs) ->
  (elem <- find name t ;;
   txt <- match elem with
          | Some elem => get_text_strip elem
          | None => ret default
          end ;;
   k txt) soup
  = k (match first_named name cs with
       | Some n => stripped_text_of (node_contents n)
       | None => default
       end) soup.
Proof.
  intros Hwf Hl. pose proof (find_text_run name default Hwf Hl) as Hrun.
  unfold bind at 1 in Hrun. unfold bind at 1.
  destruct (find name t soup) as [[elem soup0]|] eqn:Hfind; [|discriminate].
  apply find_pure in Hfind as Heq. subst soup0.
  unfold bind at 1. now rewrite Hrun.
Qed.

Lemma parse_x_blk_run (soup : node) x_blk nm at_ sub (examples : list Example.t) :
  well_formed soup ->
  lookup x_blk soup = Some (Tag x_blk nm at_ sub) ->
  parse_x_blk x_blk examples soup
  = Ok (x_step sub examples, prune_node (id_in (x_gone sub)) soup).
Proof.
  intros Hwf Hl. unfold parse_x_blk, x_step, x_gone, spec_example.
  destruct (first_named (lit "x") sub) as [n|] eqn:Hf.
  - destruct (find_found _ Hwf Hl Hf) as (x & nm' & at' & xs & -> & Hfind & Hx).
    unfold bind at 1. rewrite Hfind.
    rewrite (find_text_bind _ _ _ Hwf Hx).
    unfold bind at 1. erewrite decompose_all_at by eassumption.
    unfold bind at 1. rewrite get_text_strip_run.
    erewrite contents_in_lookup by (eapply lookup_pruned_names; eassumption).
    unfold ret, example_english, example_secondary, secondary_text.
    cbn [node_contents].
    destruct (nonempty _); destruct (first_named (lit "chn") xs); reflexivity.
  - unfold bind at 1.
    rewrite find_missing by (erewrite contents_in_lookup; eassumption).
    unfold ret. rewrite prune_node_nothing; reflexivity.
Qed.

Lemma x_gone_below (sub : list node) : incl (x_gone sub) (ids sub).
Proof.
  unfold x_gone. destruct (first_named (lit "x") sub) as [n|] eqn:Hf.
  - apply first_named_tag in Hf as [Hin Hname].
    destruct n as [s|s|x nm at_ xs]; try discriminate. cbn [node_contents].
    intros i Hi. apply matching_ids_incl in Hi. eapply ids_below; eauto.
  - intros i [].
Qed.

Lemma last_nonempty_default (A : Type) (l : list A) (x d d' : A) :
  last (x :: l) d = last (x :: l) d'.
Proof.
  revert x. induction l as [|y l IH]; intros x; [reflexivity|].
  exact (IH y).
Qed.

Lemma last_app_default (A : Type) (l1 l2 : list A) (d : A) :
  last (l1 ++ l2) d = last l2 (last l1 d).
Proof.
  revert d. induction l1 as [|x l1 IH]; intros d; [reflexivity|].
  destruct l1 as [|y l1].
  - destruct l2 as [|z l2]; [reflexivity|].
    change (last (z :: l2) d = last (z :: l2) x).
    apply last_nonempty_default.
  - exact (IH d).
Qed.

(** The loop over the phrase nodes computes the words and the last
    gloss. *)
Lemma fold_cl_step (l : list node) (w : list str) (g : str) :
  fold_left (fun a n => cl_step (node_contents n) a) l (w, g)
  = (w ++ filter nonempty (List.map (fun cl => phrase_text (node_contents cl)) l),
     last (flat_map (fun cl => match secondary_text (node_contents cl) with
                               | Some g => [g]
                               | None => []
                               end) l) g).
Proof.
  revert w g. induction l as [|n l IH]; intros w g; simpl.
  - now rewrite app_nil_r.
  - unfold cl_step at 2. cbn [fst snd]. rewrite IH. f_equal.
    + destruct (nonempty (phrase_text (node_contents n))); [|reflexivity].
      now rewrite <- app_assoc.
    + rewrite last_app_default.
      destruct (secondary_text (node_contents n)); reflexivity.
Qed.

Lemma fold_x_step (l : list node) (acc : list Example.t) :
  fold_left (fun a n => x_step (node_contents n) a) l acc
  = acc ++ flat_map (fun x_blk => match spec_example (node_contents x_blk) with
                                  | Some ex => [ex]
                                  | None => []
                                  end) l.
Proof.
  revert acc. induction l as [|n l IH]; intros acc; simpl.
  - now rewrite app_nil_r.
  - rewrite IH. unfold x_step.
    destruct (spec_example (node_contents n)); [|reflexivity].
    now rewrite <- app_assoc.
Qed.

(** The first loop leaves the example blocks as they were. *)
Lemma x_blks_after_cl (cs : list node) :
  filter (has_name [lit "x-blk"])
    (List.map (child_after (lit "cl") cl_gone) cs)
  = filter (has_name [lit "x-blk"]) cs.
Proof.
  induction cs as [|n cs IH]; [reflexivity|].
  cbn [List.map filter]. rewrite IH.
  destruct n as [s|s|c nm at_ sub]; try reflexivity.
  cbn [child_after]. destruct (has_name [lit "cl"] (Tag c nm at_ sub)) eqn:E;
    [|reflexivity].
  simpl in E. rewrite orb_false_r in E. apply eqb_eq in E. subst nm.
  reflexivity.
Qed.

Lemma bind_run (A B : Type) (m : M A) (k : A -> M B) (soup soup' : node) (a : A) :
  m soup = Ok (a, soup') -> bind m k soup = k a soup'.
Proof. unfold bind. now intros ->. Qed.

Lemma find_all_direct_run (name : str) (t : nat) (soup : node) :
  find_all_direct name t soup
  = Ok (ids_of (filter (has_name [name]) (contents_in soup t)), soup).
Proof. reflexivity. Qed.

Lemma find_all_run (names : list str) (t : nat) (soup : node) :
  find_all names t soup = Ok (matching names (contents_in soup t), soup).
Proof. reflexivity. Qed.

Lemma collocations_of_run (soup : node) sb_g nm at_ cs :
  well_formed soup ->
  lookup sb_g soup = Some (Tag sb_g nm at_ cs) ->
  exists soup',
    collocations_of sb_g soup = Ok ((spec_words cs, spec_gloss cs), soup')
    /\ well_formed soup'
    /\ lookup sb_g soup'
       = Some (Tag sb_g nm at_ (List.map (child_after (lit "cl") cl_gone) cs)).
Proof.
  intros Hwf Hl.
  destruct (@child_loop _ (lit "cl") parse_cl cl_step cl_gone
              cl_gone_below (@parse_cl_run) soup sb_g nm at_ cs
              ([], []) Hwf Hl) as (soup1 & Hrun & Hwf1 & Hl1).
  rewrite fold_cl_step in Hrun. cbn [app] in Hrun.
  exists soup1. split; [|auto].
  unfold collocations_of.
  erewrite bind_run by apply find_all_direct_run.
  rewrite (contents_in_lookup _ Hl).
  exact Hrun.
Qed.

Lemma examples_of_run (soup : node) sb_g nm at_ cs :
  well_formed soup ->
  lookup sb_g soup = Some (Tag sb_g nm at_ cs) ->
  exists soup',
    examples_of sb_g soup = Ok (spec_examples cs, soup') /\ well_formed soup'.
Proof.
  intros Hwf Hl.
  destruct (@child_loop _ (lit "x-blk") parse_x_blk x_step x_gone
              x_gone_below (@parse_x_blk_run) soup sb_g nm at_ cs
              [] Hwf Hl) as (soup1 & Hrun & Hwf1 & _).
  rewrite fold_x_step in Hrun. cbn [app] in Hrun.
  exists soup1. split; [|auto].
  unfold examples_of.
  erewrite bind_run by apply find_all_direct_run.
  rewrite (contents_in_lookup _ Hl).
  exact Hrun.
Qed.

Lemma collocations_of_gone (soup : node) (sb_g : nat) :
  lookup sb_g soup = None ->
  collocations_of sb_g soup = Ok (([], []), soup).
Proof.
  intros Hl. unfold collocations_of.
  erewrite bind_run by apply find_all_direct_run.
  rewrite (contents_in_gone _ _ Hl). reflexivity.
Qed.

Lemma spec_examples_after_cl (cs : list node) :
  spec_examples (List.map (child_after (lit "cl") cl_gone) cs) = spec_examples cs.
Proof. unfold spec_examples. now rewrite x_blks_after_cl. Qed.

(** [_parse_sb_g] computes what section 4.2 describes, from the
    sub-group as it stands when the function is called, and keeps the
    document well formed. *)
Lemma parse_sb_g_refines (soup : node) (sb_g : nat) :
  well_formed soup ->
  exists soup',
    _parse_sb_g sb_g soup = Ok (spec_item (contents_in soup sb_g), soup')
    /\ well_formed soup'.
Proof.
  intros Hwf. unfold _parse_sb_g, spec_item.
  destruct (lookup sb_g soup) as [n|] eqn:Hl.
  - destruct (lookup_some _ _ Hl) as [_ (nm & at_ & cs & ->)].
    rewrite (contents_in_lookup _ Hl).
    destruct (collocations_of_run Hwf Hl) as (soup1 & Hrun & Hwf1 & Hl1).
    erewrite bind_run by exact Hrun.
    destruct (spec_words cs) as [|w ws] eqn:Hw.
    + exists soup1. split; [reflexivity | assumption].
    + destruct (examples_of_run Hwf1 Hl1) as (soup2 & Hrun2 & Hwf2).
      erewrite bind_run by exact Hrun2.
      rewrite spec_examples_after_cl.
      exists soup2. split; [reflexivity | assumption].
  - rewrite (contents_in_gone _ _ Hl). exists soup.
    split; [|assumption].
    erewrite bind_run by (apply collocations_of_gone; exact Hl).
    reflexivity.
Qed.

(** ** The document object is well formed *)

Lemma markup_forest_ind (P : markup -> Prop) (Q : list markup -> Prop)
    (Hs : forall s, P (MText s))
    (Hc : forall s, P (MComment s))
    (Ht : forall nm at_ ms, Q ms -> P (MTag nm at_ ms))
    (Hnil : Q [])
    (Hcons : forall m ms, P m -> Q ms -> Q (m :: ms)) :
  forall m, P m.
Proof.
  fix IH 1. intros [s|s|nm at_ ms].
  - apply Hs.
  - apply Hc.
  - apply Ht. revert ms. fix IHms 1. intros [|m r].
    + apply Hnil.
    + apply Hcons; [apply IH | apply IHms].
Qed.

Lemma alloc_tag (nm : str) (at_ : list (str * str)) (ms : list markup) (n : nat) :
  alloc (MTag nm at_ ms) n
  = (Tag n nm at_ (fst (alloc_list ms (S n))), snd (alloc_list ms (S n))).
Proof.
  change (alloc (MTag nm at_ ms) n)
    with (let (cs, next') := alloc_list ms (S n) in (Tag n nm at_ cs, next')).
  now destruct (alloc_list ms (S n)).
Qed.

Lemma alloc_list_cons (m : markup) (ms : list markup) (n : nat) :
  alloc_list (m :: ms) n
  = (fst (alloc m n) :: fst (alloc_list ms (snd (alloc m n))),
     snd (alloc_list ms (snd (alloc m n)))).
Proof.
  cbn [alloc_list]. destruct (alloc m n) as [nd n1]. cbn [fst snd].
  now destruct (alloc_list ms n1).
Qed.

(** The identities given out are the numbers from [n] on, in order. *)
Lemma alloc_ids (m : markup) :
  forall n, n <= snd (alloc m n)
            /\ ids [fst (alloc m n)] = seq n (snd (alloc m n) - n).
Proof.
  apply (markup_forest_ind
           (fun m => forall n, n <= snd (alloc m n)
                               /\ ids [fst (alloc m n)]
                                  = seq n (snd (alloc m n) - n))
           (fun ms => forall n, n <= snd (alloc_list ms n)
                                /\ ids (fst (alloc_list ms n))
                                   = seq n (snd (alloc_list ms n) - n))).
  - intros s n. simpl. rewrite Nat.sub_diag. auto.
  - intros s n. simpl. rewrite Nat.sub_diag. auto.
  - intros nm at_ ms IH n. rewrite alloc_tag. cbn [fst snd].
    destruct (IH (S n)) as [Hle Hids]. split; [lia|].
    rewrite ids_tag, Hids.
    replace (snd (alloc_list ms (S n)) - n)
      with (S (snd (alloc_list ms (S n)) - S n)) by lia.
    reflexivity.
  - intros n. simpl. rewrite Nat.sub_diag. auto.
  - intros m0 ms IHm IHms n. rewrite alloc_list_cons. cbn [fst snd].
    destruct (IHm n) as [Hle1 Hids1].
    destruct (IHms (snd (alloc m0 n))) as [Hle2 Hids2].
    split; [lia|]. rewrite ids_cons, Hids1, Hids2.
    replace (snd (alloc_list ms (snd (alloc m0 n))) - n)
      with ((snd (alloc m0 n) - n)
            + (snd (alloc_list ms (snd (alloc m0 n))) - snd (alloc m0 n)))
      by lia.
    rewrite seq_app. do 2 f_equal. lia.
Qed.

Lemma BeautifulSoup_well_formed (first : nat) (html_content : list markup) :
  well_formed (BeautifulSoup_from first html_content).
Proof.
  unfold well_formed, BeautifulSoup_from.
  destruct (alloc_ids (MTag (lit "[document]") [] html_content) first) as [_ ->].
  apply seq_NoDup.
Qed.

(** ** Running the program *)

Lemma bind_ok (A B : Type) (m : M A) (k : A -> M B) (soup soup' : node) (b : B) :
  bind m k soup = Ok (b, soup') ->
  exists a soup1, m soup = Ok (a, soup1) /\ k a soup1 = Ok (b, soup').
Proof.
  unfold bind. destruct (m soup) as [[a soup1]|]; [|discriminate].
  intros H. eauto.
Qed.

Lemma ret_ok (A : Type) (a b : A) (soup soup' : node) :
  ret a soup = Ok (b, soup') -> b = a /\ soup' = soup.
Proof. unfold ret. intros H. injection H as -> ->. auto. Qed.

(** An invariant of the accumulator of a loop. *)
Lemma for_each_invariant (X A : Type) (P : A -> Prop) (body : X -> A -> M A) :
  (forall x acc soup acc' soup',
      P acc -> body x acc soup = Ok (acc', soup') -> P acc') ->
  forall xs acc soup acc' soup',
    P acc -> for_each xs body acc soup = Ok (acc', soup') -> P acc'.
Proof.
  intros Hbody. induction xs as [|x xs IH]; intros acc soup acc' soup' HP Hrun.
  - apply ret_ok in Hrun as [-> _]. assumption.
  - cbn [for_each] in Hrun. apply bind_ok in Hrun as (a & soup1 & Hb & Hrest).
    eapply IH; [|exact Hrest]. eapply Hbody; eauto.
Qed.

(** The same, with an invariant of the document. *)
Lemma for_each_invariant_state (X A : Type) (P : A -> Prop) (I : node -> Prop)
    (body : X -> A -> M A) :
  (forall x acc soup acc' soup',
      I soup -> P acc -> body x acc soup = Ok (acc', soup') ->
      I soup' /\ P acc') ->
  forall xs acc soup acc' soup',
    I soup -> P acc -> for_each xs body acc soup = Ok (acc', soup') ->
    I soup' /\ P acc'.
Proof.
  intros Hbody. induction xs as [|x xs IH];
    intros acc soup acc' soup' HI HP Hrun.
  - apply ret_ok in Hrun as [-> ->]. auto.
  - cbn [for_each] in Hrun. apply bind_ok in Hrun as (a & soup1 & Hb & Hrest).
    destruct (Hbody _ _ _ _ _ HI HP Hb) as [HI1 HP1].
    eapply IH; eauto.
Qed.

(** * The serialiser *)

Lemma has_char_false (c : N) (s : str) : has_char c s = false -> ~ In c s.
Proof.
  unfold has_char. intros H Hin.
  assert (existsb (N.eqb c) s = true) as E.
  { apply existsb_exists. exists c. split; [assumption | apply N.eqb_refl]. }
  congruence.
Qed.

Lemma line_safe_fields (card : Card.t) :
  line_safe card = true ->
  Forall (fun f => ~ In tab f) (fields_of card)
  /\ Forall (fun f => ~ In newline f) (fields_of card).
Proof.
  unfold line_safe, fields_of, rank_of. intros H.
  apply andb_true_iff in H as [Hplain Hhtml].
  rewrite forallb_forall in Hplain.
  assert (Hp : forall f,
             In f [Card.word card; Card.pos card; Card.sense_num card;
                   Card.def_en card; Card.def_cn card;
                   match Card.freq_rank card with
                   | Some v => py_str v
                   | None => []
                   end] ->
             ~ In tab f /\ ~ In newline f).
  { intros f Hf. apply Hplain in Hf. apply andb_true_iff in Hf as [H1 H2].
    apply negb_true_iff in H1, H2. split; now apply has_char_false. }
  apply negb_true_iff in Hhtml. apply has_char_false in Hhtml.
  assert (Hrank : py_str (match Card.freq_rank card with
                          | Some v => v
                          | None => PyStr []
                          end)
                  = match Card.freq_rank card with
                    | Some v => py_str v
                    | None => []
                    end) by (destruct (Card.freq_rank card); reflexivity).
  rewrite Hrank.
  split; repeat constructor;
    try (apply Hp; simpl; tauto);
    try (apply remove_char_keeps_out; apply remove_char_keeps_out; assumption);
    try (apply remove_char_keeps_out; apply remove_char_not_in).
Qed.

(** C2, as amended. For one or more cards whose plain fields hold no tab
    and no newline and whose rendered fragments hold no tab, the text
    splits on newline into one line per card, in order, and every line
    splits on tab into the eight fields: word, part of speech, sense
    number, English definition, Chinese definition, the fragment without
    its newlines and carriage returns, the stringified rank (empty when
    unset) and the word again. *)
Theorem serialiser_round_trip (all_cards : list Card.t) :
  all_cards <> [] ->
  forallb line_safe all_cards = true ->
  let lines := split newline (generate_anki_import_file all_cards) in
  length lines = length all_cards
  /\ List.map (split tab) lines
     = List.map (fun card =>
                   [Card.word card; Card.pos card; Card.sense_num card;
                    Card.def_en card; Card.def_cn card;
                    remove_char cr
                      (remove_char newline (generate_collocations_html card));
                    rank_of card; Card.word card]) all_cards.
Proof.
  intros Hne Hsafe lines.
  assert (Hlines : lines
                   = List.map (fun card => join [tab] (fields_of card)) all_cards).
  { unfold lines, generate_anki_import_file. apply split_join.
    - destruct all_cards; [congruence | discriminate].
    - apply Forall_forall. intros l Hl.
      apply in_map_iff in Hl as (card & <- & Hcard).
      rewrite forallb_forall in Hsafe.
      apply join_not_in; [discriminate|].
      now apply line_safe_fields, Hsafe. }
  rewrite Hlines. split; [apply length_map|].
  rewrite map_map. apply map_ext_in. intros card Hcard.
  rewrite forallb_forall in Hsafe.
  rewrite split_join.
  - unfold fields_of, rank_of. destruct (Card.freq_rank card); reflexivity.
  - discriminate.
  - now apply line_safe_fields, Hsafe.
Qed.

Lemma serialiser_round_trip_witness :
  [pitch_card_1; pitch_card_2] <> []
  /\ forallb line_safe [pitch_card_1; pitch_card_2] = true
  /\ length (split newline
               (generate_anki_import_file [pitch_card_1; pitch_card_2])) = 2
  /\ List.map (split tab)
       (split newline (generate_anki_import_file [pitch_card_1; pitch_card_2]))
     = List.map (fun card =>
                   [Card.word card; Card.pos card; Card.sense_num card;
                    Card.def_en card; Card.def_cn card;
                    remove_char cr
                      (remove_char newline (generate_collocations_html card));
                    rank_of card; Card.word card])
         [pitch_card_1; pitch_card_2].
Proof.
  split; [discriminate|]. split; [reflexivity|].
  apply (@serialiser_round_trip [pitch_card_1; pitch_card_2]);
    [discriminate | reflexivity].
Defined.

(** C2 as stated fails: no card gives one line, the empty one, and a
    card with a newline in its definition gives two lines. *)
Lemma serialiser_lines_can_differ :
  length (split newline (generate_anki_import_file [])) = 1
  /\ length (split newline (generate_anki_import_file [two_line_card])) = 2.
Proof. split; reflexivity. Qed.

(** * The entry and its blocks *)

Lemma prune_names_twice (cs : list node) :
  prune_names [lit "chnsep"] (prune_names [lit "chn"] cs)
  = prune_names [lit "chn"; lit "chnsep"] cs.
Proof.
  unfold prune_names. rewrite prune_prune by (intros; apply has_name_prune).
  apply prune_ext. intros [s|s|i nm at_ sub] _; try reflexivity.
  simpl. now rewrite !orb_false_r.
Qed.

(** The definition: the secondary text is read first, from the node as it
    stands, and the English text after both strips. *)
Lemma parse_def_run (soup : node) d nm at_ dc :
  well_formed soup ->
  lookup d soup = Some (Tag d nm at_ dc) ->
  exists soup',
    parse_def d soup
    = Ok ((definition_english dc, definition_secondary dc), soup')
    /\ well_formed soup'.
Proof.
  intros Hwf Hl. unfold parse_def.
  rewrite (find_text_bind _ _ _ Hwf Hl).
  pose proof (decompose_all_at [lit "chn"] _ Hl) as Hrun1.
  pose proof (lookup_pruned_names [lit "chn"] Hwf Hl) as Hl1.
  pose proof (well_formed_prune_node
                (id_in (matching [lit "chn"] dc)) Hwf) as Hwf1.
  erewrite bind_run by exact Hrun1.
  pose proof (decompose_all_at [lit "chnsep"] _ Hl1) as Hrun2.
  pose proof (lookup_pruned_names [lit "chnsep"] Hwf1 Hl1) as Hl2.
  erewrite bind_run by exact Hrun2.
  erewrite bind_run by apply get_text_strip_run.
  rewrite (contents_in_lookup _ Hl2), prune_names_twice.
  unfold definition_english, definition_secondary, secondary_text.
  destruct (first_named (lit "chn") dc);
    (eexists; split; [reflexivity | now apply well_formed_prune_node]).
Qed.

Lemma text_of_first_run (name : str) (soup : node) t nm at_ cs :
  well_formed soup ->
  lookup t soup = Some (Tag t nm at_ cs) ->
  text_of_first name t soup = Ok (text_first name cs, soup).
Proof. intros Hwf Hl. apply (find_text_run name [] Hwf Hl). Qed.

Lemma entry_headword_run (word : str) (soup : node) (entry : nat) :
  well_formed soup ->
  entry_headword word entry soup
  = Ok (headword_of word (contents_in soup entry), soup).
Proof.
  intros Hwf. unfold entry_headword, headword_of.
  destruct (lookup entry soup) as [n|] eqn:Hl.
  - destruct (lookup_some _ _ Hl) as [_ (nm & at_ & cs & ->)].
    rewrite (contents_in_lookup _ Hl). apply (find_text_run _ _ Hwf Hl).
  - erewrite bind_run
      by (apply find_missing; rewrite (contents_in_gone _ _ Hl); reflexivity).
    rewrite (contents_in_gone _ _ Hl). reflexivity.
Qed.

Lemma entry_head_run (soup : node) (entry : nat) :
  well_formed soup ->
  exists soup',
    entry_head entry soup = Ok (spec_head (contents_in soup entry), soup')
    /\ well_formed soup'.
Proof.
  intros Hwf. unfold entry_head, spec_head, definition_of.
  destruct (lookup entry soup) as [n|] eqn:Hl.
  - destruct (lookup_some _ _ Hl) as [_ (nm & at_ & ec & ->)].
    rewrite (contents_in_lookup _ Hl).
    destruct (first_named (lit "head") ec) as [head|] eqn:Hhead.
    + destruct (find_found _ Hwf Hl Hhead)
        as (h & nm' & at' & hc & -> & Hfind & Hh).
      erewrite bind_run by exact Hfind. cbn [node_contents].
      erewrite bind_run by (apply (text_of_first_run _ Hwf Hh)).
      erewrite bind_run by (apply (text_of_first_run _ Hwf Hh)).
      destruct (first_named (lit "def") hc) as [def|] eqn:Hdef.
      * destruct (find_found _ Hwf Hh Hdef)
          as (d & nm'' & at'' & dc & -> & Hfind' & Hd).
        erewrite bind_run by exact Hfind'.
        destruct (parse_def_run Hwf Hd) as (soup' & Hrun & Hwf').
        erewrite bind_run by exact Hrun.
        exists soup'. split; [reflexivity | assumption].
      * erewrite bind_run
          by (apply find_missing; rewrite (contents_in_lookup _ Hh); exact Hdef).
        exists soup. split; [reflexivity | assumption].
    + erewrite bind_run
        by (apply find_missing; rewrite (contents_in_lookup _ Hl); exact Hhead).
      exists soup. split; [reflexivity | assumption].
  - rewrite (contents_in_gone _ _ Hl).
    erewrite bind_run
      by (apply find_missing; rewrite (contents_in_gone _ _ Hl); reflexivity).
    exists soup. split; [reflexivity | assumption].
Qed.

Lemma parse_entry_card (word : str) (soup soup' : node) (entry : nat) (card : Card.t) :
  well_formed soup ->
  parse_entry word entry soup = Ok (Some card, soup') ->
  Card.word card = headword_of word (contents_in soup entry)
  /\ (Card.pos card, Card.sense_num card, Card.def_en card, Card.def_cn card)
     = spec_head (contents_in soup entry).
Proof.
  intros Hwf H. unfold parse_entry in H.
  erewrite bind_run in H by (now apply entry_headword_run).
  destruct (entry_head_run entry Hwf) as (soup1 & Hhead & _).
  erewrite bind_run in H by exact Hhead.
  destruct (spec_head (contents_in soup entry)) as [[[pos sn] en] cn].
  apply bind_ok in H as (groups & soup2 & _ & H).
  destruct groups as [|g groups]; apply ret_ok in H as [H _];
    [discriminate|].
  injection H as ->. auto.
Qed.

(** * The blocks of an entry *)

Lemma get_run (key default : str) (soup : node) t nm attrs cs :
  lookup t soup = Some (Tag t nm attrs cs) ->
  get key default t soup = Ok (dict_get key attrs default, soup).
Proof. unfold get. now intros ->. Qed.

Lemma get_pure (key default v : str) (t : nat) (soup soup' : node) :
  get key default t soup = Ok (v, soup') -> soup' = soup.
Proof.
  unfold get. destruct (lookup t soup) as [[s|s|i nm attrs cs]|];
    try discriminate.
  intros H. now injection H.
Qed.

Lemma get_text_run (soup : node) (t : nat) :
  get_text t soup = Ok (text_of (contents_in soup t), soup).
Proof. reflexivity. Qed.

(** The loop over the sub-groups of a block returns, on a well-formed
    document, leaves it well formed, and appends items that section 4.2
    describes. *)
Lemma parse_items_run (sb_gs : list nat) :
  forall (acc : list Item.t) (soup : node),
    well_formed soup ->
    Forall item_of_sub_group acc ->
    exists items soup',
      for_each sb_gs parse_item acc soup = Ok (items, soup')
      /\ well_formed soup'
      /\ Forall item_of_sub_group items.
Proof.
  induction sb_gs as [|sb_g sb_gs IH]; intros acc soup Hwf Hacc.
  - exists acc, soup. split; [reflexivity | auto].
  - destruct (parse_sb_g_refines sb_g Hwf) as (soup1 & Hrun & Hwf1).
    cbn [for_each]. unfold parse_item at 1.
    erewrite bind_run; [|erewrite bind_run by exact Hrun; reflexivity].
    apply IH; [assumption|].
    destruct (spec_item (contents_in soup sb_g)) as [item|] eqn:Hitem;
      [|assumption].
    apply Forall_app. split; [assumption|].
    constructor; [|constructor]. exists soup, sb_g. auto.
Qed.

Lemma keep_upper (sl_type : str) :
  existsb (Str.eqb sl_type) KEEP_SL_TYPES = true ->
  strip (sub_spaces false (upper sl_type)) = upper sl_type
  /\ upper sl_type <> [].
Proof.
  intros H. apply existsb_exists in H as (k & Hk & Heq).
  apply eqb_eq in Heq. subst k.
  destruct Hk as [<-|[<-|[<-|[<-|[]]]]]; split; (reflexivity || discriminate).
Qed.

(** The loop body on a kept block. *)
Lemma parse_blk_kept (soup : node) blk nm attrs bc (groups : list Group.t) :
  well_formed soup ->
  lookup blk soup = Some (Tag blk nm attrs bc) ->
  existsb (Str.eqb (dict_get (lit "sl") attrs [])) KEEP_SL_TYPES = true ->
  exists items soup',
    parse_blk blk groups soup
    = Ok (match items with
          | [] => groups
          | _ :: _ =>
              groups ++ [Group.make
                           (category_of (dict_get (lit "sl") attrs []) bc)
                           items]
          end, soup')
    /\ well_formed soup'
    /\ Forall item_of_sub_group items.
Proof.
  intros Hwf Hl Hkeep. unfold parse_blk.
  erewrite bind_run by (apply (get_run _ _ _ Hl)).
  rewrite Hkeep. cbn [negb].
  destruct (parse_items_run (matching [lit "sb-g"] bc) Hwf (Forall_nil _))
    as (items & soup' & Hrun & Hwf' & Hitems).
  exists items, soup'. split; [|auto].
  unfold category_of.
  destruct (first_named (lit "sl-g-head") bc) as [head|] eqn:Hhead.
  - destruct (find_found _ Hwf Hl Hhead)
      as (h & nm' & at' & hc & -> & Hfind & Hh).
    erewrite bind_run by exact Hfind.
    erewrite bind_run by apply get_text_run.
    rewrite (contents_in_lookup _ Hh). cbv zeta.
    erewrite bind_run by apply find_all_run.
    rewrite (contents_in_lookup _ Hl).
    erewrite bind_run by exact Hrun.
    reflexivity.
  - erewrite bind_run
      by (apply find_missing; rewrite (contents_in_lookup _ Hl); exact Hhead).
    erewrite bind_run by reflexivity. cbv zeta.
    erewrite bind_run by apply find_all_run.
    rewrite (contents_in_lookup _ Hl).
    erewrite bind_run by exact Hrun.
    destruct (keep_upper _ Hkeep) as [-> _]. reflexivity.
Qed.

(** The loop body on a block of another type: nothing is read below the
    block, nothing is appended, and the document is as it was. *)
Lemma parse_blk_skipped (soup : node) blk nm attrs bc (groups : list Group.t) :
  lookup blk soup = Some (Tag blk nm attrs bc) ->
  existsb (Str.eqb (dict_get (lit "sl") attrs [])) KEEP_SL_TYPES = false ->
  parse_blk blk groups soup = Ok (groups, soup).
Proof.
  intros Hl Hkeep. unfold parse_blk.
  erewrite bind_run by (apply (get_run _ _ _ Hl)).
  rewrite Hkeep. reflexivity.
Qed.

Lemma sub_spaces_single (b : bool) (s : str) :
  single_spaced_from b (sub_spaces b s) = true.
Proof.
  revert b. induction s as [|c s IH]; intros b; [reflexivity|].
  cbn [sub_spaces]. destruct (isspace c) eqn:Hc.
  - destruct b; [apply IH|].
    cbn [single_spaced_from]. change (isspace 32) with true.
    cbn. apply IH.
  - cbn [single_spaced_from]. rewrite Hc. apply IH.
Qed.

Lemma single_spaced_weaken (b : bool) (s : str) :
  single_spaced_from b s = true -> single_spaced_from false s = true.
Proof.
  destruct s as [|c s]; [reflexivity|]. cbn [single_spaced_from].
  destruct (isspace c); [|auto]. intros H.
  apply andb_true_iff in H as [H1 H2]. apply andb_true_iff in H1 as [H1 _].
  now rewrite H1, H2.
Qed.

Lemma lstrip_single (s : str) :
  single_spaced_from false s = true ->
  single_spaced_from true (lstrip s) = true.
Proof.
  induction s as [|c s IH]; [reflexivity|].
  cbn [single_spaced_from lstrip]. destruct (isspace c) eqn:Hc.
  - intros H. apply andb_true_iff in H as [_ H].
    apply IH. eapply single_spaced_weaken; eauto.
  - intros H. cbn [single_spaced_from]. now rewrite Hc.
Qed.

Lemma single_spaced_prefix (b : bool) (s t : str) :
  single_spaced_from b (s ++ t) = true -> single_spaced_from b s = true.
Proof.
  revert b. induction s as [|c s IH]; intros b; [reflexivity|].
  cbn [app single_spaced_from]. destruct (isspace c); [|apply IH].
  intros H. apply andb_true_iff in H as [H1 H2].
  rewrite H1. cbn [andb]. now apply IH.
Qed.

Lemma rstrip_snoc (s : str) (c : N) :
  rstrip (s ++ [c]) = if isspace c then rstrip s else s ++ [c].
Proof.
  unfold rstrip. rewrite rev_app_distr. cbn [rev app lstrip].
  destruct (isspace c); [reflexivity|].
  cbn [rev]. now rewrite rev_involutive.
Qed.

Lemma rstrip_single (b : bool) (s : str) :
  single_spaced_from b s = true ->
  single_spaced_from b (rstrip s) = true
  /\ isspace (last (rstrip s) 0%N) = false.
Proof.
  induction s as [|c s IH] using rev_ind; intros H.
  - split; reflexivity.
  - rewrite rstrip_snoc. destruct (isspace c) eqn:Hc.
    + apply IH. eapply single_spaced_prefix; eauto.
    + split; [assumption|]. now rewrite last_last.
Qed.

(** [re.sub(r'\s+', ' ', s).strip()] is normalised. *)
Lemma strip_sub_spaces_normal (s : str) :
  normal_spaces (strip (sub_spaces false s)) = true.
Proof.
  unfold normal_spaces, strip.
  pose proof (lstrip_single _ (sub_spaces_single false s)) as H.
  apply rstrip_single in H as [H1 H2]. now rewrite H1, H2.
Qed.

(** * The extractor as a whole *)

Lemma parse_entry_groups (word : str) (entry : nat) (soup soup' : node)
    (r : option Card.t) :
  parse_entry word entry soup = Ok (r, soup') ->
  exists soup1 groups,
    entry_groups entry soup1 = Ok (groups, soup')
    /\ (r = None <-> groups = [])
    /\ (forall card, r = Some card -> Card.collocation_groups card = groups).
Proof.
  unfold parse_entry. intros H.
  apply bind_ok in H as (headword & soup0 & _ & H).
  apply bind_ok in H as ([[[pos sense_num] def_en] def_cn] & soup1 & _ & H).
  apply bind_ok in H as (groups & soup2 & Hgroups & H).
  exists soup1, groups. destruct groups as [|g groups];
    apply ret_ok in H as [-> ->]; (split; [exact Hgroups|]).
  - split; [tauto|]. intros card Hc. discriminate.
  - split; [split; discriminate|]. intros card Hc. now injection Hc as <-.
Qed.

(** What holds of every card of every run. *)
Lemma every_card (P : Card.t -> Prop) :
  (forall word entry soup soup' card,
      parse_entry word entry soup = Ok (Some card, soup') -> P card) ->
  forall html_content word cards,
    parse_collocation_html html_content word = Ok cards -> Forall P cards.
Proof.
  intros Hentry html_content word cards.
  unfold parse_collocation_html, parse_collocation_html_from.
  destruct html_content as [|m ms]; [intros H; injection H as <-; constructor|].
  destruct (parse_soup 0 word (BeautifulSoup_from 0 (m :: ms)))
    as [[cards' soup']|] eqn:Hrun; [|discriminate].
  intros H. injection H as ->. unfold parse_soup in Hrun.
  apply bind_ok in Hrun as (entries & soup1 & _ & Hrun).
  eapply for_each_invariant; [|constructor|exact Hrun].
  intros entry acc s acc' s' Hacc Hadd. unfold add_card in Hadd.
  apply bind_ok in Hadd as (card & s1 & Hcard & Hadd).
  apply ret_ok in Hadd as [-> _]. destruct card as [card|]; [|assumption].
  apply Forall_app. split; [assumption|].
  constructor; [|constructor]. eapply Hentry; eauto.
Qed.

(** C1. Every card returned has groups; the loop body gives no card for
    an entry exactly when the groups it computed for the entry are none,
    and a card it gives carries those groups. *)
Theorem no_sense_without_groups
    (html_content : list markup) (word : str) (cards : list Card.t) :
  parse_collocation_html html_content word = Ok cards ->
  Forall (fun card => Card.collocation_groups card <> []) cards
  /\ (forall entry soup soup' r,
        parse_entry word entry soup = Ok (r, soup') ->
        exists soup1 groups,
          entry_groups entry soup1 = Ok (groups, soup')
          /\ (r = None <-> groups = [])
          /\ (forall card, r = Some card ->
                Card.collocation_groups card = groups)).
Proof.
  intros Hrun. split.
  - revert Hrun. apply every_card. intros w entry soup soup' card Hcard.
    destruct (parse_entry_groups _ _ _ Hcard) as (soup1 & groups & _ & Hnone & Hsome).
    rewrite (Hsome card eq_refl). intros Hnil. apply Hnone in Hnil. discriminate.
  - intros entry soup soup' r. apply parse_entry_groups.
Qed.

Lemma no_sense_without_groups_witness :
  parse_collocation_html [idiom_entry; accord_entry] (lit "accord")
  = Ok [accord_card]
  /\ Forall (fun card => Card.collocation_groups card <> []) [accord_card].
Proof.
  split; [vm_compute; reflexivity|].
  apply (@no_sense_without_groups
           [idiom_entry; accord_entry] (lit "accord") [accord_card]).
  vm_compute. reflexivity.
Defined.

Lemma parse_blk_well_formed (blk : nat) (acc acc' : list Group.t)
    (soup soup' : node) :
  well_formed soup ->
  Forall (fun g => Forall item_of_sub_group (Group.items g)) acc ->
  parse_blk blk acc soup = Ok (acc', soup') ->
  well_formed soup'
  /\ Forall (fun g => Forall item_of_sub_group (Group.items g)) acc'.
Proof.
  intros Hwf Hacc Hrun. destruct (lookup blk soup) as [n|] eqn:Hl.
  - destruct (lookup_some _ _ Hl) as [_ (nm & attrs & bc & ->)].
    destruct (existsb (Str.eqb (dict_get (lit "sl") attrs [])) KEEP_SL_TYPES)
      eqn:Hkeep.
    + destruct (parse_blk_kept acc Hwf Hl Hkeep)
        as (items & soup1 & Hrun1 & Hwf1 & Hitems).
      rewrite Hrun1 in Hrun. injection Hrun as <- <-.
      split; [assumption|]. destruct items as [|item items]; [assumption|].
      apply Forall_app. split; [assumption|]. constructor; [|constructor].
      exact Hitems.
    + rewrite (@parse_blk_skipped soup blk nm attrs bc acc Hl Hkeep) in Hrun.
      injection Hrun as <- <-. auto.
  - unfold parse_blk in Hrun. apply bind_ok in Hrun as (v & s & Hget & _).
    unfold get in Hget. rewrite Hl in Hget. discriminate.
Qed.

Lemma parse_entry_well_formed (word : str) (entry : nat) (r : option Card.t)
    (soup soup' : node) :
  well_formed soup ->
  parse_entry word entry soup = Ok (r, soup') ->
  well_formed soup'
  /\ (forall card, r = Some card ->
        Forall (fun g => Forall item_of_sub_group (Group.items g))
          (Card.collocation_groups card)).
Proof.
  intros Hwf H. unfold parse_entry in H.
  erewrite bind_run in H by (now apply entry_headword_run).
  destruct (entry_head_run entry Hwf) as (soup1 & Hhead & Hwf1).
  erewrite bind_run in H by exact Hhead.
  destruct (spec_head (contents_in soup entry)) as [[[pos sn] en] cn].
  apply bind_ok in H as (groups & soup2 & Hgroups & H).
  assert (Hinv : well_formed soup2
                 /\ Forall (fun g => Forall item_of_sub_group (Group.items g))
                      groups).
  { unfold entry_groups in Hgroups.
    erewrite bind_run in Hgroups by apply find_all_run.
    eapply (@for_each_invariant_state nat (list Group.t)
              (Forall (fun g => Forall item_of_sub_group (Group.items g)))
              well_formed parse_blk);
      [|exact Hwf1|constructor|exact Hgroups].
    intros blk acc s acc' s' Hs Hacc Hblk.
    eapply parse_blk_well_formed; eauto. }
  destruct Hinv as [Hwf2 Hitems].
  destruct groups; apply ret_ok in H as [-> ->]; (split; [assumption|]);
    intros card Hc; [discriminate|]. now injection Hc as <-.
Qed.

(** What holds of every card of every run, the document being well
    formed whenever the loop body starts. *)
Lemma every_card_well_formed (word : str) (P : Card.t -> Prop) :
  (forall entry soup soup' card,
      well_formed soup ->
      parse_entry word entry soup = Ok (Some card, soup') -> P card) ->
  forall html_content cards,
    parse_collocation_html html_content word = Ok cards -> Forall P cards.
Proof.
  intros Hentry html_content cards.
  unfold parse_collocation_html, parse_collocation_html_from.
  destruct html_content as [|m ms]; [intros H; injection H as <-; constructor|].
  destruct (parse_soup 0 word (BeautifulSoup_from 0 (m :: ms)))
    as [[cards' soup']|] eqn:Hrun; [|discriminate].
  intros H. injection H as ->. unfold parse_soup in Hrun.
  erewrite bind_run in Hrun by apply find_all_run.
  eapply (@for_each_invariant_state nat (list Card.t) (Forall P) well_formed
            (add_card word));
    [|apply BeautifulSoup_well_formed|constructor|exact Hrun].
  intros entry acc s acc' s' Hs Hacc Hadd. unfold add_card in Hadd.
  apply bind_ok in Hadd as (card & s1 & Hcard & Hadd).
  apply ret_ok in Hadd as [-> ->].
  split; [eapply parse_entry_well_formed; eauto|].
  destruct card as [card|]; [|assumption].
  apply Forall_app. split; [assumption|].
  constructor; [|constructor]. eapply Hentry; eauto.
Qed.

(** Every card carries the fields of its entry, as the entry stood when
    the loop body started on it. *)
Lemma every_card_fields (html_content : list markup) (word : str)
    (cards : list Card.t) :
  parse_collocation_html html_content word = Ok cards ->
  Forall (fun card =>
            exists soup entry,
              well_formed soup
              /\ Card.word card = headword_of word (contents_in soup entry)
              /\ (Card.pos card, Card.sense_num card,
                  Card.def_en card, Card.def_cn card)
                 = spec_head (contents_in soup entry)) cards.
Proof.
  apply every_card_well_formed. intros entry soup soup' card Hwf Hrun.
  exists soup, entry. split; [assumption|].
  exact (@parse_entry_card _ _ _ _ _ Hwf Hrun).
Qed.

(** Every item of every card is what section 4.2 describes for some
    sub-group, as it stood when it was parsed. *)
Lemma every_item_of_sub_group (html_content : list markup) (word : str)
    (cards : list Card.t) :
  parse_collocation_html html_content word = Ok cards ->
  every_item item_of_sub_group cards.
Proof.
  unfold every_item. apply every_card_well_formed.
  intros entry soup soup' card Hwf Hrun.
  destruct (parse_entry_well_formed _ _ Hwf Hrun) as [_ Hitems]. auto.
Qed.

Lemma every_item_impl (P Q : Item.t -> Prop) (cards : list Card.t) :
  (forall item, P item -> Q item) -> every_item P cards -> every_item Q cards.
Proof.
  intros HPQ. unfold every_item. intros H.
  eapply Forall_impl; [|exact H]. intros card Hc.
  eapply Forall_impl; [|exact Hc]. intros g Hg.
  eapply Forall_impl; [|exact Hg]. exact HPQ.
Qed.

(** * What the sub-group parser returns *)

Lemma spec_words_nonempty (cs : list node) :
  Forall (fun w => w <> []) (spec_words cs).
Proof.
  unfold spec_words. apply Forall_forall. intros w Hw.
  apply filter_In in Hw as [_ Hw]. now apply nonempty_true.
Qed.

Lemma spec_examples_english (cs : list node) :
  Forall (fun ex => Example.en ex <> []) (spec_examples cs).
Proof.
  unfold spec_examples. apply Forall_forall. intros ex Hex.
  apply in_flat_map in Hex as (x_blk & _ & Hex). unfold spec_example in Hex.
  destruct (first_named (lit "x") (node_contents x_blk)) as [x|]; [|destruct Hex].
  destruct (nonempty (example_english (node_contents x))) eqn:E; [|destruct Hex].
  destruct Hex as [<-|[]]. cbn [Example.en]. now apply nonempty_true.
Qed.

(** C3. On a well-formed document [_parse_sb_g] returns, and it returns
    no item exactly when the words left after the strip are none: an item
    it returns holds those words, at least one and none of them empty,
    whatever gloss and examples were found. So it is with every item of
    every card the extractor returns. *)
Theorem sb_g_item_iff_words (soup : node) (sb_g : nat) :
  well_formed soup ->
  exists r soup',
    _parse_sb_g sb_g soup = Ok (r, soup')
    /\ (r = None <-> spec_words (contents_in soup sb_g) = [])
    /\ (forall item, r = Some item ->
          Item.words item = spec_words (contents_in soup sb_g)
          /\ Item.words item <> []
          /\ Forall (fun w => w <> []) (Item.words item))
    /\ (forall html_content word cards,
          parse_collocation_html html_content word = Ok cards ->
          every_item (fun item =>
                        Item.words item <> []
                        /\ Forall (fun w => w <> []) (Item.words item))
            cards).
Proof.
  intros Hwf. destruct (parse_sb_g_refines sb_g Hwf) as (soup' & Hrun & _).
  exists (spec_item (contents_in soup sb_g)), soup'.
  split; [exact Hrun|]. unfold spec_item.
  pose proof (spec_words_nonempty (contents_in soup sb_g)) as Hne.
  split; [|split].
  - destruct (spec_words (contents_in soup sb_g)); split; congruence.
  - intros item H.
    destruct (spec_words (contents_in soup sb_g)) as [|w ws] eqn:Hw;
      [discriminate|].
    injection H as <-. cbn [Item.words].
    split; [reflexivity|]. split; [discriminate | assumption].
  - intros html_content word cards Hcards.
    eapply every_item_impl; [|exact (every_item_of_sub_group _ _ Hcards)].
    intros item (soup0 & sb0 & _ & Hitem). unfold spec_item in Hitem.
    pose proof (spec_words_nonempty (contents_in soup0 sb0)) as Hne0.
    destruct (spec_words (contents_in soup0 sb0)) as [|w ws] eqn:Hw;
      [discriminate|].
    injection Hitem as <-. cbn [Item.words]. split; [discriminate | assumption].
Qed.

Lemma sb_g_item_iff_words_witness :
  well_formed (BeautifulSoup [accord_sb_g])
  /\ exists r soup',
      _parse_sb_g 1 (BeautifulSoup [accord_sb_g]) = Ok (r, soup')
      /\ (r = None <-> spec_words (contents_in (BeautifulSoup [accord_sb_g]) 1) = [])
      /\ (forall item, r = Some item ->
            Item.words item = spec_words (contents_in (BeautifulSoup [accord_sb_g]) 1)
            /\ Item.words item <> []
            /\ Forall (fun w => w <> []) (Item.words item)).
Proof.
  split; [apply BeautifulSoup_well_formed|].
  destruct (@sb_g_item_iff_words (BeautifulSoup [accord_sb_g]) 1
              (BeautifulSoup_well_formed 0 [accord_sb_g]))
    as (r & soup' & Hrun & Hnone & Hsome & _).
  exists r, soup'. auto.
Defined.

(** * The strip is done in place *)

(** The strip works on the document itself (the copy that [_parse_sb_g]
    makes of a phrase node is not used): a sub-group below two kept
    blocks is parsed once for each, and the second time its gloss is
    gone. *)
Remark strip_is_seen_on_second_visit :
  parse_collocation_html [nested_blk_entry] (lit "go")
  = Ok [Card.make (lit "go") [] [] [] []
          [Group.make (lit "PREP") [Item.make [lit "go"] zh_nihao []];
           Group.make (lit "VERBS") [Item.make [lit "go"] [] []]]
          None].
Proof. vm_compute. reflexivity. Qed.

(** * Two runs give the same cards *)

Section Shift.

Variable k : nat.

Lemma shift_descendants (n : node) :
  self_and_descendants (shift_node k n)
  = List.map (shift_node k) (self_and_descendants n).
Proof.
  apply (node_forest_ind
           (fun n => self_and_descendants (shift_node k n)
                     = List.map (shift_node k) (self_and_descendants n))
           (fun cs => descendants (List.map (shift_node k) cs)
                      = List.map (shift_node k) (descendants cs))).
  - reflexivity.
  - reflexivity.
  - intros i nm at_ cs IH. cbn [shift_node self_and_descendants List.map].
    f_equal. exact IH.
  - reflexivity.
  - intros c cs IHc IHcs. cbn [List.map]. rewrite !descendants_cons, map_app.
    now rewrite IHc, IHcs.
Qed.

Lemma shift_forest_descendants (cs : list node) :
  descendants (List.map (shift_node k) cs)
  = List.map (shift_node k) (descendants cs).
Proof.
  induction cs as [|c cs IH]; [reflexivity|].
  cbn [List.map]. rewrite !descendants_cons, map_app, shift_descendants.
  now rewrite IH.
Qed.

Lemma shift_has_name (names : list str) (n : node) :
  has_name names (shift_node k n) = has_name names n.
Proof. destruct n; reflexivity. Qed.

Lemma shift_has_id (t : nat) (n : node) :
  has_id (k + t) (shift_node k n) = has_id t n.
Proof.
  destruct n as [s|s|i nm at_ cs]; try reflexivity. simpl.
  destruct (Nat.eqb_spec t i) as [->|Hne].
  - apply Nat.eqb_refl.
  - apply Nat.eqb_neq. lia.
Qed.

Lemma shift_filter (p p' : node -> bool) (l : list node) :
  (forall n, p' (shift_node k n) = p n) ->
  filter p' (List.map (shift_node k) l) = List.map (shift_node k) (filter p l).
Proof.
  intros Hp. induction l as [|n l IH]; [reflexivity|].
  cbn [List.map filter]. rewrite Hp, IH. now destruct (p n).
Qed.

Lemma shift_ids_of (l : list node) :
  ids_of (List.map (shift_node k) l) = List.map (Nat.add k) (ids_of l).
Proof.
  induction l as [|[s|s|i nm at_ cs] l IH]; simpl; auto. now rewrite IH.
Qed.

Lemma shift_matching (names : list str) (cs : list node) :
  matching names (List.map (shift_node k) cs)
  = List.map (Nat.add k) (matching names cs).
Proof.
  unfold matching.
  rewrite shift_forest_descendants, (shift_filter (has_name names)), shift_ids_of;
    [reflexivity | apply shift_has_name].
Qed.

Lemma shift_direct (name : str) (cs : list node) :
  ids_of (filter (has_name [name]) (List.map (shift_node k) cs))
  = List.map (Nat.add k) (ids_of (filter (has_name [name]) cs)).
Proof.
  rewrite (shift_filter (has_name [name])), shift_ids_of;
    [reflexivity | apply shift_has_name].
Qed.

Lemma shift_all_strings (cs : list node) :
  all_strings (List.map (shift_node k) cs) = all_strings cs.
Proof.
  unfold all_strings. rewrite shift_forest_descendants.
  induction (descendants cs) as [|n l IH]; [reflexivity|].
  cbn [List.map flat_map]. rewrite IH. now destruct n.
Qed.

Lemma shift_lookup (t : nat) (soup : node) :
  lookup (k + t) (shift_node k soup)
  = option_map (shift_node k) (lookup t soup).
Proof.
  unfold lookup. rewrite shift_descendants.
  induction (self_and_descendants soup) as [|n l IH]; [reflexivity|].
  cbn [List.map List.find]. rewrite shift_has_id.
  destruct (has_id t n); [reflexivity | exact IH].
Qed.

Lemma shift_contents_in (t : nat) (soup : node) :
  contents_in (shift_node k soup) (k + t)
  = List.map (shift_node k) (contents_in soup t).
Proof.
  unfold contents_in. rewrite shift_lookup.
  destruct (lookup t soup) as [[s|s|i nm at_ cs]|]; reflexivity.
Qed.

Lemma shift_prune (p p' : node -> bool) :
  (forall c, p' (shift_node k c) = p c) ->
  forall n, prune_node p' (shift_node k n) = shift_node k (prune_node p n).
Proof.
  intros Hp.
  apply (node_forest_ind
           (fun n => prune_node p' (shift_node k n)
                     = shift_node k (prune_node p n))
           (fun cs => prune p' (List.map (shift_node k) cs)
                      = List.map (shift_node k) (prune p cs))).
  - reflexivity.
  - reflexivity.
  - intros i nm at_ cs IH.
    cbn [shift_node]. rewrite !prune_node_tag. cbn [shift_node].
    f_equal. exact IH.
  - reflexivity.
  - intros c cs IHc IHcs. cbn [List.map]. rewrite !prune_cons, map_app, Hp.
    rewrite IHcs. destruct (p c); [reflexivity|].
    cbn [List.map]. now rewrite IHc.
Qed.

(** ** The operations commute with the move *)

Lemma commutes_ret (A : Type) (sh : A -> A) (a : A) :
  commutes k sh (ret a) (ret (sh a)).
Proof. intros soup. reflexivity. Qed.

Lemma commutes_bind (A B : Type) (sha : A -> A) (shb : B -> B)
    (m m' : M A) (f f' : A -> M B) :
  commutes k sha m m' ->
  (forall a, commutes k shb (f a) (f' (sha a))) ->
  commutes k shb (bind m f) (bind m' f').
Proof.
  intros Hm Hf soup. unfold bind. rewrite Hm.
  destruct (m soup) as [[a soup1]|]; [apply Hf | reflexivity].
Qed.

Lemma commutes_for_each (X A : Type) (shx : X -> X) (sha : A -> A)
    (body body' : X -> A -> M A) :
  (forall x acc, commutes k sha (body x acc) (body' (shx x) (sha acc))) ->
  forall xs acc,
    commutes k sha (for_each xs body acc)
      (for_each (List.map shx xs) body' (sha acc)).
Proof.
  intros Hbody. induction xs as [|x xs IH]; intros acc.
  - apply commutes_ret.
  - cbn [List.map for_each]. eapply commutes_bind; [apply Hbody|].
    intros a. apply IH.
Qed.

Lemma commutes_find_all (names : list str) (t : nat) :
  commutes k (List.map (Nat.add k)) (find_all names t) (find_all names (k + t)).
Proof.
  intros soup. rewrite !find_all_run, shift_contents_in, shift_matching.
  reflexivity.
Qed.

Lemma commutes_find_all_direct (name : str) (t : nat) :
  commutes k (List.map (Nat.add k))
    (find_all_direct name t) (find_all_direct name (k + t)).
Proof.
  intros soup. rewrite !find_all_direct_run, shift_contents_in, shift_direct.
  reflexivity.
Qed.

Lemma commutes_find (name : str) (t : nat) :
  commutes k (option_map (Nat.add k)) (find name t) (find name (k + t)).
Proof.
  unfold find. eapply commutes_bind; [apply commutes_find_all|].
  intros l soup. unfold ret. now destruct l.
Qed.

Lemma commutes_get_text_strip (t : nat) :
  commutes k (fun s => s) (get_text_strip t) (get_text_strip (k + t)).
Proof.
  intros soup. rewrite !get_text_strip_run, shift_contents_in.
  unfold stripped_text_of. now rewrite shift_all_strings.
Qed.

Lemma commutes_get_text (t : nat) :
  commutes k (fun s => s) (get_text t) (get_text (k + t)).
Proof.
  intros soup. rewrite !get_text_run, shift_contents_in.
  unfold text_of. now rewrite shift_all_strings.
Qed.

Lemma commutes_get (key default : str) (t : nat) :
  commutes k (fun s => s) (get key default t) (get key default (k + t)).
Proof.
  intros soup. unfold get. rewrite shift_lookup.
  destruct (lookup t soup) as [[s|s|i nm at_ cs]|]; reflexivity.
Qed.

Lemma commutes_decompose (t : nat) :
  commutes k (fun u => u) (decompose t) (decompose (k + t)).
Proof.
  intros soup. unfold decompose.
  rewrite (@shift_prune (has_id t) (has_id (k + t))); [reflexivity|].
  apply shift_has_id.
Qed.

Lemma commutes_decompose_all (names : list str) (t : nat) :
  commutes k (fun u => u) (decompose_all names t) (decompose_all names (k + t)).
Proof.
  unfold decompose_all. eapply commutes_bind; [apply commutes_find_all|].
  intros tags.
  apply (@commutes_for_each nat unit (Nat.add k) (fun u => u)
           (fun tag _ => decompose tag) (fun tag _ => decompose tag)).
  intros tag u. apply commutes_decompose.
Qed.

(** The text of the first tag of a name, or a default. *)
Lemma commutes_text_or (name default : str) (t : nat) (B : Type)
    (shb : B -> B) (f f' : str -> M B) :
  (forall txt, commutes k shb (f txt) (f' txt)) ->
  commutes k shb
    (elem <- find name t ;;
     txt <- match elem with
            | Some elem => get_text_strip elem
            | None => ret default
            end ;;
     f txt)
    (elem <- find name (k + t) ;;
     txt <- match elem with
            | Some elem => get_text_strip elem
            | None => ret default
            end ;;
     f' txt).
Proof.
  intros Hf. eapply commutes_bind; [apply commutes_find|].
  intros [elem|]; cbn [option_map].
  - eapply commutes_bind; [apply commutes_get_text_strip | exact Hf].
  - eapply commutes_bind; [apply (commutes_ret (fun s => s)) | exact Hf].
Qed.

End Shift.

Section ShiftProgram.

Variable k : nat.

Lemma commutes_parse_cl (cl : nat) (acc : list str * str) :
  commutes k (fun a => a) (parse_cl cl acc) (parse_cl (k + cl) acc).
Proof.
  unfold parse_cl. destruct acc as [collocations chn_text].
  apply commutes_text_or. intros txt.
  eapply commutes_bind; [apply commutes_decompose_all|]. intros _.
  eapply commutes_bind; [apply commutes_get_text_strip|]. intros cl_text.
  apply (commutes_ret k (fun a => a)).
Qed.

Lemma commutes_parse_x_blk (x_blk : nat) (examples : list Example.t) :
  commutes k (fun a => a)
    (parse_x_blk x_blk examples) (parse_x_blk (k + x_blk) examples).
Proof.
  unfold parse_x_blk. eapply commutes_bind; [apply commutes_find|].
  intros [x_elem|]; cbn [option_map].
  - apply commutes_text_or. intros ex_cn.
    eapply commutes_bind; [apply commutes_decompose_all|]. intros _.
    eapply commutes_bind; [apply commutes_get_text_strip|]. intros ex_en.
    apply (commutes_ret k (fun a => a)).
  - apply (commutes_ret k (fun a => a)).
Qed.

Lemma commutes_parse_sb_g (sb_g : nat) :
  commutes k (fun a => a) (_parse_sb_g sb_g) (_parse_sb_g (k + sb_g)).
Proof.
  unfold _parse_sb_g, collocations_of, examples_of.
  eapply commutes_bind.
  - eapply commutes_bind; [apply commutes_find_all_direct|]. intros cls.
    apply (@commutes_for_each k nat (list str * str) (Nat.add k) (fun a => a)
             parse_cl parse_cl).
    intros cl acc. apply commutes_parse_cl.
  - intros [collocations chn_text]. destruct collocations as [|w ws].
    + apply (commutes_ret k (fun a => a)).
    + eapply commutes_bind.
      * eapply commutes_bind; [apply commutes_find_all_direct|]. intros x_blks.
        apply (@commutes_for_each k nat (list Example.t) (Nat.add k)
                 (fun a => a) parse_x_blk parse_x_blk).
        intros x_blk acc. apply commutes_parse_x_blk.
      * intros examples. apply (commutes_ret k (fun a => a)).
Qed.

Lemma commutes_parse_item (sb_g : nat) (items : list Item.t) :
  commutes k (fun a => a) (parse_item sb_g items) (parse_item (k + sb_g) items).
Proof.
  unfold parse_item. eapply commutes_bind; [apply commutes_parse_sb_g|].
  intros item. apply (commutes_ret k (fun a => a)).
Qed.

Lemma commutes_parse_blk (blk : nat) (groups : list Group.t) :
  commutes k (fun a => a) (parse_blk blk groups) (parse_blk (k + blk) groups).
Proof.
  unfold parse_blk. eapply commutes_bind; [apply commutes_get|].
  intros sl_type. cbv beta.
  destruct (negb (existsb (Str.eqb sl_type) KEEP_SL_TYPES)).
  - apply (commutes_ret k (fun a => a)).
  - eapply commutes_bind; [apply commutes_find|].
    intros head_elem.
    eapply commutes_bind.
    + destruct head_elem as [head_elem|]; cbn [option_map];
        [apply commutes_get_text | apply (commutes_ret k (fun a => a))].
    + intros title. cbv zeta.
      eapply commutes_bind; [apply commutes_find_all|]. intros sb_gs.
      eapply commutes_bind.
      * apply (@commutes_for_each k nat (list Item.t) (Nat.add k)
                 (fun a => a) parse_item parse_item).
        intros sb_g acc. apply commutes_parse_item.
      * intros items. apply (commutes_ret k (fun a => a)).
Qed.

Lemma commutes_parse_def (def_elem : nat) :
  commutes k (fun a => a) (parse_def def_elem) (parse_def (k + def_elem)).
Proof.
  unfold parse_def. apply commutes_text_or. intros def_cn.
  eapply commutes_bind; [apply commutes_decompose_all|]. intros _.
  eapply commutes_bind; [apply commutes_decompose_all|]. intros _.
  eapply commutes_bind; [apply commutes_get_text_strip|]. intros def_en.
  apply (commutes_ret k (fun a => a)).
Qed.

Lemma commutes_text_of_first (name : str) (t : nat) :
  commutes k (fun a => a) (text_of_first name t) (text_of_first name (k + t)).
Proof.
  unfold text_of_first. eapply commutes_bind; [apply commutes_find|].
  intros [elem|]; cbn [option_map];
    [apply commutes_get_text_strip | apply (commutes_ret k (fun a => a))].
Qed.

Lemma commutes_entry_headword (word : str) (entry : nat) :
  commutes k (fun a => a)
    (entry_headword word entry) (entry_headword word (k + entry)).
Proof.
  unfold entry_headword. eapply commutes_bind; [apply commutes_find|].
  intros [elem|]; cbn [option_map];
    [apply commutes_get_text_strip | apply (commutes_ret k (fun a => a))].
Qed.

Lemma commutes_entry_head (entry : nat) :
  commutes k (fun a => a) (entry_head entry) (entry_head (k + entry)).
Proof.
  unfold entry_head. eapply commutes_bind; [apply commutes_find|].
  intros [head|]; cbn [option_map].
  - eapply commutes_bind; [apply commutes_text_of_first|]. intros pos.
    eapply commutes_bind; [apply commutes_text_of_first|]. intros sense_num.
    eapply commutes_bind; [apply commutes_find|]. intros def_elem.
    eapply commutes_bind.
    + destruct def_elem as [def_elem|]; cbn [option_map];
        [apply commutes_parse_def | apply (commutes_ret k (fun a => a))].
    + intros defs. apply (commutes_ret k (fun a => a)).
  - apply (commutes_ret k (fun a => a)).
Qed.

Lemma commutes_entry_groups (entry : nat) :
  commutes k (fun a => a) (entry_groups entry) (entry_groups (k + entry)).
Proof.
  unfold entry_groups. eapply commutes_bind; [apply commutes_find_all|].
  intros blks.
  apply (@commutes_for_each k nat (list Group.t) (Nat.add k) (fun a => a)
           parse_blk parse_blk).
  intros blk acc. apply commutes_parse_blk.
Qed.

Lemma commutes_parse_entry (word : str) (entry : nat) :
  commutes k (fun a => a) (parse_entry word entry) (parse_entry word (k + entry)).
Proof.
  unfold parse_entry.
  eapply commutes_bind; [apply commutes_entry_headword|]. intros headword.
  eapply commutes_bind; [apply commutes_entry_head|].
  intros [[[pos sense_num] def_en] def_cn].
  eapply commutes_bind; [apply commutes_entry_groups|].
  intros [|g groups]; apply (commutes_ret k (fun a => a)).
Qed.

Lemma commutes_parse_soup (root : nat) (word : str) :
  commutes k (fun a => a) (parse_soup root word) (parse_soup (k + root) word).
Proof.
  unfold parse_soup. eapply commutes_bind; [apply commutes_find_all|].
  intros entries.
  apply (@commutes_for_each k nat (list Card.t) (Nat.add k) (fun a => a)
           (add_card word) (add_card word)).
  intros entry acc. unfold add_card.
  eapply commutes_bind; [apply commutes_parse_entry|].
  intros card. apply (commutes_ret k (fun a => a)).
Qed.

(** The objects of a second parse are those of the first, moved. *)
Lemma alloc_shift (m : markup) :
  forall n, alloc m (k + n)
            = (shift_node k (fst (alloc m n)), k + snd (alloc m n)).
Proof.
  apply (markup_forest_ind
           (fun m => forall n,
                alloc m (k + n)
                = (shift_node k (fst (alloc m n)), k + snd (alloc m n)))
           (fun ms => forall n,
                alloc_list ms (k + n)
                = (List.map (shift_node k) (fst (alloc_list ms n)),
                   k + snd (alloc_list ms n)))).
  - reflexivity.
  - reflexivity.
  - intros nm at_ ms IH n. rewrite !alloc_tag. cbn [fst snd shift_node].
    replace (S (k + n)) with (k + S n) by lia. now rewrite IH.
  - reflexivity.
  - intros m0 ms IHm IHms n. rewrite !alloc_list_cons, IHm. cbn [fst snd].
    now rewrite IHms.
Qed.

Lemma parse_from_shift (first : nat) (html_content : list markup) (word : str) :
  parse_collocation_html_from (k + first) html_content word
  = parse_collocation_html_from first html_content word.
Proof.
  unfold parse_collocation_html_from, BeautifulSoup_from.
  destruct html_content as [|m ms]; [reflexivity|].
  rewrite alloc_shift. cbn [fst].
  rewrite (commutes_parse_soup first word).
  destruct (parse_soup first word _) as [[cards soup']|]; reflexivity.
Qed.

End ShiftProgram.

(** C9. Two calls on the same document and word return the same cards,
    field by field: the result does not depend on which objects the call
    builds for the document, nor on anything but the two arguments. *)
Theorem parse_is_deterministic
    (first first' : nat) (html_content : list markup) (word : str) :
  parse_collocation_html_from first html_content word
  = parse_collocation_html_from first' html_content word.
Proof.
  rewrite <- (Nat.add_0_r first), <- (Nat.add_0_r first').
  now rewrite !parse_from_shift.
Qed.

(** * The steps around the extractor: what they keep *)

(** ** The removal of duplicates *)

Lemma existsb_eqb_In (w : str) (l : list str) :
  existsb (Str.eqb w) l = true <-> In w l.
Proof.
  rewrite existsb_exists. split.
  - intros (x & Hx & Heq). apply eqb_eq in Heq. now subst.
  - intros H. exists w. split; [assumption | now apply eqb_eq].
Qed.

Lemma unique_from_members (word_list seen : list str) (w : str) :
  In w (unique_from seen word_list) <-> In w word_list /\ ~ In w seen.
Proof.
  revert seen. induction word_list as [|x rest IH]; intros seen; simpl.
  - tauto.
  - destruct (existsb (Str.eqb x) seen) eqn:E.
    + apply existsb_eqb_In in E. rewrite IH. split.
      * tauto.
      * intros [[->|H] Hn]; tauto.
    + assert (Hx : ~ In x seen).
      { intros H. apply existsb_eqb_In in H. congruence. }
      simpl. rewrite IH. simpl. split.
      * intros [->|[H Hn]]; [tauto|]. split; [tauto|]. tauto.
      * intros [[->|H] Hn]; [tauto|].
        destruct (list_eq_dec N.eq_dec x w) as [->|Hne]; [tauto|]. right.
        split; [assumption|]. intros [Heq|Hs]; [congruence | tauto].
Qed.

Lemma unique_from_NoDup (word_list seen : list str) :
  NoDup (unique_from seen word_list).
Proof.
  revert seen. induction word_list as [|x rest IH]; intros seen; simpl.
  - constructor.
  - destruct (existsb (Str.eqb x) seen); [apply IH|].
    constructor; [|apply IH].
    intros H. apply unique_from_members in H. simpl in H. tauto.
Qed.

(** Only what is in [seen] matters, not how it is listed. *)
Lemma unique_from_ext (word_list seen seen' : list str) :
  (forall w, In w seen <-> In w seen') ->
  unique_from seen word_list = unique_from seen' word_list.
Proof.
  revert seen seen'. induction word_list as [|x rest IH]; intros seen seen' H;
    simpl; [reflexivity|].
  assert (E : existsb (Str.eqb x) seen = existsb (Str.eqb x) seen').
  { destruct (existsb (Str.eqb x) seen) eqn:E1;
      destruct (existsb (Str.eqb x) seen') eqn:E2; try reflexivity.
    - apply existsb_eqb_In, H, existsb_eqb_In in E1. congruence.
    - apply existsb_eqb_In, H, existsb_eqb_In in E2. congruence. }
  rewrite E. destruct (existsb (Str.eqb x) seen').
  - now apply IH.
  - f_equal. apply IH. intros w. simpl. rewrite H. tauto.
Qed.

Lemma unique_from_more_seen (word_list s seen : list str) :
  unique_from (s ++ seen) word_list
  = filter (fun w => negb (existsb (Str.eqb w) s)) (unique_from seen word_list).
Proof.
  revert s seen. induction word_list as [|x rest IH]; intros s seen; simpl;
    [reflexivity|].
  rewrite existsb_app.
  destruct (existsb (Str.eqb x) seen) eqn:Eseen.
  - rewrite orb_true_r. apply IH.
  - rewrite orb_false_r. simpl.
    destruct (existsb (Str.eqb x) s) eqn:Es; simpl.
    + rewrite <- IH. apply unique_from_ext. intros w.
      rewrite !in_app_iff. simpl. apply existsb_eqb_In in Es.
      split; [tauto|]. intros [H|[->|H]]; tauto.
    + f_equal. rewrite <- IH. apply unique_from_ext. intros w.
      simpl. rewrite !in_app_iff. simpl. tauto.
Qed.

Lemma unique_from_app (a b seen : list str) :
  unique_from seen (a ++ b) = unique_from seen a ++ unique_from (a ++ seen) b.
Proof.
  revert seen. induction a as [|x a IH]; intros seen; simpl; [reflexivity|].
  destruct (existsb (Str.eqb x) seen) eqn:E.
  - rewrite IH. f_equal. apply unique_from_ext. intros w.
    apply existsb_eqb_In in E. simpl. rewrite !in_app_iff.
    intuition (subst; auto).
  - simpl. f_equal. rewrite IH. f_equal. apply unique_from_ext. intros w.
    simpl. rewrite !in_app_iff. simpl. tauto.
Qed.

(** X1. The list that the main loop runs over has every word of the word
    list once, at the place of its first occurrence: no word twice, the
    same words, and the result for a list in two parts is the result for
    the first part followed by what the second part adds to it. *)
Theorem unique_words_keeps_first_occurrences (a b : list str) :
  NoDup (unique_words (a ++ b))
  /\ (forall w, In w (unique_words (a ++ b)) <-> In w (a ++ b))
  /\ unique_words (a ++ b)
     = unique_words a
       ++ filter (fun w => negb (existsb (Str.eqb w) a)) (unique_words b)
  /\ unique_words (unique_words (a ++ b)) = unique_words (a ++ b).
Proof.
  unfold unique_words. split; [apply unique_from_NoDup|]. split; [|split].
  - intros w. rewrite unique_from_members. simpl. tauto.
  - rewrite unique_from_app. f_equal.
    rewrite <- unique_from_more_seen. reflexivity.
  - generalize (unique_from_NoDup (a ++ b) []).
    generalize (unique_from [] (a ++ b)). intros l Hnd.
    assert (H : forall seen, (forall w, In w l -> ~ In w seen) ->
                             unique_from seen l = l).
    { induction Hnd as [|x l Hx Hnd IH]; intros seen Hs; simpl; [reflexivity|].
      destruct (existsb (Str.eqb x) seen) eqn:E.
      - apply existsb_eqb_In in E. exfalso. apply (Hs x); simpl; auto.
      - f_equal. apply IH. intros w Hw [<-|Hin]; [tauto|].
        apply (Hs w); simpl; auto. }
    apply H. intros w _ [].
Qed.

(** ** The cleaning of the word list *)

Lemma In_lstrip (c : N) (s : str) : In c (lstrip s) -> In c s.
Proof.
  induction s as [|x s IH]; simpl; [tauto|].
  destruct (isspace x); simpl; tauto.
Qed.

Lemma In_strip (c : N) (s : str) : In c (strip s) -> In c s.
Proof.
  unfold strip, rstrip. intros H.
  apply In_lstrip. apply in_rev. apply In_lstrip. now apply in_rev in H.
Qed.

Lemma In_sub_spaces (c : N) (b : bool) (s : str) :
  In c (sub_spaces b s) -> c = 32%N \/ (In c s /\ isspace c = false).
Proof.
  revert b. induction s as [|x s IH]; intros b; simpl; [tauto|].
  destruct (isspace x) eqn:Hx.
  - destruct b; simpl.
    + intros H. destruct (IH _ H) as [->|[H1 H2]]; auto.
    + intros [<-|H]; [auto|]. destruct (IH _ H) as [->|[H1 H2]]; auto.
  - simpl. intros [<-|H]; [auto|].
    destruct (IH _ H) as [->|[H1 H2]]; auto.
Qed.

Lemma normal_strip (s : str) : normal_spaces s = true -> strip s = s.
Proof.
  unfold normal_spaces. intros H. apply andb_true_iff in H as [H1 H2].
  apply negb_true_iff in H2.
  assert (Hl : lstrip s = s).
  { destruct s as [|c s]; [reflexivity|]. simpl in *.
    destruct (isspace c); [|reflexivity].
    rewrite andb_false_r in H1. discriminate. }
  unfold strip. rewrite Hl. clear Hl H1.
  destruct s as [|c s] using rev_ind; [reflexivity|].
  rewrite last_last in H2. now rewrite rstrip_snoc, H2.
Qed.

Lemma single_sub_spaces (b : bool) (s : str) :
  single_spaced_from b s = true -> sub_spaces b s = s.
Proof.
  revert b. induction s as [|c s IH]; intros b; [reflexivity|].
  cbn [single_spaced_from sub_spaces]. destruct (isspace c).
  - intros H. apply andb_true_iff in H as [H H2].
    apply andb_true_iff in H as [H0 H1].
    apply N.eqb_eq in H0. apply negb_true_iff in H1. subst.
    now rewrite IH.
  - intros H. now rewrite IH.
Qed.

Lemma filter_all (A : Type) (p : A -> bool) (l : list A) :
  forallb p l = true -> filter p l = l.
Proof.
  induction l as [|x l IH]; simpl; [reflexivity|].
  intros H. apply andb_true_iff in H as [H1 H2]. now rewrite H1, IH.
Qed.

Lemma lower_ascii_fixed (s : str) :
  forallb (fun c => negb (is_ascii_upper c)) s = true -> lower_ascii s = s.
Proof.
  induction s as [|c s IH]; simpl; [reflexivity|].
  intros H. apply andb_true_iff in H as [H1 H2].
  apply negb_true_iff in H1. unfold lower_ascii in *. simpl.
  now rewrite H1, IH.
Qed.

Lemma lower_ascii_never_upper (s : str) (c : N) :
  In c (lower_ascii s) -> is_ascii_upper c = false.
Proof.
  unfold lower_ascii. rewrite in_map_iff. intros (x & <- & _).
  destruct (is_ascii_upper x) eqn:E; [|assumption].
  unfold is_ascii_upper in *. apply andb_true_iff in E as [E1 E2].
  apply N.leb_le in E1, E2. apply andb_false_iff. right.
  apply N.leb_gt. lia.
Qed.

Lemma lower_word_char_facts (c : N) :
  lower_word_char c = true ->
  is_ascii c = true /\ is_ascii_upper c = false
  /\ (is_ascii_letter c || isspace c || (c =? 45)%N) = true.
Proof.
  unfold lower_word_char, is_ascii, is_ascii_letter, is_ascii_upper,
    is_ascii_lower.
  intros H.
  rewrite !orb_true_iff, andb_true_iff, !N.leb_le, !N.eqb_eq in H.
  split; [apply N.ltb_lt; lia|]. split.
  - apply andb_false_iff. rewrite !N.leb_gt. lia.
  - destruct H as [[[H1 H2]| ->]| ->]; [|reflexivity|reflexivity].
    apply N.leb_le in H1, H2. rewrite H1, H2.
    now rewrite orb_true_r.
Qed.

Lemma flat_map_fixed (A : Type) (f : A -> list A) (l : list A) :
  (forall x y, In y (f x) -> f y = [y]) ->
  flat_map f (flat_map f l) = flat_map f l.
Proof.
  intros H. induction l as [|x l IH]; simpl; [reflexivity|].
  rewrite flat_map_app, IH. f_equal.
  assert (G : forall m, (forall y, In y m -> f y = [y]) -> flat_map f m = m).
  { induction m as [|y m IHm]; simpl; intros Hm; [reflexivity|].
    rewrite Hm by auto. simpl. f_equal. apply IHm. auto. }
  apply G. intros y. apply H.
Qed.

Section CleanedWords.

Variable lower : str -> str.

Lemma clean_word_chars (word : str) (c : N) :
  In c (clean_word lower word) ->
  c = 32%N
  \/ (In c (lower (strip word))
      /\ (is_ascii_letter c || (c =? 45)%N) = true).
Proof.
  unfold clean_word. intros H. apply In_strip, In_sub_spaces in H.
  destruct H as [->|[H Hs]]; [auto|]. right.
  apply filter_In in H as [H1 H2]. split; [assumption|].
  rewrite Hs, orb_false_r in H2. assumption.
Qed.

Lemma get_words_from_list_In (word_list : list str) (w : str) :
  In w (get_words_from_list lower word_list) <->
  exists word, In word word_list /\ w = clean_word lower word
               /\ 2 <= length w.
Proof.
  unfold get_words_from_list. rewrite in_flat_map. split.
  - intros (word & Hin & H). exists word. split; [assumption|].
    cbv zeta in H.
    destruct (nonempty (clean_word lower word)
              && (1 <? length (clean_word lower word))) eqn:E; [|destruct H].
    destruct H as [<-|[]]. split; [reflexivity|].
    apply andb_true_iff in E as [_ E]. apply Nat.ltb_lt in E. lia.
  - intros (word & Hin & -> & Hlen). exists word. split; [assumption|].
    cbv zeta.
    assert (E : nonempty (clean_word lower word)
                && (1 <? length (clean_word lower word)) = true).
    { apply andb_true_iff. split.
      - destruct (clean_word lower word); [simpl in Hlen; lia | reflexivity].
      - apply Nat.ltb_lt. lia. }
    rewrite E. simpl. auto.
Qed.

(** X2. Whatever words are handed in, every word that
    [get_words_from_list] returns has at least two characters, holds
    nothing but ASCII letters, spaces and hyphens, and has its white space
    normalised (single spaces inside, none at either end); no more words
    come out than went in. *)
Theorem get_words_from_list_gives_clean_words (word_list : list str) :
  Forall (fun w => 2 <= length w
                   /\ forallb word_char w = true
                   /\ normal_spaces w = true)
         (get_words_from_list lower word_list)
  /\ length (get_words_from_list lower word_list) <= length word_list.
Proof.
  split.
  - apply Forall_forall. intros w Hw.
    apply get_words_from_list_In in Hw as (word & _ & -> & Hlen).
    split; [assumption|]. split.
    + apply forallb_forall. intros c Hc.
      apply clean_word_chars in Hc as [->|[_ Hc]]; [reflexivity|].
      unfold word_char. apply orb_true_iff in Hc as [Hc|Hc]; rewrite Hc;
        [reflexivity | apply orb_true_r].
    + apply strip_sub_spaces_normal.
  - unfold get_words_from_list.
    induction word_list as [|x l IH]; simpl; [lia|].
    rewrite length_app.
    destruct (nonempty (clean_word lower x) && (1 <? length (clean_word lower x)));
      simpl; lia.
Qed.

Hypothesis lower_on_ascii :
  forall s, forallb is_ascii s = true -> lower s = lower_ascii s.
Hypothesis lower_never_upper :
  forall s c, In c (lower s) -> is_ascii_upper c = false.

Lemma clean_word_lower_chars (word : str) :
  forallb lower_word_char (clean_word lower word) = true.
Proof.
  apply forallb_forall. intros c Hc.
  apply clean_word_chars in Hc as [->|[Hin Hc]]; [reflexivity|].
  apply lower_never_upper in Hin. unfold lower_word_char.
  unfold is_ascii_letter in Hc. rewrite Hin in Hc. simpl in Hc.
  apply orb_true_iff in Hc as [Hc|Hc]; rewrite Hc;
    [reflexivity | apply orb_true_r].
Qed.

Lemma clean_word_fixed (w : str) :
  forallb lower_word_char w = true -> normal_spaces w = true ->
  clean_word lower w = w.
Proof.
  intros Hc Hn. unfold clean_word. rewrite (normal_strip _ Hn).
  assert (Ha : forallb is_ascii w = true).
  { apply forallb_forall. intros c Hin.
    rewrite forallb_forall in Hc. now apply lower_word_char_facts, Hc. }
  rewrite (lower_on_ascii _ Ha).
  rewrite lower_ascii_fixed.
  2:{ apply forallb_forall. intros c Hin. rewrite forallb_forall in Hc.
      apply Hc, lower_word_char_facts in Hin as (_ & -> & _). reflexivity. }
  rewrite filter_all.
  2:{ apply forallb_forall. intros c Hin. rewrite forallb_forall in Hc.
      now apply Hc, lower_word_char_facts in Hin as (_ & _ & ->). }
  rewrite single_sub_spaces; [now apply normal_strip|].
  unfold normal_spaces in Hn. apply andb_true_iff in Hn as [Hn _].
  eapply single_spaced_weaken; eauto.
Qed.

(** X3. With a [lower] that is the ASCII one on ASCII text and never
    yields a capital ASCII letter (as Python's), the words returned hold
    only the letters a to z, spaces and hyphens, and cleaning them again
    changes nothing: the function is idempotent. *)
Theorem get_words_from_list_is_idempotent (word_list : list str) :
  Forall (fun w => forallb lower_word_char w = true)
         (get_words_from_list lower word_list)
  /\ get_words_from_list lower (get_words_from_list lower word_list)
     = get_words_from_list lower word_list.
Proof.
  split.
  - apply Forall_forall. intros w Hw.
    apply get_words_from_list_In in Hw as (word & _ & -> & _).
    apply clean_word_lower_chars.
  - unfold get_words_from_list. apply flat_map_fixed.
    intros x y Hy. cbv zeta in *.
    destruct (nonempty (clean_word lower x)
              && (1 <? length (clean_word lower x))) eqn:E; [|destruct Hy].
    destruct Hy as [<-|[]].
    rewrite clean_word_fixed;
      [now rewrite E | apply clean_word_lower_chars
       | apply strip_sub_spaces_normal].
Qed.

End CleanedWords.

Lemma get_words_from_list_is_idempotent_witness :
  get_words_from_list lower_ascii
    (get_words_from_list lower_ascii
       [lit "  Pitch!  "; lit "a"; lit "Well-Known   fact"])
  = get_words_from_list lower_ascii
      [lit "  Pitch!  "; lit "a"; lit "Well-Known   fact"].
Proof.
  exact (proj2 (get_words_from_list_is_idempotent lower_ascii
                  (fun s _ => eq_refl) lower_ascii_never_upper
                  [lit "  Pitch!  "; lit "a"; lit "Well-Known   fact"])).
Defined.

(** ** The headwords of the dictionary index *)

Lemma str_ltb_irrefl (a : str) : str_ltb a a = false.
Proof.
  induction a as [|x a IH]; simpl; [reflexivity|].
  now rewrite N.ltb_irrefl, N.eqb_refl, IH.
Qed.

Lemma str_ltb_trans (a b c : str) :
  str_ltb a b = true -> str_ltb b c = true -> str_ltb a c = true.
Proof.
  revert b c. induction a as [|x a IH]; intros [|y b] [|z c]; simpl;
    try discriminate; try reflexivity.
  rewrite !orb_true_iff, !andb_true_iff, !N.ltb_lt, !N.eqb_eq.
  intros [H1|[H1 H1']] [H2|[H2 H2']].
  - left. lia.
  - left. lia.
  - left. lia.
  - right. split; [lia|]. eapply IH; eauto.
Qed.

Lemma str_ltb_total (a b : str) :
  str_ltb a b = false -> Str.eqb a b = false -> str_ltb b a = true.
Proof.
  intros Hlt Hne.
  assert (Hab : a <> b).
  { intros ->. rewrite (proj2 (eqb_eq b b) eq_refl) in Hne. discriminate. }
  clear Hne. revert b Hlt Hab.
  induction a as [|x a IH]; intros [|y b]; simpl; intros Hlt Hab;
    try congruence; try reflexivity.
  apply orb_false_iff in Hlt as [H1 H2]. apply N.ltb_ge in H1.
  destruct (N.eqb_spec x y) as [->|Hxy].
  - simpl in H2. rewrite N.ltb_irrefl, N.eqb_refl. simpl.
    apply IH; [assumption | congruence].
  - apply orb_true_iff. left. apply N.ltb_lt. lia.
Qed.

Lemma insert_sorted_In (w x : str) (l : list str) :
  In x (insert_sorted w l) <-> x = w \/ In x l.
Proof.
  induction l as [|y l IH]; simpl; [intuition|].
  destruct (str_ltb w y); [simpl; intuition|].
  destruct (Str.eqb w y) eqn:E.
  - apply eqb_eq in E. subst. simpl. intuition.
  - simpl. rewrite IH. intuition.
Qed.

Lemma sorted_set_In (x : str) (l : list str) : In x (sorted_set l) <-> In x l.
Proof.
  induction l as [|y l IH]; simpl; [tauto|].
  rewrite insert_sorted_In, IH. intuition.
Qed.

Lemma insert_sorted_increasing (w : str) (l : list str) :
  increasing l = true -> increasing (insert_sorted w l) = true.
Proof.
  induction l as [|x r IH]; [reflexivity|]. intros Hl.
  cbn [insert_sorted]. destruct (str_ltb w x) eqn:Hwx.
  - cbn [increasing]. now rewrite Hwx.
  - destruct (Str.eqb w x) eqn:Heq; [assumption|].
    pose proof (str_ltb_total _ _ Hwx Heq) as Hxw.
    destruct r as [|y r'].
    + simpl. now rewrite Hxw.
    + cbn [increasing] in Hl. apply andb_true_iff in Hl as [Hxy Hr].
      specialize (IH Hr). cbn [insert_sorted] in *.
      destruct (str_ltb w y) eqn:Hwy.
      * cbn [increasing]. rewrite Hxw, Hwy. assumption.
      * destruct (Str.eqb w y).
        -- cbn [increasing]. now rewrite Hxy.
        -- change (str_ltb x y && increasing (y :: insert_sorted w r') = true).
           now rewrite Hxy.
Qed.

Lemma sorted_set_increasing (l : list str) : increasing (sorted_set l) = true.
Proof.
  induction l as [|x l IH]; [reflexivity|].
  simpl. now apply insert_sorted_increasing.
Qed.

Lemma increasing_above (x : str) (l : list str) :
  increasing (x :: l) = true ->
  increasing l = true /\ forall y, In y l -> str_ltb x y = true.
Proof.
  revert x. induction l as [|z l IH]; intros x H.
  - split; [reflexivity | intros y []].
  - cbn [increasing] in H. apply andb_true_iff in H as [Hxz Hl].
    split; [assumption|]. intros y [<-|Hy]; [assumption|].
    eapply str_ltb_trans; [eassumption|]. now apply (IH z).
Qed.

Lemma increasing_NoDup (l : list str) : increasing l = true -> NoDup l.
Proof.
  induction l as [|x l IH]; intros H; [constructor|].
  apply increasing_above in H as [Hl Hx]. constructor; [|auto].
  intros Hin. apply Hx in Hin. rewrite str_ltb_irrefl in Hin. discriminate.
Qed.

(** A list already in increasing order is what [sorted(set(...))] gives
    for it. *)
Lemma sorted_set_fixed (l : list str) :
  increasing l = true -> sorted_set l = l.
Proof.
  induction l as [|x l IH]; intros H; [reflexivity|].
  simpl. apply increasing_above in H as [Hl Hx]. rewrite (IH Hl).
  destruct l as [|y l]; [reflexivity|]. simpl.
  now rewrite (Hx y) by (simpl; auto).
Qed.

Lemma rstrip_last (s : str) : isspace (last (rstrip s) 0%N) = false.
Proof.
  induction s as [|c s IH] using rev_ind; [reflexivity|].
  rewrite rstrip_snoc. destruct (isspace c) eqn:Hc; [assumption|].
  now rewrite last_last.
Qed.

Lemma word_tail_lower_ascii (b : bool) (s : str) :
  word_tail b (lower_ascii s) = word_tail b s.
Proof.
  revert b. induction s as [|c s IH]; intros b; [reflexivity|].
  change (lower_ascii (c :: s))
    with ((if is_ascii_upper c then (c + 32)%N else c) :: lower_ascii s).
  cbn [word_tail]. destruct (is_ascii_upper c) eqn:Hu.
  - assert (H1 : is_ascii_letter c = true).
    { unfold is_ascii_letter. now rewrite Hu. }
    assert (H2 : is_ascii_letter (c + 32) = true).
    { unfold is_ascii_letter, is_ascii_upper, is_ascii_lower in *.
      apply andb_true_iff in Hu as [Ha Hb]. apply N.leb_le in Ha, Hb.
      apply orb_true_iff. right. apply andb_true_iff.
      split; apply N.leb_le; lia. }
    rewrite H1, H2. apply IH.
  - rewrite !IH. destruct (is_ascii_letter c); [reflexivity|].
    destruct (c =? 45)%N; [reflexivity|].
    destruct (c =? 10)%N; [|reflexivity].
    f_equal. f_equal. unfold lower_ascii. now destruct s.
Qed.

(** A string the pattern accepts holds letters and hyphens only, but for
    a newline that may end it. *)
Lemma word_tail_chars (b : bool) (s : str) :
  word_tail b s = true ->
  forallb (fun c => is_ascii_letter c || (c =? 45)%N) s = true
  \/ last s 0%N = 10%N.
Proof.
  revert b. induction s as [|c s IH]; intros b; [now left|].
  cbn [word_tail forallb]. destruct (is_ascii_letter c) eqn:Hl.
  - intros H. destruct (IH _ H) as [H1|H1]; [now left|]. right.
    destruct s; [discriminate|assumption].
  - destruct (N.eqb_spec c 45) as [->|H45].
    + intros H. apply andb_true_iff in H as [_ H].
      destruct (IH _ H) as [H1|H1]; [now left|]. right.
      destruct s; [discriminate|assumption].
    + destruct (N.eqb_spec c 10) as [->|H10]; [|discriminate].
      intros H. apply andb_true_iff in H as [_ H].
      destruct s; [now right|discriminate].
Qed.

Lemma is_dictionary_word_stripped (k : str) :
  is_dictionary_word (strip k) = true ->
  forallb (fun c => is_ascii_letter c || (c =? 45)%N) (strip k) = true.
Proof.
  intros H. apply word_tail_chars in H as [H|H]; [assumption|].
  pose proof (rstrip_last (lstrip k)) as Hs. fold (strip k) in Hs.
  rewrite H in Hs. discriminate.
Qed.

Lemma no_space_strip (s : str) :
  forallb (fun c => negb (isspace c)) s = true -> strip s = s.
Proof.
  intros H. rewrite forallb_forall in H.
  assert (Hl : lstrip s = s).
  { destruct s as [|c s]; [reflexivity|]. simpl.
    specialize (H c (or_introl eq_refl)). apply negb_true_iff in H.
    now rewrite H. }
  unfold strip. rewrite Hl.
  destruct s as [|c s _] using rev_ind; [reflexivity|].
  rewrite rstrip_snoc.
  assert (Hc : isspace c = false).
  { apply negb_true_iff, H, in_or_app. right. simpl. auto. }
  now rewrite Hc.
Qed.

Section DictionaryWords.

Variable lower : str -> str.

Lemma dictionary_words_In (keys : list str) (w : str) :
  In w (get_all_dictionary_words lower (Some keys)) <->
  exists k, In k keys /\ is_dictionary_word (strip k) = true
            /\ w = lower (strip k).
Proof.
  unfold get_all_dictionary_words. rewrite sorted_set_In, in_flat_map.
  split.
  - intros (k & Hk & H). exists k. split; [assumption|]. cbv zeta in H.
    destruct (nonempty (strip k) && is_dictionary_word (strip k)) eqn:E;
      [|destruct H].
    destruct H as [<-|[]]. apply andb_true_iff in E as [_ E]. auto.
  - intros (k & Hk & Hd & ->). exists k. split; [assumption|]. cbv zeta.
    assert (Hn : nonempty (strip k) = true).
    { destruct (strip k); [discriminate|reflexivity]. }
    rewrite Hn, Hd. simpl. auto.
Qed.

(** X4. The headwords that [get_all_dictionary_words] returns are in
    strictly increasing order, so none comes twice, and they are exactly
    the lower-cased forms of the keys that, stripped, match the pattern of
    letter groups joined by hyphens. *)
Theorem dictionary_words_are_sorted_and_distinct (keys : list str) :
  increasing (get_all_dictionary_words lower (Some keys)) = true
  /\ NoDup (get_all_dictionary_words lower (Some keys))
  /\ forall w, In w (get_all_dictionary_words lower (Some keys)) <->
               exists k, In k keys /\ is_dictionary_word (strip k) = true
                         /\ w = lower (strip k).
Proof.
  split; [apply sorted_set_increasing|]. split.
  - apply increasing_NoDup, sorted_set_increasing.
  - intros w. apply dictionary_words_In.
Qed.

Hypothesis lower_on_ascii :
  forall s, forallb is_ascii s = true -> lower s = lower_ascii s.

Lemma dictionary_word_shape (keys : list str) (w : str) :
  In w (get_all_dictionary_words lower (Some keys)) ->
  is_dictionary_word w = true /\ forallb headword_char w = true.
Proof.
  intros H. apply dictionary_words_In in H as (k & _ & Hd & ->).
  pose proof (is_dictionary_word_stripped _ Hd) as Hc.
  rewrite forallb_forall in Hc.
  assert (Ha : forallb is_ascii (strip k) = true).
  { apply forallb_forall. intros c Hin. specialize (Hc c Hin).
    unfold is_ascii, is_ascii_letter, is_ascii_upper, is_ascii_lower in *.
    rewrite !orb_true_iff, !andb_true_iff, !N.leb_le, N.eqb_eq in Hc.
    apply N.ltb_lt. lia. }
  rewrite (lower_on_ascii _ Ha). split.
  - unfold is_dictionary_word in *. now rewrite word_tail_lower_ascii.
  - apply forallb_forall. intros c Hin.
    pose proof (lower_ascii_never_upper _ _ Hin) as Hu.
    unfold lower_ascii in Hin. apply in_map_iff in Hin as (x & Hx & Hin).
    specialize (Hc x Hin). unfold headword_char.
    destruct (is_ascii_upper x) eqn:Ex.
    + subst c. unfold is_ascii_upper, is_ascii_lower in *.
      apply andb_true_iff in Ex as [E1 E2]. apply N.leb_le in E1, E2.
      apply orb_true_iff. left. apply andb_true_iff.
      split; apply N.leb_le; lia.
    + subst c. unfold is_ascii_letter in Hc. now rewrite Ex in Hc.
Qed.

(** X5. With a [lower] that is the ASCII one on ASCII text, every
    headword returned holds only the letters a to z and hyphens and still
    matches the pattern, and the list is a fixed point: taken as the keys
    of an index it comes back unchanged. *)
Theorem dictionary_words_are_lower_case_headwords (keys : list str) :
  Forall (fun w => is_dictionary_word w = true
                   /\ forallb headword_char w = true)
         (get_all_dictionary_words lower (Some keys))
  /\ get_all_dictionary_words lower
       (Some (get_all_dictionary_words lower (Some keys)))
     = get_all_dictionary_words lower (Some keys).
Proof.
  split.
  - apply Forall_forall. intros w. apply dictionary_word_shape.
  - pose proof (dictionary_word_shape keys) as Hshape.
    pose proof (sorted_set_increasing
                  (flat_map (fun k =>
                     let k := strip k in
                     if nonempty k && is_dictionary_word k
                     then [lower k] else []) keys)) as Hinc.
    change (sorted_set _) with (get_all_dictionary_words lower (Some keys))
      in Hinc.
    revert Hshape Hinc.
    generalize (get_all_dictionary_words lower (Some keys)). intros l Hl Hinc.
    unfold get_all_dictionary_words.
    set (f := fun k : str =>
                let k := strip k in
                if nonempty k && is_dictionary_word k then [lower k] else []).
    assert (E : flat_map f l = l).
    { clear Hinc. induction l as [|w l IH]; [reflexivity|].
      change (f w ++ flat_map f l = w :: l).
      rewrite IH by (intros x Hx; apply Hl; simpl; auto).
      destruct (Hl w (or_introl eq_refl)) as [Hd Hc]. unfold f. cbv zeta.
      assert (Hs : strip w = w).
      { apply no_space_strip. apply forallb_forall. intros c Hin.
        rewrite forallb_forall in Hc. specialize (Hc c Hin).
        unfold headword_char, is_ascii_lower in Hc.
        rewrite orb_true_iff, andb_true_iff, !N.leb_le, N.eqb_eq in Hc.
        apply negb_true_iff. unfold isspace.
        repeat (apply orb_false_iff; split);
          try (apply andb_false_iff; rewrite !N.leb_gt; lia);
          try (apply N.eqb_neq; lia). }
      rewrite Hs, Hd.
      assert (Hn : nonempty w = true).
      { destruct w; [discriminate|reflexivity]. }
      rewrite Hn. cbn [andb app].
      f_equal. rewrite lower_on_ascii.
      - apply lower_ascii_fixed. apply forallb_forall. intros c Hin.
        rewrite forallb_forall in Hc. specialize (Hc c Hin).
        unfold headword_char, is_ascii_lower, is_ascii_upper in *.
        rewrite orb_true_iff, andb_true_iff, !N.leb_le, N.eqb_eq in Hc.
        apply negb_true_iff, andb_false_iff. rewrite !N.leb_gt. lia.
      - apply forallb_forall. intros c Hin.
        rewrite forallb_forall in Hc. specialize (Hc c Hin).
        unfold headword_char, is_ascii_lower, is_ascii in *.
        rewrite orb_true_iff, andb_true_iff, !N.leb_le, N.eqb_eq in Hc.
        apply N.ltb_lt. lia. }
    transitivity (sorted_set l); [f_equal; exact E|].
    now apply sorted_set_fixed.
Qed.

End DictionaryWords.

Lemma dictionary_words_are_lower_case_headwords_witness :
  get_all_dictionary_words lower_ascii
    (Some (get_all_dictionary_words lower_ascii
             (Some [lit "Pitch"; lit "accord "; lit "a b"; lit "well-known";
                    lit "pitch"])))
  = get_all_dictionary_words lower_ascii
      (Some [lit "Pitch"; lit "accord "; lit "a b"; lit "well-known";
             lit "pitch"]).
Proof.
  exact (proj2 (dictionary_words_are_lower_case_headwords lower_ascii
                  (fun s _ => eq_refl)
                  [lit "Pitch"; lit "accord "; lit "a b"; lit "well-known";
                   lit "pitch"])).
Defined.

(** ** The words of a file *)

Lemma lstrip_head (s : str) :
  lstrip s = [] \/ exists c t, lstrip s = c :: t /\ isspace c = false.
Proof.
  induction s as [|c s IH]; simpl; [auto|].
  destruct (isspace c) eqn:E; [assumption|]. right. eauto.
Qed.

Lemma rstrip_cons (c : N) (s : str) :
  isspace c = false -> rstrip (c :: s) = c :: rstrip s.
Proof.
  intros Hc. induction s as [|x s IH] using rev_ind.
  - change [c] with ([] ++ [c]). rewrite rstrip_snoc, Hc. reflexivity.
  - change (c :: s ++ [x]) with ((c :: s) ++ [x]).
    rewrite !rstrip_snoc. destruct (isspace x); [assumption|reflexivity].
Qed.

Lemma lstrip_lstrip (s : str) : lstrip (lstrip s) = lstrip s.
Proof.
  destruct (lstrip_head s) as [->|(c & t & -> & Hc)]; [reflexivity|].
  simpl. now rewrite Hc.
Qed.

Lemma strip_strip (s : str) : strip (strip s) = strip s.
Proof.
  unfold strip.
  assert (H : lstrip (rstrip (lstrip s)) = rstrip (lstrip s)).
  { destruct (lstrip_head s) as [->|(c & t & -> & Hc)]; [reflexivity|].
    rewrite (@rstrip_cons c t Hc). simpl. now rewrite Hc. }
  rewrite H. unfold rstrip at 1 2. rewrite rev_involutive, lstrip_lstrip.
  reflexivity.
Qed.

(** X6. Reading the words from a file gives what cleaning its raw lines
    gives: the stripping and the dropping of blank lines that
    [get_words_from_file] does first change nothing, given that [lower]
    of the empty string is empty. *)
Theorem get_words_from_file_cleans_the_lines
    (lower : str -> str) (lines : list str) :
  lower [] = [] ->
  get_words_from_file lower (Some lines) = get_words_from_list lower lines.
Proof.
  intros Hlower. unfold get_words_from_file, get_words_from_list.
  induction lines as [|line lines IH]; [reflexivity|].
  cbn [filter flat_map]. destruct (nonempty (strip line)) eqn:E.
  - cbn [List.map flat_map]. rewrite IH. f_equal.
    unfold clean_word. now rewrite strip_strip.
  - rewrite IH. destruct (strip line) eqn:Es; [|discriminate].
    unfold clean_word. rewrite Es, Hlower. reflexivity.
Qed.

Lemma get_words_from_file_cleans_the_lines_witness :
  get_words_from_file lower_ascii
    (Some [lit "  Pitch "; lit "   "; lit "take Off"])
  = get_words_from_list lower_ascii
      [lit "  Pitch "; lit "   "; lit "take Off"].
Proof.
  exact (get_words_from_file_cleans_the_lines lower_ascii
           [lit "  Pitch "; lit "   "; lit "take Off"] eq_refl).
Defined.

(** ** The frequency dictionary *)

Lemma dict_find_app (V : Type) (key k : str) (v : V) (d : list (str * V)) :
  dict_find key (d ++ [(k, v)])
  = match dict_find key d with
    | Some r => Some r
    | None => if Str.eqb k key then Some v else None
    end.
Proof.
  induction d as [|[k' v'] d IH]; simpl; [reflexivity|].
  destruct (Str.eqb k' key); [reflexivity | apply IH].
Qed.

Lemma dict_find_None (V : Type) (key : str) (d : list (str * V)) :
  dict_find key d = None <-> ~ In key (List.map fst d).
Proof.
  induction d as [|[k v] d IH]; simpl; [tauto|].
  destruct (Str.eqb k key) eqn:E.
  - apply eqb_eq in E. subst. split; [discriminate | tauto].
  - rewrite IH. split; [|tauto]. intros H [->|H']; [|tauto].
    rewrite (proj2 (eqb_eq key key) eq_refl) in E. discriminate.
Qed.

Section FrequencyDictionary.

Variable lower : str -> str.

Lemma add_forms_find (line_num : nat) (words : list str)
    (freq_map : list (str * nat)) (form : str) :
  dict_find form (add_forms lower line_num words freq_map)
  = match dict_find form freq_map with
    | Some r => Some r
    | None =>
        if existsb (fun word => Str.eqb (lower word) form) words
        then Some line_num else None
    end.
Proof.
  unfold add_forms. revert freq_map.
  induction words as [|w words IH]; intros freq_map; cbn [fold_left existsb].
  - now destruct (dict_find form freq_map).
  - rewrite IH. cbv zeta.
    destruct (dict_find (lower w) freq_map) eqn:Ew.
    + destruct (dict_find form freq_map) eqn:Ef; [reflexivity|].
      destruct (Str.eqb (lower w) form) eqn:E; [|reflexivity].
      apply eqb_eq in E. congruence.
    + rewrite dict_find_app.
      destruct (dict_find form freq_map); [reflexivity|].
      destruct (Str.eqb (lower w) form); [reflexivity|].
      reflexivity.
Qed.

Lemma add_forms_keys (line_num : nat) (words : list str)
    (freq_map : list (str * nat)) :
  NoDup (List.map fst freq_map) ->
  NoDup (List.map fst (add_forms lower line_num words freq_map)).
Proof.
  unfold add_forms. revert freq_map.
  induction words as [|w words IH]; intros freq_map H; cbn [fold_left];
    [assumption|].
  apply IH. cbv zeta. destruct (dict_find (lower w) freq_map) eqn:E;
    [assumption|].
  apply dict_find_None in E. rewrite map_app. simpl.
  apply NoDup_app; [assumption | repeat constructor; intros [] |].
  intros x Hx [<-|[]]. contradiction.
Qed.

Lemma load_lines_find (line_num : nat) (lines : list str)
    (freq_map : list (str * nat)) (form : str) :
  dict_find form (load_lines lower line_num lines freq_map)
  = match dict_find form freq_map with
    | Some r => Some r
    | None => first_line lower line_num form lines
    end.
Proof.
  revert line_num freq_map.
  induction lines as [|line lines IH]; intros line_num freq_map;
    cbn [load_lines first_line].
  - now destruct (dict_find form freq_map).
  - rewrite IH, add_forms_find. fold (line_has lower form line).
    destruct (dict_find form freq_map); [reflexivity|].
    destruct (line_has lower form line); reflexivity.
Qed.

Lemma load_lines_keys (line_num : nat) (lines : list str)
    (freq_map : list (str * nat)) :
  NoDup (List.map fst freq_map) ->
  NoDup (List.map fst (load_lines lower line_num lines freq_map)).
Proof.
  revert line_num freq_map.
  induction lines as [|line lines IH]; intros line_num freq_map H;
    cbn [load_lines]; [assumption|].
  apply IH. now apply add_forms_keys.
Qed.

Lemma first_line_bounds (line_num : nat) (form : str) (lines : list str)
    (r : nat) :
  first_line lower line_num form lines = Some r ->
  line_num <= r < line_num + length lines
  /\ line_has lower form (nth (r - line_num) lines []) = true
  /\ forall k, k < r - line_num ->
               line_has lower form (nth k lines []) = false.
Proof.
  revert line_num. induction lines as [|line lines IH]; intros line_num;
    cbn [first_line]; [discriminate|].
  destruct (line_has lower form line) eqn:E.
  - intros [= <-]. rewrite Nat.sub_diag. simpl.
    split; [lia|]. split; [assumption|]. intros k Hk. lia.
  - intros H. apply IH in H as (Hb & Hh & Hbefore). simpl length.
    split; [lia|].
    assert (Er : r - line_num = S (r - S line_num)) by lia.
    rewrite Er. split; [assumption|].
    intros [|k] Hk; [assumption|]. simpl. apply Hbefore. lia.
Qed.

(** X7. For a file with at least one line [load_freq_dict] gives a
    dictionary whose keys are distinct and in which every word form has
    the number of the first line that holds a word lowering to it, from 1
    on, and no entry when no line holds one. *)
Theorem load_freq_dict_ranks_by_first_line (line : str) (rest : list str) :
  exists freq_map,
    load_freq_dict lower (Some (line :: rest)) = Loaded freq_map
    /\ NoDup (List.map fst freq_map)
    /\ (forall form,
          dict_find form freq_map = first_line lower 1 form (line :: rest))
    /\ (forall form rank,
          dict_find form freq_map = Some rank ->
          1 <= rank <= length (line :: rest)
          /\ line_has lower form (nth (rank - 1) (line :: rest) []) = true
          /\ forall k, k < rank - 1 ->
                       line_has lower form (nth k (line :: rest) []) = false).
Proof.
  eexists. split; [reflexivity|]. split; [|split].
  - apply load_lines_keys. constructor.
  - intros form. now rewrite load_lines_find.
  - intros form rank H. rewrite load_lines_find in H. cbn [dict_find] in H.
    apply first_line_bounds in H as (Hb & Hh & Hbefore).
    split; [lia|]. split; assumption.
Qed.

End FrequencyDictionary.

(** ** The rank of a word and the main loop *)

Lemma string_of_uint_digits (d : Decimal.uint) :
  forallb is_digit (lit (NilEmpty.string_of_uint d)) = true.
Proof. induction d; simpl; auto. Qed.

Lemma of_Z_of_nat_numeral (n : nat) :
  forallb is_digit (of_Z (Z.of_nat n)) = true /\ of_Z (Z.of_nat n) <> [].
Proof.
  unfold of_Z. destruct (Z.of_nat n) as [|p|p] eqn:E; [| |lia].
  - split; [reflexivity|discriminate].
  - cbn [Z.to_int NilZero.string_of_int]. unfold NilZero.string_of_uint.
    destruct (Pos.to_uint p) eqn:Ep.
    + split; [reflexivity|discriminate].
    + split; [apply string_of_uint_digits|discriminate].
    + split; [apply string_of_uint_digits|discriminate].
    + split; [apply string_of_uint_digits|discriminate].
    + split; [apply string_of_uint_digits|discriminate].
    + split; [apply string_of_uint_digits|discriminate].
    + split; [apply string_of_uint_digits|discriminate].
    + split; [apply string_of_uint_digits|discriminate].
    + split; [apply string_of_uint_digits|discriminate].
    + split; [apply string_of_uint_digits|discriminate].
    + split; [apply string_of_uint_digits|discriminate].
Qed.

Lemma cards_have_groups (html_content : list markup) (word : str)
    (cards : list Card.t) :
  parse_collocation_html html_content word = Ok cards ->
  Forall (fun card => Card.collocation_groups card <> []) cards.
Proof.
  apply every_card. intros w entry soup soup' card Hcard.
  destruct (parse_entry_groups _ _ _ Hcard)
    as (soup1 & groups & _ & Hnone & Hsome).
  rewrite (Hsome card eq_refl). intros Hnil. apply Hnone in Hnil.
  discriminate.
Qed.

Section MainLoop.

Variable lower : str -> str.
Variable query : str -> option (list markup).
Variable freq_map : list (str * nat).

(** X9. The rank written on a card is empty when the lowered word is not
    a key of the frequency dictionary, and otherwise a non-empty string of
    decimal digits: it can hold neither a tab nor a newline. *)
Theorem rank_text_is_empty_or_a_numeral (word : str) :
  forallb is_digit (rank_text lower freq_map word) = true
  /\ (rank_text lower freq_map word = []
      <-> dict_find (lower word) freq_map = None)
  /\ has_char tab (rank_text lower freq_map word) = false
  /\ has_char newline (rank_text lower freq_map word) = false.
Proof.
  assert (Hd : forallb is_digit (rank_text lower freq_map word) = true).
  { unfold rank_text. destruct (dict_find (lower word) freq_map);
      [apply of_Z_of_nat_numeral | reflexivity]. }
  split; [assumption|]. split.
  - unfold rank_text. destruct (dict_find (lower word) freq_map) as [r|].
    + split; [|discriminate]. intros H.
      now apply (proj2 (of_Z_of_nat_numeral r)) in H.
    + tauto.
  - rewrite forallb_forall in Hd.
    assert (G : forall c, is_digit c = false ->
                          has_char c (rank_text lower freq_map word) = false).
    { intros c Hc. unfold has_char.
      destruct (existsb (N.eqb c) (rank_text lower freq_map word)) eqn:E;
        [|reflexivity].
      apply existsb_exists in E as (x & Hx & Heq). apply N.eqb_eq in Heq.
      subst x. apply Hd in Hx. congruence. }
    split; apply G; reflexivity.
Qed.

Lemma process_word_accounts (word : str) (t t' : Tally.t) :
  process_word lower query freq_map word t = Ok t' ->
  Tally.success_count t' + length (Tally.failed_words t')
  = S (Tally.success_count t + length (Tally.failed_words t))
  /\ exists new_cards,
       Tally.all_cards t' = Tally.all_cards t ++ new_cards
       /\ Forall (fun card =>
                    Card.collocation_groups card <> []
                    /\ Card.freq_rank card
                       = Some (PyStr (rank_text lower freq_map word)))
            new_cards
       /\ (new_cards = [] /\ Tally.success_count t' = Tally.success_count t
           /\ Tally.failed_words t' = Tally.failed_words t ++ [word]
           \/ new_cards <> []
              /\ Tally.success_count t' = S (Tally.success_count t)
              /\ Tally.failed_words t' = Tally.failed_words t).
Proof.
  unfold process_word.
  assert (Hfail :
    Ok (Tally.make (Tally.all_cards t) (Tally.failed_words t ++ [word])
          (Tally.success_count t)) = Ok t' ->
    Tally.success_count t' + length (Tally.failed_words t')
    = S (Tally.success_count t + length (Tally.failed_words t))
    /\ exists new_cards,
         Tally.all_cards t' = Tally.all_cards t ++ new_cards
         /\ Forall (fun card =>
                      Card.collocation_groups card <> []
                      /\ Card.freq_rank card
                         = Some (PyStr (rank_text lower freq_map word)))
              new_cards
         /\ (new_cards = [] /\ Tally.success_count t' = Tally.success_count t
             /\ Tally.failed_words t' = Tally.failed_words t ++ [word]
             \/ new_cards <> []
                /\ Tally.success_count t' = S (Tally.success_count t)
                /\ Tally.failed_words t' = Tally.failed_words t)).
  { intros [= <-]. cbn. rewrite length_app. simpl. split; [lia|].
    exists []. rewrite app_nil_r. split; [reflexivity|].
    split; [constructor|]. left. auto. }
  destruct (query word) as [[|m ms]|]; try exact Hfail.
  destruct (parse_collocation_html (m :: ms) word) as [[|card cards]|] eqn:Hp;
    [exact Hfail| |discriminate].
  intros [= <-]. cbn [Tally.all_cards Tally.failed_words Tally.success_count].
  split; [lia|].
  exists (List.map (set_rank (rank_text lower freq_map word)) (card :: cards)).
  split; [reflexivity|]. split.
  - apply cards_have_groups in Hp. apply Forall_forall. intros c Hc.
    apply in_map_iff in Hc as (c0 & <- & Hc0).
    rewrite Forall_forall in Hp. split; [exact (Hp _ Hc0) | reflexivity].
  - right. split; [discriminate | auto].
Qed.

(** X10. When the main loop ends, every word of the list it ran over has
    been counted once, as a success or as a failed word; the failed words
    are words of the list; every card added has groups and carries as its
    rank the rank text of a word of the list; and at least one card was
    added for each success. *)
Theorem main_loop_accounts_for_every_word
    (word_list : list str) (t t' : Tally.t) :
  process_words lower query freq_map word_list t = Ok t' ->
  Tally.success_count t' + length (Tally.failed_words t')
  = Tally.success_count t + length (Tally.failed_words t) + length word_list
  /\ exists new_cards new_failed,
       Tally.all_cards t' = Tally.all_cards t ++ new_cards
       /\ Tally.failed_words t' = Tally.failed_words t ++ new_failed
       /\ (forall w, In w new_failed -> In w word_list)
       /\ Tally.success_count t' - Tally.success_count t <= length new_cards
       /\ Forall (fun card =>
                    Card.collocation_groups card <> []
                    /\ exists w,
                         In w word_list
                         /\ Card.freq_rank card
                            = Some (PyStr (rank_text lower freq_map w)))
            new_cards.
Proof.
  revert t. induction word_list as [|word rest IH]; intros t;
    cbn [process_words].
  - intros [= <-]. split; [simpl; lia|]. exists [], [].
    rewrite !app_nil_r. split; [reflexivity|]. split; [reflexivity|].
    split; [intros w []|]. split; [simpl; lia | constructor].
  - destruct (process_word lower query freq_map word t) as [t1|] eqn:H1;
      [|discriminate].
    intros H. apply IH in H as (Hcount & cards2 & failed2 & Hc2 & Hf2 & Hin2
                                & Hle2 & Hall2).
    apply process_word_accounts in H1 as (Hcount1 & cards1 & Hc1 & Hall1 & Hcase).
    split; [simpl length; lia|].
    assert (Hf1 : exists failed1,
               Tally.failed_words t1 = Tally.failed_words t ++ failed1
               /\ (forall w, In w failed1 -> w = word)
               /\ Tally.success_count t1 - Tally.success_count t
                  <= length cards1).
    { destruct Hcase as [(-> & Hs & Hf)|(Hne & Hs & Hf)].
      - exists [word]. split; [assumption|]. split; [|lia].
        intros w [<-|[]]. reflexivity.
      - exists []. rewrite app_nil_r. split; [assumption|].
        split; [intros w []|].
        destruct cards1; [congruence | simpl; lia]. }
    destruct Hf1 as (failed1 & Hf1 & Hin1 & Hle1).
    exists (cards1 ++ cards2), (failed1 ++ failed2).
    rewrite Hc2, Hc1, Hf2, Hf1, <- !app_assoc.
    split; [reflexivity|]. split; [reflexivity|]. split; [|split].
    + intros w Hw. apply in_app_or in Hw as [Hw|Hw].
      * left. symmetry. now apply Hin1.
      * right. now apply Hin2.
    + rewrite length_app. lia.
    + apply Forall_app. split.
      * eapply Forall_impl; [|exact Hall1]. intros c [Hg Hr].
        split; [assumption|]. exists word. split; [now left | assumption].
      * eapply Forall_impl; [|exact Hall2]. intros c (Hg & w & Hw & Hr).
        split; [assumption|]. exists w. split; [now right | assumption].
Qed.

End MainLoop.

Lemma main_loop_accounts_for_every_word_witness :
  process_words lower_ascii sample_query sample_freq_map sample_words
    (Tally.make [] [] 0) = Ok sample_tally
  /\ Tally.success_count sample_tally
     + length (Tally.failed_words sample_tally)
     = 0 + 0 + length sample_words.
Proof.
  assert (H : process_words lower_ascii sample_query sample_freq_map
                sample_words (Tally.make [] [] 0) = Ok sample_tally)
    by (vm_compute; reflexivity).
  split; [exact H|].
  exact (proj1 (@main_loop_accounts_for_every_word
                  lower_ascii sample_query sample_freq_map sample_words
                  (Tally.make [] [] 0) sample_tally H)).
Defined.

(** ** The rendered fragment *)

Lemma printable_not_in (c : N) (s : str) :
  (c < 32)%N -> forallb (fun x => (32 <=? x)%N) s = true ->
  (In c s <-> False).
Proof.
  intros Hc Hs. split; [|tauto]. intros H.
  rewrite forallb_forall in Hs. apply Hs in H. apply N.leb_le in H. lia.
Qed.

Lemma In_concat_map (A : Type) (c : N) (f : A -> str) (l : list A) :
  In c (concat (List.map f l)) <-> exists x, In x l /\ In c (f x).
Proof.
  rewrite in_concat. split.
  - intros (s & Hs & Hc). apply in_map_iff in Hs as (x & <- & Hx). eauto.
  - intros (x & Hx & Hc). exists (f x). split; [now apply in_map|assumption].
Qed.

Lemma In_join (c : N) (sep : str) (parts : list str) :
  ~ In c sep ->
  (In c (join sep parts) <-> exists p, In p parts /\ In c p).
Proof.
  intros Hsep. induction parts as [|p parts IH].
  - simpl. split; [tauto | intros (p & [] & _)].
  - destruct parts as [|q parts].
    + simpl. split; [eauto | intros (x & [<-|[]] & H); assumption].
    + change (join sep (p :: q :: parts))
        with (p ++ sep ++ join sep (q :: parts)).
      rewrite !in_app_iff, IH. split.
      * intros [H|[H|(x & Hx & H)]]; [exists p; simpl; auto | tauto |].
        exists x. split; [now right | assumption].
      * intros (x & [<-|Hx] & H); [auto|]. right. right. eauto.
Qed.

(** Some text of a list holds [c]. *)
Lemma some_text_app (c : N) (a b : list str) :
  (exists s, In s (a ++ b) /\ In c s)
  <-> (exists s, In s a /\ In c s) \/ (exists s, In s b /\ In c s).
Proof.
  split.
  - intros (s & Hs & H). apply in_app_or in Hs as [Hs|Hs]; eauto.
  - intros [(s & Hs & H)|(s & Hs & H)]; exists s;
      (split; [apply in_or_app; auto | assumption]).
Qed.

Lemma some_text_cons (c : N) (a : str) (b : list str) :
  (exists s, In s (a :: b) /\ In c s)
  <-> In c a \/ (exists s, In s b /\ In c s).
Proof.
  split.
  - intros (s & [<-|Hs] & H); eauto.
  - intros [H|(s & Hs & H)]; [exists a | exists s]; simpl; auto.
Qed.

Lemma some_text_nil (c : N) :
  (exists s : str, In s [] /\ In c s) <-> False.
Proof. split; [intros (s & [] & _) | tauto]. Qed.

Lemma some_text_flat_map (A : Type) (c : N) (f : A -> list str) (l : list A) :
  (exists s, In s (flat_map f l) /\ In c s)
  <-> exists x, In x l /\ exists s, In s (f x) /\ In c s.
Proof.
  split.
  - intros (s & Hs & H). apply in_flat_map in Hs as (x & Hx & Hs). eauto.
  - intros (x & Hx & s & Hs & H). exists s. split; [|assumption].
    apply in_flat_map. eauto.
Qed.

Lemma some_element_iff (A : Type) (l : list A) (P Q : A -> Prop) :
  (forall x, P x <-> Q x) ->
  ((exists x, In x l /\ P x) <-> (exists x, In x l /\ Q x)).
Proof.
  intros H. split; intros (x & Hx & Hp); exists x; (split; [assumption|]);
    now apply H.
Qed.

Section Fragment.

Variable c : N.
Hypothesis control : (c < 32)%N.

Lemma In_render_word (w : str) : In c (render_word w) <-> In c w.
Proof.
  unfold render_word. rewrite !in_app_iff. 
    repeat match goal with
               | |- context [In c ?s] =>
                   rewrite (@printable_not_in c s control)
                     by (vm_compute; reflexivity)
               end. tauto.
Qed.

Lemma In_render_example (ex : Example.t) :
  In c (render_example ex)
  <-> exists s, In s (example_texts ex) /\ In c s.
Proof.
  unfold example_texts. rewrite !some_text_cons, some_text_nil.
  unfold render_example. destruct (Example.cn ex) as [|x cn] eqn:E;
    cbn [nonempty]; rewrite !in_app_iff; 
    repeat match goal with
               | |- context [In c ?s] =>
                   rewrite (@printable_not_in c s control)
                     by (vm_compute; reflexivity)
               end; tauto.
Qed.

Lemma In_render_item (item : Item.t) :
  In c (render_item item) <-> exists s, In s (item_texts item) /\ In c s.
Proof.
  assert (Hw : In c (join (lit " " ++ open_tag "span" "sep" ++ lit "|</span> ")
                       (List.map render_word (Item.words item)))
               <-> exists w, In w (Item.words item) /\ In c w).
  { rewrite In_join
      by (rewrite (@printable_not_in c _ control) by (vm_compute; reflexivity);
          tauto).
    split.
    - intros (p & Hp & H). apply in_map_iff in Hp as (w & <- & Hw).
      apply (proj1 (In_render_word w)) in H. exists w. split; assumption.
    - intros (w & Hw & H). exists (render_word w).
      split; [now apply in_map | now apply In_render_word]. }
  unfold item_texts.
  rewrite !some_text_app, some_text_cons, some_text_nil, some_text_flat_map.
  rewrite <- Hw.
  rewrite <- (some_element_iff (Item.examples item) _ _ In_render_example).
  rewrite <- In_concat_map.
  unfold render_item. cbv zeta.
  destruct (Item.chn item) as [|x chn] eqn:E; cbn [nonempty];
    rewrite !in_app_iff; 
    repeat match goal with
               | |- context [In c ?s] =>
                   rewrite (@printable_not_in c s control)
                     by (vm_compute; reflexivity)
               end; tauto.
Qed.

Lemma In_render_group (group : Group.t) :
  In c (render_group group) <-> exists s, In s (group_texts group) /\ In c s.
Proof.
  unfold group_texts. rewrite some_text_cons, some_text_flat_map.
  rewrite <- (some_element_iff (Group.items group) _ _ In_render_item).
  rewrite <- In_concat_map.
  unfold render_group. rewrite !in_app_iff. 
    repeat match goal with
               | |- context [In c ?s] =>
                   rewrite (@printable_not_in c s control)
                     by (vm_compute; reflexivity)
               end. tauto.
Qed.

Lemma In_fragment (card : Card.t) :
  In c (generate_collocations_html card)
  <-> exists s, In s (card_texts card) /\ In c s.
Proof.
  unfold card_texts, generate_collocations_html.
  rewrite some_text_flat_map, In_concat_map.
  apply some_element_iff, In_render_group.
Qed.

End Fragment.

Lemma remove_char_absent (c : N) (s : str) :
  has_char c s = false -> remove_char c s = s.
Proof.
  intros H. unfold remove_char. apply filter_all, forallb_forall.
  intros x Hx. apply negb_true_iff. apply N.eqb_neq. intros ->.
  assert (E : has_char c s = true).
  { unfold has_char. apply existsb_exists. exists c.
    split; [assumption | apply N.eqb_refl]. }
  congruence.
Qed.

Lemma has_char_fragment (c : N) (card : Card.t) :
  (c < 32)%N ->
  existsb (has_char c) (card_texts card) = false ->
  has_char c (generate_collocations_html card) = false.
Proof.
  intros Hc H.
  destruct (has_char c (generate_collocations_html card)) eqn:E;
    [|reflexivity].
  assert (Hin : In c (generate_collocations_html card)).
  { unfold has_char in E. apply existsb_exists in E as (x & Hx & Heq).
    apply N.eqb_eq in Heq. now subst. }
  apply (In_fragment Hc) in Hin as (s & Hs & Hin).
  assert (E2 : existsb (has_char c) (card_texts card) = true).
  { apply existsb_exists. exists s. split; [assumption|].
    unfold has_char. apply existsb_exists. exists c.
    split; [assumption | apply N.eqb_refl]. }
  congruence.
Qed.

(** X12. When no text of the card's groups holds a newline or a carriage
    return, the sixth field of the card's line is the rendered fragment
    itself, and when none holds a tab either, the field has no tab: the
    removal of line breaks in the writer then changes nothing. *)
Theorem fragment_field_is_the_fragment (card : Card.t) :
  existsb (has_char newline) (card_texts card) = false ->
  existsb (has_char cr) (card_texts card) = false ->
  nth 5 (fields_of card) [] = generate_collocations_html card
  /\ (existsb (has_char tab) (card_texts card) = false ->
      has_char tab (nth 5 (fields_of card) []) = false).
Proof.
  intros Hn Hr.
  assert (E : nth 5 (fields_of card) [] = generate_collocations_html card).
  { unfold fields_of. cbn [nth].
    rewrite (@remove_char_absent newline)
      by (apply has_char_fragment; [reflexivity | assumption]).
    apply remove_char_absent.
    apply has_char_fragment; [reflexivity | assumption]. }
  split; [assumption|]. intros Ht. rewrite E.
  apply has_char_fragment; [reflexivity | assumption].
Qed.

Lemma fragment_field_is_the_fragment_witness :
  nth 5 (fields_of accord_card) [] = generate_collocations_html accord_card.
Proof.
  apply (@fragment_field_is_the_fragment accord_card); reflexivity.
Defined.

(** ** Batches of cards *)

Lemma join_app (sep : str) (a b : list str) :
  a <> [] -> b <> [] -> join sep (a ++ b) = join sep a ++ sep ++ join sep b.
Proof.
  intros Ha Hb. induction a as [|p a IH]; [congruence|].
  destruct a as [|q a].
  - destruct b as [|r b]; [congruence|]. reflexivity.
  - change (join sep ((p :: q :: a) ++ b))
      with (p ++ sep ++ join sep ((q :: a) ++ b)).
    rewrite IH by discriminate.
    change (join sep (p :: q :: a)) with (p ++ sep ++ join sep (q :: a)).
    now rewrite <- !app_assoc.
Qed.

(** X13. The import text of two batches of cards, neither empty, is the
    import text of the first, a newline, and the import text of the
    second: the lines of a card do not depend on the cards around it, and
    the text does not end in a newline. *)
Theorem import_file_of_two_batches (a b : list Card.t) :
  a <> [] -> b <> [] ->
  generate_anki_import_file (a ++ b)
  = generate_anki_import_file a ++ [newline] ++ generate_anki_import_file b.
Proof.
  intros Ha Hb. unfold generate_anki_import_file. rewrite map_app.
  apply join_app; intros H; apply map_eq_nil in H; contradiction.
Qed.

Lemma import_file_of_two_batches_witness :
  generate_anki_import_file ([pitch_card_1] ++ [pitch_card_2; accord_card])
  = generate_anki_import_file [pitch_card_1] ++ [newline]
    ++ generate_anki_import_file [pitch_card_2; accord_card].
Proof.
  apply (@import_file_of_two_batches [pitch_card_1]
           [pitch_card_2; accord_card]); discriminate.
Defined.

(** ** Fields without white space at their ends *)

Lemma strip_trimmed (s : str) : trimmed (strip s) = true.
Proof.
  unfold trimmed, strip. rewrite rstrip_last.
  destruct (lstrip_head s) as [->|(c & t & -> & Hc)]; [reflexivity|].
  rewrite (@rstrip_cons c t Hc). cbn [hd]. now rewrite Hc.
Qed.

Lemma trimmed_strip (s : str) : trimmed s = true -> strip s = s.
Proof.
  unfold trimmed. intros H. apply andb_true_iff in H as [H1 H2].
  apply negb_true_iff in H1, H2.
  assert (Hl : lstrip s = s).
  { destruct s as [|c s]; [reflexivity|]. cbn [hd] in H1. simpl.
    now rewrite H1. }
  unfold strip. rewrite Hl. clear Hl H1.
  destruct s as [|c s _] using rev_ind; [reflexivity|].
  rewrite last_last in H2. now rewrite rstrip_snoc, H2.
Qed.

Lemma last_app_nonempty (A : Type) (a b : list A) (d : A) :
  b <> [] -> last (a ++ b) d = last b d.
Proof.
  intros Hb. induction a as [|x a IH]; [reflexivity|].
  cbn [app]. destruct (a ++ b) eqn:E.
  - apply app_eq_nil in E as [_ ->]. congruence.
  - rewrite <- E in *. cbn [last]. rewrite E. rewrite <- E. exact IH.
Qed.

Lemma trimmed_concat (l : list str) :
  Forall (fun s => trimmed s = true /\ s <> []) l ->
  trimmed (concat l) = true.
Proof.
  induction 1 as [|s l [Hs Hne] Hl IH]; [reflexivity|].
  cbn [concat]. unfold trimmed in *.
  apply andb_true_iff in Hs as [H1 H2]. apply andb_true_iff in IH as [I1 I2].
  apply andb_true_iff. split.
  - destruct s as [|c s]; [congruence|]. exact H1.
  - destruct (concat l) as [|c r] eqn:E.
    + now rewrite app_nil_r.
    + rewrite last_app_nonempty by discriminate. exact I2.
Qed.

Lemma stripped_text_trimmed (cs : list node) :
  strip (stripped_text_of cs) = stripped_text_of cs.
Proof.
  apply trimmed_strip. unfold stripped_text_of. apply trimmed_concat.
  apply Forall_forall. intros s Hs. apply filter_In in Hs as [Hs Hne].
  apply in_map_iff in Hs as (x & <- & _).
  split; [apply strip_trimmed | now apply nonempty_true].
Qed.

(** X14. The part of speech, the sense number and the two definition
    texts of every card have no white space at either end, and neither has
    the card's word when the queried word has none. *)
Theorem card_fields_are_trimmed
    (html_content : list markup) (word : str) (cards : list Card.t) :
  parse_collocation_html html_content word = Ok cards ->
  Forall (fun card =>
            strip (Card.pos card) = Card.pos card
            /\ strip (Card.sense_num card) = Card.sense_num card
            /\ strip (Card.def_en card) = Card.def_en card
            /\ strip (Card.def_cn card) = Card.def_cn card
            /\ (strip word = word -> strip (Card.word card) = Card.word card))
         cards.
Proof.
  intros H. apply every_card_fields in H.
  eapply Forall_impl; [|exact H].
  intros card (soup & entry & _ & Hw & Hf).
  assert (Ht : forall name cs, strip (text_first name cs) = text_first name cs).
  { intros name cs. unfold text_first.
    destruct (first_named name cs); [apply stripped_text_trimmed|reflexivity]. }
  repeat split.
  - unfold spec_head in Hf.
    destruct (first_named (lit "head") (contents_in soup entry));
      injection Hf as -> _ _ _; [apply Ht | reflexivity].
  - unfold spec_head in Hf.
    destruct (first_named (lit "head") (contents_in soup entry));
      injection Hf as _ -> _ _; [apply Ht | reflexivity].
  - unfold spec_head in Hf.
    destruct (first_named (lit "head") (contents_in soup entry));
      injection Hf as _ _ -> _; [|reflexivity].
    destruct (definition_of (contents_in soup entry)); [|reflexivity].
    apply stripped_text_trimmed.
  - unfold spec_head in Hf.
    destruct (first_named (lit "head") (contents_in soup entry));
      injection Hf as _ _ _ ->; [|reflexivity].
    destruct (definition_of (contents_in soup entry)) as [def|];
      [|reflexivity].
    unfold definition_secondary, secondary_text.
    destruct (first_named (lit "chn") def); [apply stripped_text_trimmed|].
    reflexivity.
  - intros Hword. rewrite Hw. unfold headword_of.
    destruct (first_named (lit "h") (contents_in soup entry));
      [apply stripped_text_trimmed | assumption].
Qed.

Lemma card_fields_are_trimmed_witness :
  Forall (fun card =>
            strip (Card.pos card) = Card.pos card
            /\ strip (Card.sense_num card) = Card.sense_num card
            /\ strip (Card.def_en card) = Card.def_en card
            /\ strip (Card.def_cn card) = Card.def_cn card
            /\ (strip (lit "accord") = lit "accord" ->
                strip (Card.word card) = Card.word card))
         [accord_card].
Proof.
  apply (@card_fields_are_trimmed [idiom_entry; accord_entry] (lit "accord")
           [accord_card]).
  vm_compute. reflexivity.
Defined.

(** ** The number of cards *)

Lemma for_each_grows_by_one (X B : Type) (body : X -> list B -> M (list B)) :
  (forall x acc soup acc' soup',
      body x acc soup = Ok (acc', soup') -> length acc' <= S (length acc)) ->
  forall xs acc soup acc' soup',
    for_each xs body acc soup = Ok (acc', soup') ->
    length acc' <= length acc + length xs.
Proof.
  intros Hbody. induction xs as [|x xs IH]; intros acc soup acc' soup' H.
  - apply ret_ok in H as [-> _]. simpl. lia.
  - cbn [for_each] in H. apply bind_ok in H as (a & s1 & Hb & H).
    apply Hbody in Hb. apply IH in H. simpl. lia.
Qed.

(** X15. A run returns at most as many cards as the document has
    [entry] elements. *)
Theorem at_most_one_card_for_an_entry
    (html_content : list markup) (word : str) (cards : list Card.t) :
  parse_collocation_html html_content word = Ok cards ->
  length cards
  <= length (matching [lit "entry"]
               (contents_in (BeautifulSoup_from 0 html_content) 0)).
Proof.
  unfold parse_collocation_html, parse_collocation_html_from.
  destruct html_content as [|m ms]; [intros [= <-]; simpl; lia|].
  destruct (parse_soup 0 word (BeautifulSoup_from 0 (m :: ms)))
    as [[cards' soup']|] eqn:Hrun; [|discriminate].
  intros [= ->]. unfold parse_soup in Hrun.
  erewrite bind_run in Hrun by apply find_all_run.
  apply for_each_grows_by_one in Hrun; [exact Hrun|].
  intros entry acc s acc' s' Hadd. unfold add_card in Hadd.
  apply bind_ok in Hadd as (card & s1 & _ & Hadd).
  apply ret_ok in Hadd as [-> _]. destruct card; [|lia].
  rewrite length_app. simpl. lia.
Qed.

Lemma at_most_one_card_for_an_entry_witness :
  length [accord_card]
  <= length (matching [lit "entry"]
               (contents_in
                  (BeautifulSoup_from 0 [idiom_entry; accord_entry]) 0)).
Proof.
  apply (@at_most_one_card_for_an_entry [idiom_entry; accord_entry]
           (lit "accord") [accord_card]).
  vm_compute. reflexivity.
Defined.

(** ** The limit on the number of words *)

Section Limit.

Variable lower : str -> str.
Variable freq_map : list (str * nat).

Lemma process_words_ext (query query' : str -> option (list markup))
    (word_list : list str) (t : Tally.t) :
  (forall w, In w word_list -> query w = query' w) ->
  process_words lower query freq_map word_list t
  = process_words lower query' freq_map word_list t.
Proof.
  revert t. induction word_list as [|word rest IH]; intros t H;
    [reflexivity|].
  cbn [process_words].
  assert (E : process_word lower query freq_map word t
              = process_word lower query' freq_map word t).
  { unfold process_word. now rewrite (H word) by (simpl; auto). }
  rewrite E. destruct (process_word lower query' freq_map word t);
    [|reflexivity].
  apply IH. intros w Hw. apply H. simpl. auto.
Qed.

(** X17. With a limit [--max] above zero, only the first [max] words of
    the word list are looked up: two dictionaries that answer alike on
    those words give the same import text, whatever they answer on the
    others. *)
Theorem words_past_the_limit_are_not_looked_up
    (max : nat) (query query' : str -> option (list markup))
    (word_list : list str) :
  0 < max ->
  (forall w, In w (firstn max word_list) -> query w = query' w) ->
  import_text lower max query freq_map word_list
  = import_text lower max query' freq_map word_list.
Proof.
  intros Hmax H. unfold import_text.
  destruct word_list as [|x l]; [reflexivity|]. cbv zeta.
  assert (E : (if (0 <? max) && (max <? length (x :: l))
               then firstn max (x :: l) else x :: l)
              = firstn max (x :: l)).
  { apply Nat.ltb_lt in Hmax. rewrite Hmax. cbn [andb].
    destruct (max <? length (x :: l)) eqn:El; [reflexivity|].
    apply Nat.ltb_ge in El. now rewrite firstn_all2. }
  rewrite E.
  rewrite (@process_words_ext query query').
  - reflexivity.
  - intros w Hw. apply H. unfold unique_words in Hw.
    now apply unique_from_members in Hw as [Hw _].
Qed.

End Limit.

Lemma words_past_the_limit_are_not_looked_up_witness :
  import_text lower_ascii 2 sample_query sample_freq_map sample_words
  = import_text lower_ascii 2 other_query sample_freq_map sample_words.
Proof.
  apply (@words_past_the_limit_are_not_looked_up lower_ascii sample_freq_map
           2 sample_query other_query sample_words); [lia|].
  simpl. intros w [<-|[<-|[]]]; reflexivity.
Defined.

(** ** Documents without a block of a kept type *)

Lemma kept_block_prune (p : node -> bool) (n : node) :
  kept_block (prune_node p n) = kept_block n.
Proof. destruct n; reflexivity. Qed.

Lemma has_kept_block_prune (p : node -> bool) (soup : node) :
  has_kept_block soup = false -> has_kept_block (prune_node p soup) = false.
Proof.
  unfold has_kept_block. intros H.
  destruct (existsb kept_block (self_and_descendants (prune_node p soup)))
    eqn:E; [|reflexivity].
  apply existsb_exists in E as (n' & Hin & Hk).
  assert (Hn : exists n, In n (self_and_descendants soup)
                         /\ n' = prune_node p n).
  { destruct soup as [s|s|i nm at_ sub]; simpl in Hin.
    - destruct Hin as [<-|[]]. exists (NavigableString s). simpl. auto.
    - destruct Hin as [<-|[]]. exists (Comment s). simpl. auto.
    - destruct Hin as [<-|Hin].
      + exists (Tag i nm at_ sub). simpl. auto.
      + apply (in_descendants_prune p sub) in Hin as (n & Hn & ->).
        exists n. split; [|reflexivity]. simpl. right. exact Hn. }
  destruct Hn as (n & Hn & ->). rewrite kept_block_prune in Hk.
  assert (E : existsb kept_block (self_and_descendants soup) = true).
  { apply existsb_exists. eauto. }
  congruence.
Qed.

Lemma find_state (name : str) (t : nat) (soup soup' : node) r :
  find name t soup = Ok (r, soup') -> soup' = soup.
Proof.
  unfold find, find_all, contents, bind, ret. now intros [= _ <-].
Qed.

Lemma text_of_first_state (name : str) (t : nat) (soup soup' : node) r :
  text_of_first name t soup = Ok (r, soup') -> soup' = soup.
Proof.
  unfold text_of_first. intros H.
  apply bind_ok in H as (e & s1 & Hf & H). apply find_state in Hf. subst s1.
  destruct e as [e|].
  - unfold get_text_strip, contents, bind, ret in H. now injection H as _ <-.
  - apply ret_ok in H as [_ ->]. reflexivity.
Qed.

Lemma parse_def_keeps_none (d : nat) (soup soup' : node) r :
  parse_def d soup = Ok (r, soup') ->
  has_kept_block soup = false -> has_kept_block soup' = false.
Proof.
  unfold parse_def. intros H Hk.
  apply bind_ok in H as (e & s1 & Hf & H). apply find_state in Hf. subst s1.
  apply bind_ok in H as (cn & s1 & Hcn & H).
  assert (s1 = soup) as ->.
  { destruct e as [e|].
    - unfold get_text_strip, contents, bind, ret in Hcn.
      now injection Hcn as _ <-.
    - now apply ret_ok in Hcn as [_ ->]. }
  apply bind_ok in H as (u1 & s1 & H1 & H).
  rewrite decompose_all_run in H1. injection H1 as _ <-.
  apply bind_ok in H as (u2 & s2 & H2 & H).
  rewrite decompose_all_run in H2. injection H2 as _ <-.
  apply bind_ok in H as (en & s3 & H3 & H).
  unfold get_text_strip, contents, bind, ret in H3. injection H3 as _ <-.
  apply ret_ok in H as [_ ->].
  now do 2 apply has_kept_block_prune.
Qed.

Lemma entry_head_keeps_none (entry : nat) (soup soup' : node) r :
  entry_head entry soup = Ok (r, soup') ->
  has_kept_block soup = false -> has_kept_block soup' = false.
Proof.
  unfold entry_head. intros H Hk.
  apply bind_ok in H as (head & s1 & Hf & H). apply find_state in Hf. subst s1.
  destruct head as [head|]; [|now apply ret_ok in H as [_ ->]].
  apply bind_ok in H as (pos & s1 & Hp & H).
  apply text_of_first_state in Hp. subst s1.
  apply bind_ok in H as (sn & s1 & Hn & H).
  apply text_of_first_state in Hn. subst s1.
  apply bind_ok in H as (def & s1 & Hd & H). apply find_state in Hd. subst s1.
  apply bind_ok in H as (defs & s1 & Hdefs & H).
  apply ret_ok in H as [_ ->].
  destruct def as [def|].
  - eapply parse_def_keeps_none; eauto.
  - now apply ret_ok in Hdefs as [_ ->].
Qed.

Lemma for_each_fixed (X A : Type) (body : X -> A -> M A) (acc : A)
    (soup : node) (xs : list X) :
  (forall x, In x xs -> body x acc soup = Ok (acc, soup)) ->
  for_each xs body acc soup = Ok (acc, soup).
Proof.
  induction xs as [|x xs IH]; intros H; [reflexivity|].
  cbn [for_each]. erewrite bind_run by (apply H; simpl; auto).
  apply IH. intros y Hy. apply H. simpl. auto.
Qed.

Lemma entry_groups_none (entry : nat) (soup : node) :
  well_formed soup -> has_kept_block soup = false ->
  entry_groups entry soup = Ok ([], soup).
Proof.
  intros Hwf Hk. unfold entry_groups.
  erewrite bind_run by apply find_all_run.
  apply for_each_fixed. intros blk Hblk.
  unfold matching in Hblk. apply in_ids_of in Hblk as (nm & at_ & sub & Hin).
  apply filter_In in Hin as [Hin Hname].
  assert (Hdoc : In (Tag blk nm at_ sub) (descendants [soup])).
  { unfold contents_in in Hin.
    destruct (lookup entry soup) as [[s|s|i nm' at' cs]|] eqn:Hl;
      try destruct Hin.
    apply lookup_some in Hl as [Hl _].
    exact (descendants_below _ _ _ _ _ Hl _ Hin). }
  apply (@parse_blk_skipped soup blk nm at_ sub [] (@lookup_in blk soup nm at_ sub Hwf Hdoc)).
  destruct (existsb (Str.eqb (dict_get (lit "sl") at_ [])) KEEP_SL_TYPES)
    eqn:E; [|reflexivity].
  assert (Hkept : kept_block (Tag blk nm at_ sub) = true).
  { cbn [kept_block]. rewrite E, andb_true_r.
    cbn [has_name existsb] in Hname. now rewrite orb_false_r in Hname. }
  assert (E2 : has_kept_block soup = true).
  { unfold has_kept_block. apply existsb_exists.
    exists (Tag blk nm at_ sub). split; [|assumption].
    now rewrite <- descendants_root. }
  congruence.
Qed.

Lemma parse_entry_none (word : str) (entry : nat) (soup : node) :
  well_formed soup -> has_kept_block soup = false ->
  exists soup',
    parse_entry word entry soup = Ok (None, soup')
    /\ well_formed soup' /\ has_kept_block soup' = false.
Proof.
  intros Hwf Hk. unfold parse_entry.
  erewrite bind_run by (now apply entry_headword_run).
  destruct (entry_head_run entry Hwf) as (soup1 & Hhead & Hwf1).
  pose proof (entry_head_keeps_none _ _ Hhead Hk) as Hk1.
  erewrite bind_run by exact Hhead.
  destruct (spec_head (contents_in soup entry)) as [[[pos sn] en] cn].
  erewrite bind_run by (now apply entry_groups_none).
  exists soup1. split; [reflexivity | auto].
Qed.

Lemma add_cards_none (word : str) (entries : list nat) (soup : node) :
  well_formed soup -> has_kept_block soup = false ->
  exists soup', for_each entries (add_card word) [] soup = Ok ([], soup').
Proof.
  revert soup. induction entries as [|entry entries IH]; intros soup Hwf Hk.
  - exists soup. reflexivity.
  - cbn [for_each]. unfold add_card at 1.
    destruct (parse_entry_none word entry Hwf Hk) as (soup1 & Hrun & Hwf1 & Hk1).
    erewrite bind_run by (erewrite bind_run by exact Hrun; reflexivity).
    now apply IH.
Qed.

(** X16. A document in which no [sl-g-blk] element has a type code of
    the allow-list gives no card at all, for any queried word, and the
    extractor does not fail on it. *)
Theorem no_kept_block_no_card (html_content : list markup) (word : str) :
  has_kept_block (BeautifulSoup_from 0 html_content) = false ->
  parse_collocation_html html_content word = Ok [].
Proof.
  intros Hk. unfold parse_collocation_html, parse_collocation_html_from.
  destruct html_content as [|m ms]; [reflexivity|].
  unfold parse_soup. erewrite bind_run by apply find_all_run.
  destruct (add_cards_none word
              (matching [lit "entry"]
                 (contents_in (BeautifulSoup_from 0 (m :: ms)) 0))
              (BeautifulSoup_well_formed 0 (m :: ms)) Hk) as (soup' & ->).
  reflexivity.
Qed.

Lemma no_kept_block_no_card_witness :
  parse_collocation_html [idiom_entry; el "entry" [tx "accord"]]
    (lit "accord") = Ok [].
Proof.
  apply (@no_kept_block_no_card [idiom_entry; el "entry" [tx "accord"]]).
  vm_compute. reflexivity.
Defined.

(** ** The texts inside the fragment *)

Lemma part_refl (s : str) : part_of s s.
Proof. exists [], []. now rewrite app_nil_r. Qed.

Lemma part_nil (t : str) : part_of [] t.
Proof. exists t, []. now rewrite app_nil_r. Qed.

Lemma part_app_l (s a b : str) : part_of s a -> part_of s (a ++ b).
Proof.
  intros (x & y & ->). exists x, (y ++ b). now rewrite <- !app_assoc.
Qed.

Lemma part_app_r (s a b : str) : part_of s b -> part_of s (a ++ b).
Proof.
  intros (x & y & ->). exists (a ++ x), y. now rewrite <- !app_assoc.
Qed.

Lemma part_concat (s p : str) (l : list str) :
  In p l -> part_of s p -> part_of s (concat l).
Proof.
  induction l as [|q l IH]; intros Hin Hs; [destruct Hin|].
  cbn [concat]. destruct Hin as [<-|Hin].
  - now apply part_app_l.
  - apply part_app_r. now apply IH.
Qed.

Lemma part_join (s p sep : str) (l : list str) :
  In p l -> part_of s p -> part_of s (join sep l).
Proof.
  induction l as [|q l IH]; intros Hin Hs; [destruct Hin|].
  destruct l as [|r l].
  - destruct Hin as [<-|[]]. exact Hs.
  - change (join sep (q :: r :: l)) with (q ++ sep ++ join sep (r :: l)).
    destruct Hin as [<-|Hin]; [now apply part_app_l|].
    do 2 apply part_app_r. now apply IH.
Qed.

Lemma part_render_example (s : str) (ex : Example.t) :
  In s (example_texts ex) -> part_of s (render_example ex).
Proof.
  unfold example_texts, render_example. intros [<-|[<-|[]]].
  - apply part_app_r, part_app_l. do 2 apply part_app_r.
    apply part_app_l, part_refl.
  - destruct (Example.cn ex) as [|c cn] eqn:E; [apply part_nil|].
    cbn [nonempty]. do 2 apply part_app_r. apply part_app_l.
    apply part_app_r, part_app_l, part_refl.
Qed.

Lemma part_render_item (s : str) (item : Item.t) :
  In s (item_texts item) -> part_of s (render_item item).
Proof.
  unfold item_texts, render_item. cbv zeta. intros Hin.
  apply in_app_or in Hin as [Hin|Hin]; [|apply in_app_or in Hin as [Hin|Hin]].
  - apply part_app_r, part_app_l, part_app_r, part_app_l.
    assert (Hj : part_of s
                   (join (lit " " ++ open_tag "span" "sep" ++ lit "|</span> ")
                      (List.map render_word (Item.words item)))).
    { apply (@part_join s (render_word s)); [now apply in_map|].
      unfold render_word. apply part_app_r, part_app_l, part_refl. }
    destruct (nonempty (Item.chn item)); [now apply part_app_l | exact Hj].
  - destruct Hin as [<-|[]].
    destruct (Item.chn item) as [|c chn] eqn:E; [apply part_nil|].
    cbn [nonempty]. apply part_app_r, part_app_l, part_app_r, part_app_l.
    do 2 apply part_app_r. apply part_app_l, part_refl.
  - apply in_flat_map in Hin as (ex & Hex & Hin).
    do 2 apply part_app_r. apply part_app_l.
    apply (@part_concat s (render_example ex)); [now apply in_map|].
    now apply part_render_example.
Qed.

Lemma part_render_group (s : str) (group : Group.t) :
  In s (group_texts group) -> part_of s (render_group group).
Proof.
  unfold group_texts, render_group. intros [<-|Hin].
  - apply part_app_r, part_app_l, part_app_r, part_app_l, part_refl.
  - apply in_flat_map in Hin as (item & Hitem & Hin).
    do 2 apply part_app_r. apply part_app_l.
    apply (@part_concat s (render_item item)); [now apply in_map|].
    now apply part_render_item.
Qed.

(** X11. The rendered fragment takes the texts of the card as they are:
    the category of every group, every word and the note of every item,
    and both lines of every example stand in it unchanged, each as one
    piece; and the markup around them holds no control character, so that
    a code point below 32 (tab, newline, carriage return) is in the
    fragment exactly when it is in one of those texts. *)
Theorem fragment_takes_the_texts_as_they_are (card : Card.t) :
  (forall s, In s (card_texts card) ->
             part_of s (generate_collocations_html card))
  /\ (forall c, (c < 32)%N ->
        has_char c (generate_collocations_html card)
        = existsb (has_char c) (card_texts card)).
Proof.
  split.
  - intros s Hs. unfold card_texts in Hs.
    apply in_flat_map in Hs as (g & Hg & Hs).
    unfold generate_collocations_html.
    apply (@part_concat s (render_group g)); [now apply in_map|].
    now apply part_render_group.
  - intros c Hc.
    assert (Hin : forall s, has_char c s = true <-> In c s).
    { intros s. unfold has_char. rewrite existsb_exists. split.
      - intros (x & Hx & Heq). apply N.eqb_eq in Heq. now subst.
      - intros H. exists c. split; [assumption | apply N.eqb_refl]. }
    destruct (has_char c (generate_collocations_html card)) eqn:E1;
      destruct (existsb (has_char c) (card_texts card)) eqn:E2;
      try reflexivity; exfalso.
    + apply Hin, (In_fragment Hc) in E1 as (s & Hs & H).
      assert (E : existsb (has_char c) (card_texts card) = true).
      { apply existsb_exists. exists s. split; [assumption | now apply Hin]. }
      congruence.
    + apply existsb_exists in E2 as (s & Hs & H). apply Hin in H.
      assert (E : has_char c (generate_collocations_html card) = true).
      { apply Hin, (In_fragment Hc). eauto. }
      congruence.
Qed.

(** * What a round of a loop can change *)

Lemma prune_node_ext (p q : node -> bool) (n : node) :
  (forall m, p m = q m) -> prune_node p n = prune_node q n.
Proof.
  intros H. destruct n as [s|s|i nm at_ sub]; try reflexivity.
  rewrite !prune_node_tag. f_equal. apply prune_ext. intros m _. apply H.
Qed.

Lemma prune_node_id_in_nil (soup : node) : prune_node (id_in []) soup = soup.
Proof. apply prune_node_nothing. reflexivity. Qed.

Lemma prune_node_id_in_app (D1 D2 : list nat) (soup : node) :
  prune_node (id_in D2) (prune_node (id_in D1) soup)
  = prune_node (id_in (D1 ++ D2)) soup.
Proof.
  rewrite prune_node_prune_node by (intros; apply id_in_prune).
  apply prune_node_ext. intros m. unfold id_in. now rewrite existsb_app.
Qed.

Lemma pruned_refl (U : list nat) (soup : node) : pruned_within U soup soup.
Proof.
  exists []. split; [intros i [] | now rewrite prune_node_id_in_nil].
Qed.

Lemma pruned_trans (U : list nat) (s1 s2 s3 : node) :
  pruned_within U s1 s2 -> pruned_within U s2 s3 -> pruned_within U s1 s3.
Proof.
  intros (D1 & H1 & ->) (D2 & H2 & ->). exists (D1 ++ D2). split.
  - now apply incl_app.
  - apply prune_node_id_in_app.
Qed.

Lemma in_descendants_prune_node (p : node -> bool) (soup n' : node) :
  In n' (self_and_descendants (prune_node p soup)) ->
  exists n, In n (self_and_descendants soup) /\ n' = prune_node p n.
Proof.
  destruct soup as [s|s|i nm at_ sub]; simpl; intros Hin.
  - destruct Hin as [<-|[]]. exists (NavigableString s). simpl. auto.
  - destruct Hin as [<-|[]]. exists (Comment s). simpl. auto.
  - destruct Hin as [<-|Hin].
    + exists (Tag i nm at_ sub). simpl. auto.
    + apply (in_descendants_prune p sub) in Hin as (n & Hn & ->).
      exists n. split; [|reflexivity]. simpl. right. exact Hn.
Qed.

Lemma lookup_prune_node (p : node -> bool) (soup : node) t nm at_ sub' :
  well_formed soup ->
  lookup t (prune_node p soup) = Some (Tag t nm at_ sub') ->
  exists sub, lookup t soup = Some (Tag t nm at_ sub) /\ sub' = prune p sub.
Proof.
  intros Hwf Hl. apply lookup_some in Hl as [Hin _].
  rewrite descendants_root in Hin.
  apply in_descendants_prune_node in Hin as (n & Hn & Heq).
  destruct n as [s|s|i nm0 at0 sub]; try discriminate.
  rewrite prune_node_tag in Heq. injection Heq as <- <- <- ->.
  exists sub. split; [|reflexivity].
  apply lookup_in; [assumption | now rewrite descendants_root].
Qed.

Lemma contents_in_prune_incl (p : node -> bool) (soup : node) (t : nat) :
  well_formed soup ->
  incl (ids (contents_in (prune_node p soup) t)) (ids (contents_in soup t)).
Proof.
  intros Hwf. unfold contents_in at 1.
  destruct (lookup t (prune_node p soup)) as [n'|] eqn:E; [|intros i []].
  destruct (lookup_some _ _ E) as [_ (nm & at_ & sub' & ->)].
  destruct (lookup_prune_node _ Hwf E) as (sub & Hl & ->).
  rewrite (contents_in_lookup _ Hl). apply ids_prune_incl.
Qed.

Lemma closed_step (A : nat) (U : list nat) (s s' : node) :
  closed_below A U s -> pruned_within U s s' -> closed_below A U s'.
Proof.
  intros [Hwf Hcl] (D & _ & ->). split; [now apply well_formed_prune_node|].
  intros t Ht i Hi. apply (Hcl t Ht).
  eapply contents_in_prune_incl; eassumption.
Qed.

Lemma hd_error_In (A : Type) (l : list A) (x : A) :
  hd_error l = Some x -> In x l.
Proof. destruct l; [discriminate|]. intros [= ->]. now left. Qed.

Lemma direct_ids_incl (names : list str) (cs : list node) :
  incl (ids_of (filter (has_name names) cs)) (ids cs).
Proof.
  intros i Hi. apply in_ids_of in Hi as (nm & at_ & sub & Hi).
  apply filter_In in Hi as [Hi _]. apply in_ids_of.
  exists nm, at_, sub. now apply in_descendants_top.
Qed.

Section Below.

Variables (A : nat) (U : list nat).

Lemma find_below (name : str) (t e : nat) (s s' : node) :
  closed_below A U s -> In t (A :: U) ->
  find name t s = Ok (Some e, s') -> In e U.
Proof.
  intros [_ Hcl] Ht H. unfold find, find_all, contents, bind, ret in H.
  injection H as H _. apply hd_error_In in H.
  apply (Hcl t Ht). eapply matching_ids_incl; eassumption.
Qed.

Lemma find_all_below (names : list str) (t : nat) (l : list nat) (s s' : node) :
  closed_below A U s -> In t (A :: U) ->
  find_all names t s = Ok (l, s') -> s' = s /\ incl l U.
Proof.
  intros [_ Hcl] Ht H. unfold find_all, contents, bind, ret in H.
  injection H as <- <-. split; [reflexivity|].
  intros i Hi. apply (Hcl t Ht). eapply matching_ids_incl; eassumption.
Qed.

Lemma find_all_direct_below (name : str) (t : nat) (l : list nat)
    (s s' : node) :
  closed_below A U s -> In t (A :: U) ->
  find_all_direct name t s = Ok (l, s') -> s' = s /\ incl l U.
Proof.
  intros [_ Hcl] Ht H. unfold find_all_direct, contents, bind, ret in H.
  injection H as <- <-. split; [reflexivity|].
  intros i Hi. apply (Hcl t Ht). eapply direct_ids_incl; eassumption.
Qed.

Lemma decompose_all_below (names : list str) (t : nat) (s s' : node) u :
  closed_below A U s -> In t (A :: U) ->
  decompose_all names t s = Ok (u, s') -> pruned_within U s s'.
Proof.
  intros [_ Hcl] Ht H. rewrite decompose_all_run in H. injection H as _ <-.
  eexists. split; [|reflexivity].
  intros i Hi. apply (Hcl t Ht). eapply matching_ids_incl; eassumption.
Qed.

Lemma get_text_strip_state (t : nat) (s s' : node) r :
  get_text_strip t s = Ok (r, s') -> s' = s.
Proof. unfold get_text_strip, contents, bind, ret. now intros [= _ <-]. Qed.

Lemma get_text_state (t : nat) (s s' : node) r :
  get_text t s = Ok (r, s') -> s' = s.
Proof. unfold get_text, contents, bind, ret. now intros [= _ <-]. Qed.

Lemma text_or_state (e : option nat) (default r : str) (s s' : node) :
  match e with Some e => get_text_strip e | None => ret default end s
  = Ok (r, s') -> s' = s.
Proof.
  destruct e; [apply get_text_strip_state|].
  intros H. now apply ret_ok in H as [_ ->].
Qed.

Lemma for_each_below (X B : Type) (body : X -> B -> M B) (xs : list X) :
  (forall x acc s r s',
      In x xs -> closed_below A U s -> body x acc s = Ok (r, s') ->
      pruned_within U s s') ->
  forall acc s r s',
    closed_below A U s -> for_each xs body acc s = Ok (r, s') ->
    pruned_within U s s'.
Proof.
  induction xs as [|x xs IH]; intros Hb acc s r s' Hc H.
  - apply ret_ok in H as [_ ->]. apply pruned_refl.
  - cbn [for_each] in H. apply bind_ok in H as (a' & s1 & H1 & H).
    pose proof (Hb _ _ _ _ _ (or_introl eq_refl) Hc H1) as Hs1.
    eapply pruned_trans; [exact Hs1|].
    eapply IH; [|eapply closed_step; eauto|exact H].
    intros y acc0 s0 r0 s0' Hy. apply Hb. now right.
Qed.

Lemma parse_cl_below (cl : nat) acc (s s' : node) r :
  closed_below A U s -> In cl (A :: U) ->
  parse_cl cl acc s = Ok (r, s') -> pruned_within U s s'.
Proof.
  intros Hc Hcl H. unfold parse_cl in H. destruct acc as [collocations chn_text].
  apply bind_ok in H as (chn & s1 & Hf & H). apply find_state in Hf. subst s1.
  apply bind_ok in H as (ct & s1 & Ht & H). apply text_or_state in Ht. subst s1.
  apply bind_ok in H as (u & s1 & Hd & H).
  apply bind_ok in H as (tx & s2 & Hg & H).
  apply get_text_strip_state in Hg. subst s2.
  apply ret_ok in H as [_ ->].
  eapply decompose_all_below; [exact Hc | exact Hcl | exact Hd].
Qed.

Lemma parse_x_blk_below (x_blk : nat) acc (s s' : node) r :
  closed_below A U s -> In x_blk (A :: U) ->
  parse_x_blk x_blk acc s = Ok (r, s') -> pruned_within U s s'.
Proof.
  intros Hc Hx H. unfold parse_x_blk in H.
  apply bind_ok in H as (x & s1 & Hf & H).
  pose proof (find_state Hf) as ->.
  destruct x as [x|]; [|apply ret_ok in H as [_ ->]; apply pruned_refl].
  assert (Hx' : In x U)
    by (eapply find_below; [exact Hc | exact Hx | exact Hf]).
  apply bind_ok in H as (chn & s1 & Hf2 & H). apply find_state in Hf2. subst s1.
  apply bind_ok in H as (ct & s1 & Ht & H). apply text_or_state in Ht. subst s1.
  apply bind_ok in H as (u & s1 & Hd & H).
  apply bind_ok in H as (tx & s2 & Hg & H).
  apply get_text_strip_state in Hg. subst s2.
  apply ret_ok in H as [_ ->].
  eapply decompose_all_below; [exact Hc | right; exact Hx' | exact Hd].
Qed.

Lemma parse_sb_g_below (sb_g : nat) (s s' : node) r :
  closed_below A U s -> In sb_g (A :: U) ->
  _parse_sb_g sb_g s = Ok (r, s') -> pruned_within U s s'.
Proof.
  intros Hc Hsb H. unfold _parse_sb_g in H.
  apply bind_ok in H as ([collocations chn_text] & s1 & Hcol & H).
  assert (H1 : pruned_within U s s1).
  { unfold collocations_of in Hcol.
    apply bind_ok in Hcol as (cls & s0 & Hf & Hcol).
    assert (Hf' : s0 = s /\ incl cls U)
      by (eapply find_all_direct_below; [exact Hc | exact Hsb | exact Hf]).
    destruct Hf' as [-> Hcls].
    eapply for_each_below; [|exact Hc|exact Hcol].
    intros cl acc s2 r2 s2' Hin Hc2 Hrun.
    eapply parse_cl_below; [exact Hc2 | | exact Hrun]; right; now apply Hcls. }
  destruct collocations as [|w ws].
  - apply ret_ok in H as [_ ->]. exact H1.
  - apply bind_ok in H as (examples & s2 & Hex & H).
    apply ret_ok in H as [_ ->].
    eapply pruned_trans; [exact H1|].
    pose proof (closed_step Hc H1) as Hc1.
    unfold examples_of in Hex.
    apply bind_ok in Hex as (xs & s0 & Hf & Hex).
    assert (Hf' : s0 = s1 /\ incl xs U)
      by (eapply find_all_direct_below; [exact Hc1 | exact Hsb | exact Hf]).
    destruct Hf' as [-> Hxs].
    eapply for_each_below; [|exact Hc1|exact Hex].
    intros x acc s3 r3 s3' Hin Hc3 Hrun.
    eapply parse_x_blk_below; [exact Hc3 | | exact Hrun]; right; now apply Hxs.
Qed.

Lemma parse_blk_below (blk : nat) acc (s s' : node) r :
  closed_below A U s -> In blk (A :: U) ->
  parse_blk blk acc s = Ok (r, s') -> pruned_within U s s'.
Proof.
  intros Hc Hblk H. unfold parse_blk in H.
  apply bind_ok in H as (sl_type & s1 & Hg & H). apply get_pure in Hg. subst s1.
  destruct (negb (existsb (Str.eqb sl_type) KEEP_SL_TYPES)).
  { apply ret_ok in H as [_ ->]. apply pruned_refl. }
  apply bind_ok in H as (head & s1 & Hf & H). apply find_state in Hf. subst s1.
  apply bind_ok in H as (title & s1 & Ht & H).
  assert (s1 = s) as ->.
  { destruct head; [now apply get_text_state in Ht|].
    now apply ret_ok in Ht as [_ ->]. }
  cbv zeta in H.
  apply bind_ok in H as (sb_gs & s1 & Hf & H).
  assert (Hf' : s1 = s /\ incl sb_gs U)
    by (eapply find_all_below; [exact Hc | exact Hblk | exact Hf]).
  destruct Hf' as [-> Hsb].
  apply bind_ok in H as (items & s1 & Hitems & H).
  apply ret_ok in H as [_ ->].
  eapply for_each_below; [|exact Hc|exact Hitems].
  intros sb acc0 s2 r2 s2' Hin Hc2 Hrun. unfold parse_item in Hrun.
  apply bind_ok in Hrun as (item & s3 & Hrun & Hret).
  apply ret_ok in Hret as [_ ->].
  eapply parse_sb_g_below; [exact Hc2 | | exact Hrun]; right; now apply Hsb.
Qed.

Lemma parse_def_below (d : nat) (s s' : node) r :
  closed_below A U s -> In d (A :: U) ->
  parse_def d s = Ok (r, s') -> pruned_within U s s'.
Proof.
  intros Hc Hd H. unfold parse_def in H.
  apply bind_ok in H as (e & s1 & Hf & H). apply find_state in Hf. subst s1.
  apply bind_ok in H as (cn & s1 & Ht & H). apply text_or_state in Ht. subst s1.
  apply bind_ok in H as (u1 & s1 & H1 & H).
  assert (H1' : pruned_within U s s1)
    by (eapply decompose_all_below; [exact Hc | exact Hd | exact H1]).
  pose proof (closed_step Hc H1') as Hc1.
  apply bind_ok in H as (u2 & s2 & H2 & H).
  assert (H2' : pruned_within U s1 s2)
    by (eapply decompose_all_below; [exact Hc1 | exact Hd | exact H2]).
  apply bind_ok in H as (en & s3 & H3 & H).
  apply get_text_strip_state in H3. subst s3.
  apply ret_ok in H as [_ ->].
  eapply pruned_trans; eauto.
Qed.

Lemma entry_head_below (s s' : node) r :
  closed_below A U s ->
  entry_head A s = Ok (r, s') -> pruned_within U s s'.
Proof.
  intros Hc H. unfold entry_head in H.
  apply bind_ok in H as (head & s1 & Hf & H).
  pose proof (find_state Hf) as ->.
  destruct head as [head|]; [|apply ret_ok in H as [_ ->]; apply pruned_refl].
  assert (Hhead : In head U)
    by (eapply find_below; [exact Hc | left; reflexivity | exact Hf]).
  apply bind_ok in H as (pos & s1 & Hp & H).
  apply text_of_first_state in Hp. subst s1.
  apply bind_ok in H as (sn & s1 & Hn & H).
  apply text_of_first_state in Hn. subst s1.
  apply bind_ok in H as (def & s1 & Hd & H).
  pose proof (find_state Hd) as ->.
  apply bind_ok in H as (defs & s1 & Hdefs & H).
  apply ret_ok in H as [_ ->].
  destruct def as [def|].
  - assert (Hdef : In def U)
      by (eapply find_below; [exact Hc | right; exact Hhead | exact Hd]).
    eapply parse_def_below; [exact Hc | right; exact Hdef | exact Hdefs].
  - apply ret_ok in Hdefs as [_ ->]. apply pruned_refl.
Qed.

Lemma entry_groups_below (s s' : node) r :
  closed_below A U s ->
  entry_groups A s = Ok (r, s') -> pruned_within U s s'.
Proof.
  intros Hc H. unfold entry_groups in H.
  apply bind_ok in H as (blks & s1 & Hf & H).
  assert (Hf' : s1 = s /\ incl blks U)
    by (eapply find_all_below; [exact Hc | left; reflexivity | exact Hf]).
  destruct Hf' as [-> Hblks].
  eapply for_each_below; [|exact Hc|exact H].
  intros blk acc s2 r2 s2' Hin Hc2 Hrun.
  eapply parse_blk_below; [exact Hc2 | | exact Hrun]; right; now apply Hblks.
Qed.

Lemma parse_entry_below (word : str) (s s' : node) r :
  closed_below A U s ->
  parse_entry word A s = Ok (r, s') -> pruned_within U s s'.
Proof.
  intros Hc H. unfold parse_entry in H.
  apply bind_ok in H as (headword & s1 & Hw & H).
  assert (s1 = s) as ->.
  { unfold entry_headword in Hw.
    apply bind_ok in Hw as (h & s0 & Hf & Hw). apply find_state in Hf.
    subst s0. now apply text_or_state in Hw. }
  apply bind_ok in H as ([[[pos sn] en] cn] & s1 & Hhead & H).
  assert (H1 : pruned_within U s s1)
    by (eapply entry_head_below; [exact Hc | exact Hhead]).
  pose proof (closed_step Hc H1) as Hc1.
  apply bind_ok in H as (groups & s2 & Hg & H).
  assert (H2 : pruned_within U s1 s2)
    by (eapply entry_groups_below; [exact Hc1 | exact Hg]).
  assert (s' = s2) as ->.
  { destruct groups; now apply ret_ok in H as [_ ->]. }
  eapply pruned_trans; eauto.
Qed.

End Below.

(** * Tags that a pruning leaves alone *)

Lemma disjoint_ids_spec (a b : list nat) (i : nat) :
  disjoint_ids a b = true -> In i a -> In i b -> False.
Proof.
  unfold disjoint_ids. intros H Ha Hb. rewrite forallb_forall in H.
  apply H in Ha. apply negb_true_iff in Ha.
  assert (E : existsb (Nat.eqb i) b = true).
  { apply existsb_exists. exists i. split; [assumption | apply Nat.eqb_refl]. }
  congruence.
Qed.

Lemma self_in_self_and_descendants (n : node) : In n (self_and_descendants n).
Proof. destruct n; simpl; auto. Qed.

Lemma self_and_descendants_tag i nm at_ sub :
  self_and_descendants (Tag i nm at_ sub) = Tag i nm at_ sub :: descendants sub.
Proof. reflexivity. Qed.

Lemma prune_node_spares (p : node -> bool) (n : node) :
  (forall m, In m (self_and_descendants n) -> p m = false) ->
  prune_node p n = n.
Proof.
  intros H. destruct n as [s|s|i nm at_ sub]; try reflexivity.
  rewrite prune_node_tag. f_equal. apply prune_nothing.
  intros m Hm. apply H. rewrite self_and_descendants_tag. now right.
Qed.

Lemma prune_spares (p : node -> bool) (cs : list node) :
  forall n,
    In n (descendants cs) ->
    (forall m, In m (descendants cs) -> p m = true ->
               ~ In n (self_and_descendants m)) ->
    In (prune_node p n) (descendants (prune p cs)).
Proof.
  induction cs as [|s cs IH|s cs IH|i nm at_ sub cs IHsub IH] using forest_ind;
    intros n Hin Hp.
  - destruct Hin.
  - rewrite descendants_cons in Hin. cbn [self_and_descendants app] in Hin.
    rewrite prune_cons, descendants_app. apply in_or_app.
    destruct Hin as [<-|Hin].
    + left. destruct (p (NavigableString s)) eqn:E.
      * exfalso. apply (Hp (NavigableString s)); simpl; auto.
      * simpl. auto.
    + right. apply IH; [assumption|]. intros m Hm. apply Hp.
      rewrite descendants_cons. apply in_or_app. now right.
  - rewrite descendants_cons in Hin. cbn [self_and_descendants app] in Hin.
    rewrite prune_cons, descendants_app. apply in_or_app.
    destruct Hin as [<-|Hin].
    + left. destruct (p (Comment s)) eqn:E.
      * exfalso. apply (Hp (Comment s)); simpl; auto.
      * simpl. auto.
    + right. apply IH; [assumption|]. intros m Hm. apply Hp.
      rewrite descendants_cons. apply in_or_app. now right.
  - rewrite descendants_tag in Hin.
    rewrite prune_cons, descendants_app. apply in_or_app.
    destruct Hin as [<-|Hin]; [|apply in_app_or in Hin as [Hin|Hin]].
    + left. destruct (p (Tag i nm at_ sub)) eqn:E.
      * exfalso. apply (Hp (Tag i nm at_ sub)); [simpl; auto | exact E |].
        apply self_in_self_and_descendants.
      * rewrite prune_node_tag, descendants_tag. now left.
    + left. destruct (p (Tag i nm at_ sub)) eqn:E.
      * exfalso. apply (Hp (Tag i nm at_ sub)); [simpl; auto | exact E |].
        rewrite self_and_descendants_tag. now right.
      * rewrite prune_node_tag, descendants_tag. right.
        apply in_or_app. left. apply IHsub; [assumption|].
        intros m Hm. apply Hp. rewrite descendants_tag. right.
        apply in_or_app. now left.
    + right. apply IH; [assumption|]. intros m Hm. apply Hp.
      rewrite descendants_tag. right. apply in_or_app. now right.
Qed.

Lemma lookup_spared (D : list nat) (s : node) B nm at_ bc :
  well_formed s ->
  lookup B s = Some (Tag B nm at_ bc) ->
  (forall m, In m (descendants [s]) -> id_in D m = true ->
             ~ In (Tag B nm at_ bc) (self_and_descendants m)) ->
  (forall m, In m (self_and_descendants (Tag B nm at_ bc)) ->
             id_in D m = false) ->
  lookup B (prune_node (id_in D) s) = Some (Tag B nm at_ bc).
Proof.
  intros Hwf Hl H1 H2. apply lookup_some in Hl as [Hin _].
  apply lookup_in; [now apply well_formed_prune_node|].
  pose proof (prune_spares (id_in D) [s] _ Hin H1) as H.
  rewrite (prune_node_spares _ _ H2) in H.
  assert (E : id_in D s = false).
  { destruct (id_in D s) eqn:E; [|reflexivity]. exfalso.
    apply (H1 s); [|exact E|].
    - rewrite descendants_root. apply self_in_self_and_descendants.
    - now rewrite <- descendants_root. }
  rewrite prune_cons, E in H. exact H.
Qed.

Lemma contents_below (s : node) (A : nat) :
  incl (descendants (contents_in s A)) (descendants [s]).
Proof.
  unfold contents_in.
  destruct (lookup A s) as [[x|x|i nm at_ cs]|] eqn:Hl; try (intros n []).
  apply lookup_some in Hl as [Hin _].
  exact (descendants_below _ _ _ _ _ Hin).
Qed.

Lemma tag_of_id (s : node) (m : node) (d : nat) (cs : list node) :
  well_formed s ->
  In m (descendants [s]) -> node_id m = Some d ->
  In d (ids cs) -> incl (descendants cs) (descendants [s]) ->
  In m (descendants cs).
Proof.
  intros Hwf Hm Hid Hd Hcs.
  destruct m as [x|x|i nm at_ sub]; try discriminate. injection Hid as ->.
  apply in_ids_of in Hd as (nm' & at' & sub' & Hd).
  pose proof (@lookup_in _ _ _ _ _ Hwf Hm) as E1.
  pose proof (@lookup_in _ _ _ _ _ Hwf (Hcs _ Hd)) as E2.
  rewrite E1 in E2. injection E2 as <- <- <-. exact Hd.
Qed.

Lemma lookup_apart (D : list nat) (s : node) (A B : nat) nm at_ bc :
  well_formed s ->
  lookup B s = Some (Tag B nm at_ bc) ->
  incl D (ids (contents_in s A)) ->
  disjoint_ids (subtree_ids s A) (subtree_ids s B) = true ->
  lookup B (prune_node (id_in D) s) = Some (Tag B nm at_ bc).
Proof.
  intros Hwf Hl HD Hdis.
  assert (HB : subtree_ids s B = B :: ids bc).
  { unfold subtree_ids. now rewrite (contents_in_lookup _ Hl). }
  rewrite HB in Hdis.
  assert (Hno : forall d, In d (ids (contents_in s A)) ->
                          In d (B :: ids bc) -> False).
  { intros d Hd1 Hd2. apply (disjoint_ids_spec _ _ d Hdis); [|assumption].
    unfold subtree_ids. now right. }
  apply (lookup_spared D Hwf Hl).
  - intros m Hm Hid Hin. apply id_in_spec in Hid as (d & Hid & Hd).
    apply HD in Hd.
    pose proof (tag_of_id _ _ Hwf Hm Hid Hd (contents_below s A)) as HmA.
    destruct m as [x|x|i nm' at' sub]; try discriminate.
    injection Hid as ->. rewrite self_and_descendants_tag in Hin.
    destruct Hin as [Heq|Hin].
    + injection Heq as -> _ _ _. apply (Hno B Hd). now left.
    + apply (Hno B); [|now left].
      apply in_ids_of. exists nm, at_, bc.
      exact (descendants_below _ _ _ _ _ HmA _ Hin).
  - intros m Hm. destruct (id_in D m) eqn:E; [|reflexivity]. exfalso.
    apply id_in_spec in E as (d & Hid & Hd). apply HD in Hd.
    apply (Hno d Hd). rewrite self_and_descendants_tag in Hm.
    destruct Hm as [<-|Hm].
    + injection Hid as ->. now left.
    + right. destruct m as [x|x|i nm' at' sub]; try discriminate.
      injection Hid as ->. apply in_ids_of. eauto.
Qed.

(** * The cards of a document whose entries lie apart *)

Lemma closed_start (s : node) (A : nat) :
  well_formed s -> closed_below A (ids (contents_in s A)) s.
Proof.
  intros Hwf. split; [assumption|]. intros t [<-|Ht]; [apply incl_refl|].
  apply in_ids_of in Ht as (nm & at_ & sub & Ht).
  pose proof (@lookup_in _ _ _ _ _ Hwf (contents_below s A _ Ht)) as Hl.
  rewrite (contents_in_lookup _ Hl). intros i Hi.
  apply in_ids_of in Hi as (nm' & at' & sub' & Hi). apply in_ids_of.
  exists nm', at', sub'. exact (descendants_below _ _ _ _ _ Ht _ Hi).
Qed.

Lemma closed_all (s : node) (A : nat) :
  well_formed s -> closed_below A (ids [s]) s.
Proof.
  intros Hwf. split; [assumption|]. intros t _ i Hi.
  apply in_ids_of in Hi as (nm & at_ & sub & Hi). apply in_ids_of.
  exists nm, at_, sub. now apply contents_below in Hi.
Qed.

Lemma subtree_ids_same (s doc : node) (e : nat) :
  lookup e s = lookup e doc -> subtree_ids s e = subtree_ids doc e.
Proof. unfold subtree_ids, contents_in. now intros ->. Qed.

Lemma entries_loop (word : str) (doc : node) (es : list nat) :
  forall (s : node) (acc acc' : list Card.t) (s' : node),
    well_formed s ->
    apart doc es = true ->
    (forall e, In e es -> lookup e doc <> None /\ lookup e s = lookup e doc) ->
    for_each es (add_card word) acc s = Ok (acc', s') ->
    exists rs,
      Forall2 (fun e r => forall card, r = Some card ->
                                       card_of_entry word doc e card) es rs
      /\ acc' = acc ++ flat_map option_list rs.
Proof.
  induction es as [|A rest IH]; intros s acc acc' s' Hwf Hap Hsame H.
  - apply ret_ok in H as [-> _]. exists []. split; [constructor|].
    now rewrite app_nil_r.
  - cbn [for_each] in H. apply bind_ok in H as (acc1 & s1 & Hadd & H).
    unfold add_card in Hadd.
    apply bind_ok in Hadd as (r & s1' & Hentry & Hret).
    apply ret_ok in Hret as [-> ->].
    cbn [apart] in Hap. apply andb_true_iff in Hap as [HapA Hap].
    rewrite forallb_forall in HapA.
    destruct (Hsame A (or_introl eq_refl)) as [_ HA].
    assert (Hprune : pruned_within (ids (contents_in s A)) s s1')
      by (eapply parse_entry_below; [apply closed_start, Hwf | exact Hentry]).
    destruct Hprune as (D & HD & ->).
    assert (Hsame' : forall B, In B rest ->
                lookup B doc <> None
                /\ lookup B (prune_node (id_in D) s) = lookup B doc).
    { intros B HB. destruct (Hsame B (or_intror HB)) as [HBdoc HBs].
      split; [assumption|]. rewrite <- HBs.
      destruct (lookup B s) as [n|] eqn:Hl; [|congruence].
      destruct (lookup_some _ _ Hl) as [_ (nm & at_ & bc & ->)].
      eapply lookup_apart; [exact Hwf | exact Hl | exact HD |].
      rewrite (@subtree_ids_same s doc A HA).
      rewrite (@subtree_ids_same s doc B) by congruence.
      now apply HapA. }
    destruct (IH _ _ _ _ (well_formed_prune_node _ Hwf) Hap Hsame' H)
      as (rs & Hrs & ->).
    exists (r :: rs). split.
    + constructor; [|assumption]. intros card ->.
      destruct (@parse_entry_card _ _ _ _ _ Hwf Hentry) as [Hw Hf].
      destruct (parse_entry_groups _ _ _ Hentry)
        as (soup1 & groups & _ & Hnone & Hsome).
      assert (Hc : contents_in s A = contents_in doc A)
        by (unfold contents_in; now rewrite HA).
      rewrite Hc in Hw, Hf. split; [assumption|]. split; [assumption|].
      rewrite (Hsome card eq_refl). intros Hnil. apply Hnone in Hnil.
      discriminate.
    + destruct r; cbn [flat_map option_list];
        [now rewrite <- app_assoc | reflexivity].
Qed.

Lemma entries_in_document (doc : node) (e : nat) :
  well_formed doc ->
  In e (matching [lit "entry"] (contents_in doc 0)) ->
  lookup e doc <> None.
Proof.
  intros Hwf He. unfold matching in He.
  apply in_ids_of in He as (nm & at_ & sub & He).
  apply filter_In in He as [He _].
  rewrite (@lookup_in _ _ _ _ _ Hwf (contents_below doc 0 _ He)).
  discriminate.
Qed.

Lemma cards_of_apart_entries (html_content : list markup) (word : str)
    (cards : list Card.t) :
  apart (BeautifulSoup_from 0 html_content)
    (matching [lit "entry"]
       (contents_in (BeautifulSoup_from 0 html_content) 0)) = true ->
  parse_collocation_html html_content word = Ok cards ->
  exists rs,
    Forall2 (fun e r =>
               forall card, r = Some card ->
                 card_of_entry word (BeautifulSoup_from 0 html_content) e card)
      (matching [lit "entry"]
         (contents_in (BeautifulSoup_from 0 html_content) 0)) rs
    /\ cards = flat_map option_list rs.
Proof.
  intros Hap. unfold parse_collocation_html, parse_collocation_html_from.
  destruct html_content as [|m ms].
  - intros [= <-]. exists []. split; [constructor | reflexivity].
  - destruct (parse_soup 0 word (BeautifulSoup_from 0 (m :: ms)))
      as [[cards' soup']|] eqn:Hrun; [|discriminate].
    intros [= ->]. unfold parse_soup in Hrun.
    erewrite bind_run in Hrun by apply find_all_run.
    pose proof (BeautifulSoup_well_formed 0 (m :: ms)) as Hwf.
    assert (Hsame : forall e,
               In e (matching [lit "entry"]
                       (contents_in (BeautifulSoup_from 0 (m :: ms)) 0)) ->
               lookup e (BeautifulSoup_from 0 (m :: ms)) <> None
               /\ lookup e (BeautifulSoup_from 0 (m :: ms))
                  = lookup e (BeautifulSoup_from 0 (m :: ms))).
    { intros e He. split; [now apply entries_in_document | reflexivity]. }
    destruct (entries_loop word _ _ _ Hwf Hap Hsame Hrun) as (rs & Hrs & ->).
    exists rs. auto.
Qed.

(** * Where the groups of a card come from *)

Lemma for_each_invariant_in (X B : Type) (P : B -> Prop) (I : node -> Prop)
    (body : X -> B -> M B) (xs : list X) :
  (forall x acc soup acc' soup',
      In x xs -> I soup -> P acc -> body x acc soup = Ok (acc', soup') ->
      I soup' /\ P acc') ->
  forall acc soup acc' soup',
    I soup -> P acc -> for_each xs body acc soup = Ok (acc', soup') ->
    I soup' /\ P acc'.
Proof.
  induction xs as [|x xs IH]; intros Hb acc soup acc' soup' HI HP H.
  - apply ret_ok in H as [-> ->]. auto.
  - cbn [for_each] in H. apply bind_ok in H as (a & s1 & H1 & H).
    destruct (Hb _ _ _ _ _ (or_introl eq_refl) HI HP H1) as [HI1 HP1].
    eapply IH; [|exact HI1|exact HP1|exact H].
    intros y acc0 s0 acc0' s0' Hy. apply Hb. now right.
Qed.

Lemma first_named_prune_none (p : node -> bool) (name : str) (cs : list node) :
  first_named name cs = None -> first_named name (prune p cs) = None.
Proof.
  unfold first_named. intros H.
  destruct (filter (has_name [name]) (descendants (prune p cs)))
    as [|n' l] eqn:E; [reflexivity|]. exfalso.
  assert (Hin : In n' (filter (has_name [name]) (descendants (prune p cs))))
    by (rewrite E; now left).
  apply filter_In in Hin as [Hin Hname].
  apply in_descendants_prune in Hin as (n & Hn & ->).
  rewrite has_name_prune in Hname.
  assert (Hf : In n (filter (has_name [name]) (descendants cs)))
    by (apply filter_In; auto).
  destruct (filter (has_name [name]) (descendants cs)); [destruct Hf|].
  discriminate.
Qed.

Lemma category_normal (sl_type : str) (bc : list node) :
  existsb (Str.eqb sl_type) KEEP_SL_TYPES = true ->
  normal_spaces (category_of sl_type bc) = true.
Proof.
  intros Hk. unfold category_of.
  destruct (first_named (lit "sl-g-head") bc);
    [apply strip_sub_spaces_normal|].
  destruct (keep_upper _ Hk) as [<- _]. apply strip_sub_spaces_normal.
Qed.

Lemma get_gone (key default : str) (t : nat) (soup : node) :
  lookup t soup = None -> get key default t soup = AttributeError.
Proof. unfold get. now intros ->. Qed.

Section Provenance.

Variable doc : node.
Hypothesis doc_well_formed : well_formed doc.

Lemma state_of_doc_step (A : nat) (s s' : node) :
  state_of_doc doc s -> pruned_within (ids [s]) s s' -> state_of_doc doc s'.
Proof.
  intros [Hwf (D & ->)] (D' & _ & ->).
  split; [now apply well_formed_prune_node|].
  exists (D ++ D'). apply prune_node_id_in_app.
Qed.

Lemma parse_blk_provenance (blk : nat) (acc acc' : list Group.t)
    (s s' : node) :
  (forall nm at_ bc,
      lookup blk doc = Some (Tag blk nm at_ bc) -> nm = lit "sl-g-blk") ->
  state_of_doc doc s -> Forall (kept_group doc) acc ->
  parse_blk blk acc s = Ok (acc', s') ->
  state_of_doc doc s' /\ Forall (kept_group doc) acc'.
Proof.
  intros Hname Hs Hacc H. split.
  - eapply (state_of_doc_step blk Hs).
    eapply parse_blk_below; [apply closed_all, Hs | left; reflexivity | exact H].
  - destruct Hs as [Hwf (D & ->)].
    destruct (lookup blk (prune_node (id_in D) doc)) as [n|] eqn:Hl.
    + destruct (lookup_some _ _ Hl) as [_ (nm & at_ & bc & ->)].
      destruct (existsb (Str.eqb (dict_get (lit "sl") at_ [])) KEEP_SL_TYPES)
        eqn:Hk.
      * destruct (@parse_blk_kept _ blk _ _ _ acc Hwf Hl Hk) as (items & s2 & Hrun & _).
        rewrite Hrun in H. injection H as <- _.
        destruct items as [|item items]; [assumption|].
        apply Forall_app. split; [assumption|].
        constructor; [|constructor].
        destruct (@lookup_prune_node _ _ _ _ _ _ doc_well_formed Hl) as (bc0 & Hl0 & ->).
        split; [discriminate|]. split.
        -- exists blk, at_, bc0, D.
           rewrite (Hname _ _ _ Hl0) in Hl0.
           split; [now apply lookup_some in Hl0 as [Hin _]|].
           split; [assumption | reflexivity].
        -- cbn [Group.category]. now apply category_normal.
      * rewrite (@parse_blk_skipped _ blk _ _ _ acc Hl Hk) in H. now injection H as <- _.
    + unfold parse_blk in H. unfold bind at 1 in H.
      rewrite (@get_gone _ _ _ _ Hl) in H. discriminate.
Qed.

Lemma blocks_of_state (s : node) (entry blk : nat) :
  state_of_doc doc s ->
  In blk (matching [lit "sl-g-blk"] (contents_in s entry)) ->
  forall nm at_ bc,
    lookup blk doc = Some (Tag blk nm at_ bc) -> nm = lit "sl-g-blk".
Proof.
  intros [Hwf (D & ->)] Hblk nm at_ bc Hl0. unfold matching in Hblk.
  apply in_ids_of in Hblk as (nm1 & at1 & sub1 & Hin).
  apply filter_In in Hin as [Hin Hn].
  pose proof (@lookup_in _ _ _ _ _ Hwf (contents_below _ _ _ Hin)) as Hl.
  destruct (@lookup_prune_node _ _ _ _ _ _ doc_well_formed Hl) as (bc0 & Hl1 & _).
  rewrite Hl1 in Hl0. injection Hl0 as <- _ _.
  cbn [has_name existsb] in Hn. rewrite orb_false_r in Hn.
  now apply eqb_eq in Hn.
Qed.

Lemma parse_entry_provenance (word : str) (entry : nat) (s s' : node)
    (r : option Card.t) :
  state_of_doc doc s ->
  parse_entry word entry s = Ok (r, s') ->
  state_of_doc doc s'
  /\ forall card, r = Some card ->
       Forall (kept_group doc) (Card.collocation_groups card).
Proof.
  intros Hs H. split.
  - eapply (state_of_doc_step entry Hs).
    eapply parse_entry_below; [apply closed_all, Hs | exact H].
  - unfold parse_entry in H.
    apply bind_ok in H as (headword & s1 & Hw & H).
    assert (s1 = s) as ->.
    { unfold entry_headword in Hw.
      apply bind_ok in Hw as (h & s0 & Hf & Hw). apply find_state in Hf.
      subst s0. now apply text_or_state in Hw. }
    apply bind_ok in H as ([[[pos sn] en] cn] & s1 & Hhead & H).
    assert (Hs1 : state_of_doc doc s1).
    { eapply (state_of_doc_step entry Hs).
      eapply entry_head_below; [apply closed_all, Hs | exact Hhead]. }
    apply bind_ok in H as (groups & s2 & Hg & H).
    assert (Hgroups : Forall (kept_group doc) groups).
    { unfold entry_groups in Hg.
      erewrite bind_run in Hg by apply find_all_run.
      eapply (@for_each_invariant_in _ _ (Forall (kept_group doc)) (state_of_doc doc));
        [|exact Hs1|constructor|exact Hg].
      intros blk acc s3 acc' s3' Hblk Hs3 Hacc Hrun. revert Hrun.
      apply parse_blk_provenance; try assumption.
      eapply blocks_of_state; [exact Hs1 | exact Hblk]. }
    intros card ->. destruct groups as [|g groups];
      apply ret_ok in H as [H _]; [discriminate|].
    injection H as ->. exact Hgroups.
Qed.

End Provenance.

Lemma groups_of_kept_blocks (html_content : list markup) (word : str)
    (cards : list Card.t) :
  parse_collocation_html html_content word = Ok cards ->
  Forall (fun card =>
            Forall (fun g =>
                      Group.items g <> []
                      /\ group_of_kept_block
                           (BeautifulSoup_from 0 html_content) g
                      /\ normal_spaces (Group.category g) = true)
              (Card.collocation_groups card)) cards.
Proof.
  unfold parse_collocation_html, parse_collocation_html_from.
  destruct html_content as [|m ms]; [intros [= <-]; constructor|].
  destruct (parse_soup 0 word (BeautifulSoup_from 0 (m :: ms)))
    as [[cards' soup']|] eqn:Hrun; [|discriminate].
  intros [= ->]. unfold parse_soup in Hrun.
  erewrite bind_run in Hrun by apply find_all_run.
  pose proof (BeautifulSoup_well_formed 0 (m :: ms)) as Hwf.
  set (doc := BeautifulSoup_from 0 (m :: ms)) in *.
  eapply (@for_each_invariant_state _ _
            (Forall (fun card =>
                       Forall (fun g =>
                                 Group.items g <> []
                                 /\ group_of_kept_block doc g
                                 /\ normal_spaces (Group.category g) = true)
                         (Card.collocation_groups card)))
            (fun s => well_formed s
                      /\ exists D, s = prune_node (id_in D) doc));
    [| |constructor|exact Hrun].
  - intros entry acc s acc' s' Hs Hacc Hadd. unfold add_card in Hadd.
    apply bind_ok in Hadd as (r & s1 & Hentry & Hret).
    apply ret_ok in Hret as [-> ->].
    destruct (parse_entry_provenance Hwf _ _ Hs Hentry) as [Hs1 Hcard].
    split; [exact Hs1|]. destruct r as [card|]; [|assumption].
    apply Forall_app. split; [assumption|].
    constructor; [|constructor]. now apply Hcard.
  - split; [assumption|]. exists []. now rewrite prune_node_id_in_nil.
Qed.

(** * The sub-group, the block and the entry, as the loop reaches them *)

Lemma no_gloss (l : list node) :
  Forall (fun n => secondary_text (node_contents n) = None) l ->
  flat_map (fun cl => match secondary_text (node_contents cl) with
                      | Some g => [g]
                      | None => []
                      end) l = [].
Proof.
  induction 1 as [|n l Hn _ IH]; [reflexivity|].
  cbn [flat_map]. now rewrite Hn, IH.
Qed.

(** C7. On a well-formed document [_parse_sb_g] returns no item when no
    phrase node of the sub-group has text, and otherwise the item of the
    phrase texts whose one gloss is the gloss of the last phrase node, in
    document order, that carries a secondary-language span: a later
    capture overwrites an earlier one, and phrase nodes without a span
    leave the gloss as it is (empty when no phrase node has one). *)
Theorem gloss_is_last (soup : node) (sb_g : nat) :
  well_formed soup ->
  (exists soup',
      _parse_sb_g sb_g soup
      = Ok (match spec_words (contents_in soup sb_g) with
            | [] => None
            | w :: ws =>
                Some (Item.make (w :: ws)
                        (last (spec_glosses (contents_in soup sb_g)) [])
                        (spec_examples (contents_in soup sb_g)))
            end, soup'))
  /\ (forall before cl after g,
        phrase_nodes (contents_in soup sb_g) = before ++ cl :: after ->
        secondary_text (node_contents cl) = Some g ->
        Forall (fun n => secondary_text (node_contents n) = None) after ->
        last (spec_glosses (contents_in soup sb_g)) [] = g)
  /\ (Forall (fun n => secondary_text (node_contents n) = None)
        (phrase_nodes (contents_in soup sb_g)) ->
      last (spec_glosses (contents_in soup sb_g)) [] = []).
Proof.
  intros Hwf. split; [|split].
  - destruct (parse_sb_g_refines sb_g Hwf) as (soup' & Hrun & _).
    exists soup'. rewrite Hrun. unfold spec_item, spec_gloss.
    now destruct (spec_words (contents_in soup sb_g)).
  - intros before cl after g Hsplit Hg Hafter. unfold spec_glosses.
    rewrite Hsplit, flat_map_app. cbn [flat_map].
    rewrite Hg, (no_gloss Hafter), app_nil_r. apply last_last.
  - intros Hnone. unfold spec_glosses. now rewrite (no_gloss Hnone).
Qed.

Lemma gloss_is_last_witness :
  well_formed (BeautifulSoup [two_gloss_sb_g])
  /\ exists soup',
      _parse_sb_g 1 (BeautifulSoup [two_gloss_sb_g])
      = Ok (Some (Item.make [lit "accord with"; lit "agree with"] zh_yizhi []),
            soup').
Proof.
  split; [apply BeautifulSoup_well_formed|].
  destruct (proj1 (@gloss_is_last (BeautifulSoup [two_gloss_sb_g]) 1
                     (BeautifulSoup_well_formed 0 [two_gloss_sb_g])))
    as (soup' & Hrun).
  exists soup'. exact Hrun.
Defined.

(** C5, as amended. On a well-formed document [_parse_sb_g] returns no
    item, and reads no example, when no phrase node of the sub-group has
    text; otherwise the examples of the item are those of the direct
    example blocks in document order: for each block its first example
    node gives the pair of the node's stripped text without the
    secondary-language, separator and phonetic-mark spans and of the
    stripped text of the node's first secondary-language span (empty
    without one, or when that span is blank), and the pair is left out
    when the English text is empty. *)
Theorem examples_follow_blocks (soup : node) (sb_g : nat) :
  well_formed soup ->
  (exists soup',
      _parse_sb_g sb_g soup
      = Ok (match spec_words (contents_in soup sb_g) with
            | [] => None
            | w :: ws =>
                Some (Item.make (w :: ws)
                        (spec_gloss (contents_in soup sb_g))
                        (spec_examples (contents_in soup sb_g)))
            end, soup'))
  /\ spec_examples (contents_in soup sb_g)
     = flat_map
         (fun x_blk =>
            match first_named (lit "x") (node_contents x_blk) with
            | Some x =>
                if nonempty (example_english (node_contents x))
                then [Example.make (example_english (node_contents x))
                        (example_secondary (node_contents x))]
                else []
            | None => []
            end)
         (filter (has_name [lit "x-blk"]) (contents_in soup sb_g))
  /\ Forall (fun ex => Example.en ex <> [])
       (spec_examples (contents_in soup sb_g))
  /\ (forall x,
        example_english x
        = stripped_text_of
            (prune_names [lit "chn"; lit "chnsep"; lit "fthzmark"] x)
        /\ example_secondary x
           = match first_named (lit "chn") x with
             | Some chn => stripped_text_of (node_contents chn)
             | None => []
             end).
Proof.
  intros Hwf. split; [|split; [|split]].
  - destruct (parse_sb_g_refines sb_g Hwf) as (soup' & Hrun & _).
    exists soup'. rewrite Hrun. unfold spec_item.
    now destruct (spec_words (contents_in soup sb_g)).
  - unfold spec_examples. apply flat_map_ext. intros x_blk.
    unfold spec_example.
    destruct (first_named (lit "x") (node_contents x_blk)); [|reflexivity].
    now destruct (nonempty (example_english (node_contents n))).
  - apply spec_examples_english.
  - intros x. split; [reflexivity|].
    unfold example_secondary, secondary_text.
    now destruct (first_named (lit "chn") x).
Qed.

Lemma examples_follow_blocks_witness :
  well_formed (BeautifulSoup [accord_sb_g])
  /\ exists soup',
      _parse_sb_g 1 (BeautifulSoup [accord_sb_g])
      = Ok (Some (Item.make [lit "accord with"] zh_fuhe
                    [Example.make (lit "It accords with the facts.")
                       zh_xiangfu]), soup').
Proof.
  split; [apply BeautifulSoup_well_formed|].
  destruct (proj1 (@examples_follow_blocks (BeautifulSoup [accord_sb_g]) 1
                     (BeautifulSoup_well_formed 0 [accord_sb_g])))
    as (soup' & Hrun).
  exists soup'. exact Hrun.
Defined.

(** C5 as stated fails: the example node of [blank_span_sb_g] holds the
    English text and two secondary-language spans, one of them with text,
    and the pair extracted from it has an empty secondary text. *)
Lemma blank_span_gives_empty_secondary :
  contents_in (BeautifulSoup [blank_span_sb_g]) 4
  = [NavigableString (lit "Hello");
     Tag 5 (lit "chn") [] [NavigableString (lit " ")];
     Tag 6 (lit "chn") [] [NavigableString zh_nihao]]
  /\ exists soup',
      _parse_sb_g 1 (BeautifulSoup [blank_span_sb_g])
      = Ok (Some (Item.make [lit "go"] [] [Example.make (lit "Hello") []]),
            soup').
Proof. split; [reflexivity|]. eexists. vm_compute. reflexivity. Qed.

(** ** The block *)

Lemma parse_item_grows (sb_gs : list nat) :
  forall (acc items : list Item.t) (s s' : node),
    for_each sb_gs parse_item acc s = Ok (items, s') ->
    exists more, items = acc ++ more.
Proof.
  induction sb_gs as [|sb rest IH]; intros acc items s s' H.
  - apply ret_ok in H as [-> _]. exists []. now rewrite app_nil_r.
  - cbn [for_each] in H. apply bind_ok in H as (acc1 & s1 & H1 & H).
    unfold parse_item in H1. apply bind_ok in H1 as (r & s2 & _ & Hret).
    apply ret_ok in Hret as [-> _].
    apply IH in H as (more & ->). destruct r as [item|].
    + exists (item :: more). now rewrite <- app_assoc.
    + now exists more.
Qed.

(** The loop body on a kept block that is in the document: the items are
    those of the loop over the sub-groups below the block, and a group is
    appended when there is one. *)
Lemma parse_blk_kept_items (soup : node) blk nm attrs bc
    (groups : list Group.t) :
  well_formed soup ->
  lookup blk soup = Some (Tag blk nm attrs bc) ->
  existsb (Str.eqb (dict_get (lit "sl") attrs [])) KEEP_SL_TYPES = true ->
  exists items soup',
    for_each (matching [lit "sb-g"] bc) parse_item [] soup = Ok (items, soup')
    /\ parse_blk blk groups soup
       = Ok (match items with
             | [] => groups
             | _ :: _ =>
                 groups ++ [Group.make
                              (category_of (dict_get (lit "sl") attrs []) bc)
                              items]
             end, soup').
Proof.
  intros Hwf Hl Hkeep. unfold parse_blk.
  erewrite bind_run by (apply (get_run _ _ _ Hl)).
  rewrite Hkeep. cbn [negb].
  destruct (parse_items_run (matching [lit "sb-g"] bc) Hwf (Forall_nil _))
    as (items & soup' & Hrun & _).
  exists items, soup'. split; [exact Hrun|].
  unfold category_of.
  destruct (first_named (lit "sl-g-head") bc) as [head|] eqn:Hhead.
  - destruct (find_found _ Hwf Hl Hhead)
      as (h & nm' & at' & hc & -> & Hfind & Hh).
    erewrite bind_run by exact Hfind.
    erewrite bind_run by apply get_text_run.
    rewrite (contents_in_lookup _ Hh). cbv zeta.
    erewrite bind_run by apply find_all_run.
    rewrite (contents_in_lookup _ Hl).
    erewrite bind_run by exact Hrun.
    reflexivity.
  - erewrite bind_run
      by (apply find_missing; rewrite (contents_in_lookup _ Hl); exact Hhead).
    erewrite bind_run by reflexivity. cbv zeta.
    erewrite bind_run by apply find_all_run.
    rewrite (contents_in_lookup _ Hl).
    erewrite bind_run by exact Hrun.
    destruct (keep_upper _ Hkeep) as [-> _]. reflexivity.
Qed.







(** ** The entry *)

Lemma spec_head_definition (entry def : list node) :
  definition_of entry = Some def ->
  exists pos sense_num,
    spec_head entry
    = (pos, sense_num, definition_english def, definition_secondary def).
Proof.
  intros Hdef. unfold spec_head. rewrite Hdef. unfold definition_of in Hdef.
  destruct (first_named (lit "head") entry); [eauto | discriminate].
Qed.




(** It fails too where an entry lies inside another: the inner entry of
    [nested_def_entries] has a definition with a secondary-language span,
    the outer one has none of its own and reads that of the inner one,
    strip included, and the card of the inner entry has no Chinese
    definition. *)
Remark nested_entry_loses_its_secondary_definition :
  exists card1 card2,
    parse_collocation_html [nested_def_entries] (lit "w") = Ok [card1; card2]
    /\ Card.def_cn card1 = zh_yizhi
    /\ Card.def_cn card2 = []
    /\ apart (BeautifulSoup [nested_def_entries])
         (matching [lit "entry"]
            (contents_in (BeautifulSoup [nested_def_entries]) 0)) = false.
Proof.
  do 2 eexists. split; [vm_compute; reflexivity|]. repeat split.
Qed.




(** Where an entry lies inside another the head word need not be that of
    the entry in the input: the inner entry of [nested_h_entries] has a
    head-word node, in the secondary-language span of an example; the
    round of the outer entry removes the span, and the card of the inner
    entry gets the queried word. *)
Remark nested_entry_takes_the_queried_word :
  exists card1 card2,
    parse_collocation_html [nested_h_entries] (lit "q") = Ok [card1; card2]
    /\ Card.word card1 = lit "hw"
    /\ Card.word card2 = lit "q"
    /\ first_named (lit "h") (contents_in (BeautifulSoup [nested_h_entries]) 3)
       = Some (Tag 10 (lit "h") [] [NavigableString (lit "x")])
    /\ apart (BeautifulSoup [nested_h_entries])
         (matching [lit "entry"]
            (contents_in (BeautifulSoup [nested_h_entries]) 0)) = false.
Proof.
  do 2 eexists. split; [vm_compute; reflexivity|]. repeat split.
Qed.
